(** * Roof synthesis of building_tools: a shallow embedding of
      [core/roof/roof_types.py] and the properties of its specification.

    Numbers.  Python floats are modelled by the rationals [Q]: the float
    comparison [==] is [Qeq_bool], [<] is [Qlt_bool]; rounding error of the
    machine arithmetic is not modelled.

    Mesh.  The Blender mesh ([bmesh]) is the mutable object every function of
    the source receives as [bm].  It is modelled by the record [BMesh] that is
    passed in and returned; vertices, edges and faces are referred to by
    their identifiers, so that a Python list of [BMVert] or [BMEdge] is a
    list of identifiers and reading [v.co] or [e.verts] looks the element up
    in the current mesh.

    Exceptions.  A Python exception is the constructor [Raise] of [result]. *)

From Stdlib Require Import QArith Qabs Qround Lqa List Bool Arith Lia ZArith.
From Stdlib Require Import Permutation.
Import ListNotations.

Set Implicit Arguments.
Open Scope Q_scope.

(* ================================================================== *)
(** ** Python values and built-ins *)

Inductive exn : Type :=
| ValueError | IndexError | ZeroDivisionError | TypeError | ReferenceError.

Inductive result (A : Type) : Type :=
| Ok (a : A)
| Raise (e : exn).
Arguments Ok {A} a.
Arguments Raise {A} e.

Definition bind {A B} (m : result A) (k : A -> result B) : result B :=
  match m with
  | Ok a => k a
  | Raise e => Raise e
  end.

Notation "x <- m ;; k" := (bind m (fun x => k))
  (at level 61, m at next level, right associativity).
Notation "' p <- m ;; k" := (bind m (fun x => match x with p => k end))
  (at level 61, p pattern, m at next level, right associativity).

Definition is_ok {A} (m : result A) : bool :=
  match m with Ok _ => true | Raise _ => false end.

Definition Qlt_bool (a b : Q) : bool := negb (Qle_bool b a).

(** [x / y] on floats: division by zero raises. *)
Definition py_div (x y : Q) : result Q :=
  if Qeq_bool y 0 then Raise ZeroDivisionError else Ok (x / y).

(** [l[-1]] *)
Definition py_last {A} (l : list A) : result A :=
  match rev l with
  | [] => Raise IndexError
  | x :: _ => Ok x
  end.

(** [l[0]] *)
Definition py_first {A} (l : list A) : result A :=
  match l with
  | [] => Raise IndexError
  | x :: _ => Ok x
  end.

Section Builtins.
Variables (A K : Type) (lt : K -> K -> bool) (key : A -> K).

(** [max(l, key=key)]: the first element whose key is maximal; the
    running maximum is replaced only by a strictly greater item. *)
Fixpoint max_from (best : A) (l : list A) : A :=
  match l with
  | [] => best
  | x :: l' => max_from (if lt (key best) (key x) then x else best) l'
  end.

Definition py_max (l : list A) : result A :=
  match l with
  | [] => Raise ValueError
  | x :: l' => Ok (max_from x l')
  end.

(** [min(l, key=key)]: the first element whose key is minimal. *)
Fixpoint min_from (best : A) (l : list A) : A :=
  match l with
  | [] => best
  | x :: l' => min_from (if lt (key x) (key best) then x else best) l'
  end.

Definition py_min (l : list A) : result A :=
  match l with
  | [] => Raise ValueError
  | x :: l' => Ok (min_from x l')
  end.

(** [sorted(l, key=key)]: stable. *)
Fixpoint insert_sorted (x : A) (l : list A) : list A :=
  match l with
  | [] => [x]
  | y :: l' => if lt (key y) (key x) then y :: insert_sorted x l'
               else x :: y :: l'
  end.

Definition py_sorted (l : list A) : list A :=
  fold_right insert_sorted [] l.
End Builtins.

(** The order of Python tuples [(x, y)] of floats. *)
Definition lt_pair (a b : Q * Q) : bool :=
  Qlt_bool (fst a) (fst b)
  || (Qeq_bool (fst a) (fst b) && Qlt_bool (snd a) (snd b)).

(** [list(set(l))] for a list of identifiers: the elements of [l] without
    repetition.  Python fixes no order for a set; the model keeps the order
    of first occurrence. *)
Fixpoint nodup_nat (l : list nat) : list nat :=
  match l with
  | [] => []
  | x :: l' => x :: filter (fun y => negb (Nat.eqb y x)) (nodup_nat l')
  end.

Definition mem (x : nat) (l : list nat) : bool := existsb (Nat.eqb x) l.

(** [list(set(a) - set(b))] *)
Definition set_diff (a b : list nat) : list nat :=
  filter (fun x => negb (mem x b)) (nodup_nat a).

(* ================================================================== *)
(** ** Vectors, skeleton arcs and the mesh *)

Record Vector : Type := mkVector { x : Q; y : Q; z : Q }.

Definition vadd (a b : Vector) : Vector :=
  mkVector (x a + x b) (y a + y b) (z a + z b).
Definition vsub (a b : Vector) : Vector :=
  mkVector (x a - x b) (y a - y b) (z a - z b).
Definition vscale (k : Q) (a : Vector) : Vector :=
  mkVector (k * x a) (k * y a) (k * z a).
Definition vdiv (a : Vector) (k : Q) : Vector :=
  mkVector (x a / k) (y a / k) (z a / k).

Definition veq (a b : Vector) : Prop :=
  x a == x b /\ y a == y b /\ z a == z b.
Definition veqb (a b : Vector) : bool :=
  Qeq_bool (x a) (x b) && Qeq_bool (y a) (y b) && Qeq_bool (z a) (z b).

(** A 2D point of the skeleton solver. *)
Record Point : Type := mkPoint { px : Q; py : Q }.

(** [p == q] on points: equality of both coordinates. *)
Definition point_eqb (p q : Point) : bool :=
  Qeq_bool (px p) (px q) && Qeq_bool (py p) (py q).

(** A skeleton arc: [source], [height] and [sinks]. *)
Record Arc : Type := mkArc { source : Point; height : Q; sinks : list Point }.

Record BMVert : Type := mkVert { v_index : nat; co : Vector }.
(** [e.verts] is the pair [(e_v1, e_v2)]. *)
Record BMEdge : Type := mkEdge { e_index : nat; e_v1 : nat; e_v2 : nat }.
(** A face is the cycle of its loops: the vertices in loop order. *)
Record BMFace : Type := mkFace { f_index : nat; f_loops : list nat }.

Record BMesh : Type := mkMesh {
  verts : list BMVert;     (* [bm.verts], in creation order *)
  edges : list BMEdge;     (* [bm.edges] *)
  faces : list BMFace;     (* [bm.faces] *)
  fresh : nat              (* the next unused identifier *)
}.

(** Modelled from the spec: [equal(a, b)] of the package's [utils] module,
    which is not among the sources: "exact-or-tolerant equality with fixed
    epsilon, e.g. 1e-4". *)
Definition EPS : Q := 1 # 10000.
Definition equal (a b : Q) : bool :=
  Qeq_bool a b || Qle_bool (Qabs (a - b)) EPS.

(* ================================================================== *)
(** ** [vert_at_loc] *)

(** The test of the loop body: the vertex lies at [loc] in x and y and,
    when a truthy [loc_z] is given, at [loc_z] in z.  [if loc_z:] is false
    for [None] and for [0.0]. *)
Definition at_loc (loc : Point) (loc_z : option Q) (vert : BMVert) : bool :=
  equal (x (co vert)) (px loc) && equal (y (co vert)) (py loc)
  && match loc_z with
     | Some lz => if negb (Qeq_bool lz 0) then equal (z (co vert)) lz else true
     | None => true
     end.

Definition key_z (v : BMVert) : Q := z (co v).

Definition vert_at_loc (loc : Point) (verts : list BMVert) (loc_z : option Q)
  : option BMVert :=
  let results := filter (at_loc loc loc_z) verts in
  match results with
  | [] => None
  | v :: vs => Some (max_from Qlt_bool key_z v vs)
  end.


(* ================================================================== *)
(** ** The mesh kernel

    The operators of Blender's [bmesh] that the hip-roof code calls are not
    part of the repository.  They are modelled on [BMesh] as far as the
    source depends on them; operators whose geometry the source only passes
    on (extrusion, inset, dissolve, normals) are parameters further down. *)

Fixpoint mapM {A B} (f : A -> result B) (l : list A) : result (list B) :=
  match l with
  | [] => Ok []
  | a :: l' => b <- f a;; bs <- mapM f l';; Ok (b :: bs)
  end.

Fixpoint filterM {A} (f : A -> result bool) (l : list A) : result (list A) :=
  match l with
  | [] => Ok []
  | a :: l' => b <- f a;; r <- filterM f l';; Ok (if b then a :: r else r)
  end.

Fixpoint foldM {A S} (f : S -> A -> result S) (l : list A) (s : S) : result S :=
  match l with
  | [] => Ok s
  | a :: l' => s' <- f s a;; foldM f l' s'
  end.

(** Reading an attribute of an element that is no longer in the mesh
    raises. *)
Definition find_vert (bm : BMesh) (i : nat) : result BMVert :=
  match find (fun v => Nat.eqb (v_index v) i) (verts bm) with
  | Some v => Ok v
  | None => Raise ReferenceError
  end.

Definition find_edge (bm : BMesh) (i : nat) : result BMEdge :=
  match find (fun e => Nat.eqb (e_index e) i) (edges bm) with
  | Some e => Ok e
  | None => Raise ReferenceError
  end.

Definition find_face (bm : BMesh) (i : nat) : result BMFace :=
  match find (fun f => Nat.eqb (f_index f) i) (faces bm) with
  | Some f => Ok f
  | None => Raise ReferenceError
  end.

(** [v.is_valid] *)
Definition is_valid (bm : BMesh) (i : nat) : bool :=
  existsb (fun v => Nat.eqb (v_index v) i) (verts bm).

Definition touches (e : BMEdge) (v : nat) : bool :=
  Nat.eqb (e_v1 e) v || Nat.eqb (e_v2 e) v.

Definition connects (a b : nat) (e : BMEdge) : bool :=
  (Nat.eqb (e_v1 e) a && Nat.eqb (e_v2 e) b)
  || (Nat.eqb (e_v1 e) b && Nat.eqb (e_v2 e) a).

Definition other_vert (e : BMEdge) (v : nat) : nat :=
  if Nat.eqb (e_v1 e) v then e_v2 e else e_v1 e.

(** [e.verts] as a list. *)
Definition edge_verts (bm : BMesh) (e : nat) : result (list nat) :=
  ev <- find_edge bm e;; Ok [e_v1 ev; e_v2 ev].

(** [[v for e in es for v in e.verts]] *)
Definition all_edge_verts (bm : BMesh) (es : list nat) : result (list nat) :=
  vss <- mapM (edge_verts bm) es;; Ok (concat vss).

(** [v.link_edges]: the edges of the mesh that use [v]. *)
Definition link_edges (bm : BMesh) (v : nat) : list nat :=
  map e_index (filter (fun e => touches e v) (edges bm)).

(** [bm.edges.get(vs)]: the edge between the two given vertices, if any;
    the kernel rejects a sequence that does not have exactly two items. *)
Definition edges_get (bm : BMesh) (vs : list nat) : result (option nat) :=
  match vs with
  | [a; b] => Ok (option_map e_index (find (connects a b) (edges bm)))
  | _ => Raise TypeError
  end.

(** [bmesh.ops.create_vert(bm, co=location).get("vert")[-1]].  The mesh
    stores single-precision coordinates; as everywhere in this model the
    rounding is left out and the vertex holds [location] itself. *)
Definition make_vert (bm : BMesh) (location : Vector) : BMesh * nat :=
  (mkMesh (verts bm ++ [mkVert (fresh bm) location]) (edges bm) (faces bm)
          (S (fresh bm)),
   fresh bm).

(** [bmesh.ops.contextual_create(bm, geom=[a, b]).get("edges")] with two
    vertices: the edge between them, created unless it exists. *)
Definition contextual_create_verts (bm : BMesh) (a b : nat) : BMesh * list nat :=
  match find (connects a b) (edges bm) with
  | Some e => (bm, [e_index e])
  | None =>
      (mkMesh (verts bm) (edges bm ++ [mkEdge (fresh bm) a b]) (faces bm)
              (S (fresh bm)),
       [fresh bm])
  end.

(** Walks a closed chain of edges from [cur] back to [start], using every
    edge of [rest] once; the vertices met, in order. *)
Fixpoint walk_cycle (fuel start cur : nat) (rest : list BMEdge)
  : option (list nat) :=
  match fuel with
  | O => None
  | S n =>
      match find (fun e => touches e cur) rest with
      | None => None
      | Some e =>
          let rest' :=
            filter (fun e' => negb (Nat.eqb (e_index e') (e_index e))) rest in
          let nxt := other_vert e cur in
          if Nat.eqb nxt start then
            match rest' with [] => Some [cur] | _ => None end
          else option_map (cons cur) (walk_cycle n start nxt rest')
      end
  end.

Fixpoint nodupb (l : list nat) : bool :=
  match l with
  | [] => true
  | a :: l' => negb (mem a l') && nodupb l'
  end.

Definition same_set (a b : list nat) : bool :=
  forallb (fun v => mem v b) a && forallb (fun v => mem v a) b.

(** [bmesh.ops.contextual_create(bm, geom=es)] with edges only (the edge-net
    fill), on the edge sets the properties below exercise: when the edges
    form one simple closed chain of at least three edges, the face they
    bound is created, unless a face on the same vertices exists.  On an
    edge set that is not one closed chain the kernel first prepares the
    net, which can add closing edges, and may then fill a face; the model
    creates nothing there, and nothing below is concluded from that
    case. *)
Definition contextual_create_edges (bm : BMesh) (es : list nat) : result BMesh :=
  evs <- mapM (find_edge bm) (nodup_nat es);;
  match evs with
  | [] => Ok bm
  | e0 :: rest =>
      match walk_cycle (List.length evs) (e_v1 e0) (e_v2 e0) rest with
      | Some tl =>
          let loop := e_v1 e0 :: tl in
          if nodupb loop && Nat.leb 3 (List.length loop)
             && negb (existsb (fun f => same_set (f_loops f) loop) (faces bm))
          then Ok (mkMesh (verts bm) (edges bm)
                          (faces bm ++ [mkFace (fresh bm) loop])
                          (S (fresh bm)))
          else Ok bm
      | None => Ok bm
      end
  end.

Definition dist2 (a b : Vector) : Q :=
  let d := vsub a b in x d * x d + y d * y d + z d * z d.

(** The vertices kept by a merge by distance, in the order in which they
    are met, and for every merged vertex the kept vertex it is welded
    to. *)
Fixpoint weld_plan (dist : Q) (kept : list BMVert) (vs : list BMVert)
  : list BMVert * list (nat * nat) :=
  match vs with
  | [] => (kept, [])
  | v :: vs' =>
      match find (fun u => Qle_bool (dist2 (co u) (co v)) (dist * dist)) kept with
      | Some u =>
          let '(k, m) := weld_plan dist kept vs' in
          (k, (v_index v, v_index u) :: m)
      | None => weld_plan dist (kept ++ [v]) vs'
      end
  end.

Definition weld_target (m : list (nat * nat)) (v : nat) : nat :=
  match find (fun p => Nat.eqb (fst p) v) m with
  | Some p => snd p
  | None => v
  end.

Definition welded (m : list (nat * nat)) (v : nat) : bool :=
  existsb (fun p => Nat.eqb (fst p) v) m.

Fixpoint dedup_edges (seen es : list BMEdge) : list BMEdge :=
  match es with
  | [] => []
  | e :: es' =>
      if Nat.eqb (e_v1 e) (e_v2 e)
         || existsb (connects (e_v1 e) (e_v2 e)) seen
      then dedup_edges seen es'
      else e :: dedup_edges (e :: seen) es'
  end.

(** [bmesh.ops.remove_doubles(bm, verts=bm.verts, dist=dist)].  With the
    distance [0] the operator merges nothing, and a mesh without close
    vertices is left as it is.  Otherwise vertices within [dist] of a kept
    vertex are welded to it; the kept vertex does not move.  Which of two
    close vertices is kept is decided by the kernel's spatial search; the
    model keeps the one created last, as the kernel does with the
    vertices of a split in crossing resolution.  An edge with a welded
    end is deleted with that end, so its identifier no longer names an
    edge; the edge between the targets replaces it, a new one unless the
    mesh has one, and nothing if the two ends are welded together.  Faces
    are rebuilt on the targets and dropped when fewer than three corners
    are left; the model keeps their identifiers. *)
Definition remove_doubles (dist : Q) (bm : BMesh) : BMesh :=
  if Qle_bool dist 0 then bm
  else
    let '(met, m) := weld_plan dist [] (rev (verts bm)) in
    let kept := rev met in
    match m with
    | [] => bm
    | _ =>
        let at_weld := fun e => welded m (e_v1 e) || welded m (e_v2 e) in
        let untouched := filter (fun e => negb (at_weld e)) (edges bm) in
        let moved := filter at_weld (edges bm) in
        let renewed :=
          map (fun p : nat * BMEdge =>
                 mkEdge (fst p) (weld_target m (e_v1 (snd p)))
                        (weld_target m (e_v2 (snd p))))
              (combine (seq (fresh bm) (List.length moved)) moved) in
        let fs := map (fun f => mkFace (f_index f)
                                       (nodup_nat (map (weld_target m) (f_loops f))))
                      (faces bm) in
        mkMesh kept (dedup_edges [] (untouched ++ renewed))
               (filter (fun f => Nat.leb 3 (List.length (f_loops f))) fs)
               (fresh bm + List.length moved)
    end.

Fixpoint insert_between (a b n : nat) (first : nat) (l : list nat) : list nat :=
  match l with
  | [] => []
  | [u] => if (Nat.eqb u a && Nat.eqb first b) || (Nat.eqb u b && Nat.eqb first a)
           then [u; n] else [u]
  | u :: ((w :: _) as l') =>
      if (Nat.eqb u a && Nat.eqb w b) || (Nat.eqb u b && Nat.eqb w a)
      then u :: n :: insert_between a b n first l'
      else u :: insert_between a b n first l'
  end.

(** The factor of a split is clamped to the interval from 0 to 1. *)
Definition clamp01 (q : Q) : Q :=
  if Qlt_bool q 0 then 0 else if Qlt_bool 1 q then 1 else q.

(** [bmesh.utils.edge_split(e, vert, fac)]: a new vertex is placed [fac],
    clamped to [0, 1], of the way from [vert] to the other end of [e]; a
    new edge joins [vert] to the new vertex and [e] keeps the rest, from
    the new vertex to the other end.  Returns the mesh and
    [(new_edge, new_vert)]. *)
Definition edge_split (bm : BMesh) (e vert : nat) (fac : Q)
  : result (BMesh * (nat * nat)) :=
  ev <- find_edge bm e;;
  if negb (touches ev vert) then Raise ValueError
  else
    let other := other_vert ev vert in
    v <- find_vert bm vert;;
    o <- find_vert bm other;;
    let nv := fresh bm in
    let ne := S (fresh bm) in
    let pos := vadd (co v) (vscale (clamp01 fac) (vsub (co o) (co v))) in
    let es := map (fun e' =>
                     if Nat.eqb (e_index e') e then
                       (if Nat.eqb (e_v1 e') vert
                        then mkEdge e nv (e_v2 e') else mkEdge e (e_v1 e') nv)
                     else e') (edges bm) in
    let fs := map (fun f =>
                     mkFace (f_index f)
                            (insert_between vert other nv
                                            (hd 0%nat (f_loops f)) (f_loops f)))
                  (faces bm) in
    Ok (mkMesh (verts bm ++ [mkVert nv pos]) (es ++ [mkEdge ne vert nv]) fs
               (S (S (fresh bm))),
        (ne, nv)).

(** [bmesh.ops.delete(bm, geom=fs, context="FACES_ONLY")] *)
Definition delete_faces_only (bm : BMesh) (fs : list nat) : BMesh :=
  mkMesh (verts bm) (edges bm)
         (filter (fun f => negb (mem (f_index f) fs)) (faces bm)) (fresh bm).

(** [bmesh.ops.translate(bm, vec=vec, verts=vs)] *)
Definition translate (bm : BMesh) (vec : Vector) (vs : list nat) : BMesh :=
  mkMesh (map (fun v => if mem (v_index v) vs
                        then mkVert (v_index v) (vadd (co v) vec) else v)
              (verts bm))
         (edges bm) (faces bm) (fresh bm).

Fixpoint cyclic_pairs_from (first : nat) (l : list nat) : list (nat * nat) :=
  match l with
  | [] => []
  | [u] => [(u, first)]
  | u :: ((w :: _) as l') => (u, w) :: cyclic_pairs_from first l'
  end.

(** [f.edges]: the edges between consecutive loops of the face. *)
Definition face_edges (bm : BMesh) (f : BMFace) : result (list nat) :=
  mapM (fun p => match find (connects (fst p) (snd p)) (edges bm) with
                 | Some e => Ok (e_index e)
                 | None => Raise ReferenceError
                 end)
       (cyclic_pairs_from (hd 0%nat (f_loops f)) (f_loops f)).

(** [e.link_faces]: the faces that use the edge. *)
Definition link_faces (bm : BMesh) (e : nat) : result (list nat) :=
  fes <- mapM (fun f => es <- face_edges bm f;; Ok (f_index f, es)) (faces bm);;
  Ok (map fst (filter (fun p => mem e (snd p)) fes)).

(** [f.calc_center_median()]: the mean of the corners. *)
Definition calc_center_median (bm : BMesh) (f : BMFace) : result Vector :=
  vs <- mapM (find_vert bm) (f_loops f);;
  match vs with
  | [] => Raise ZeroDivisionError
  | _ => Ok (vdiv (fold_left vadd (map co vs) (mkVector 0 0 0))
                  (inject_Z (Z.of_nat (List.length vs))))
  end.

(** Modelled from the spec: [calc_edge_median(e)] of the package's [utils]
    module, which is not among the sources: the "edge midpoint". *)
Definition calc_edge_median (bm : BMesh) (e : nat) : result Vector :=
  ev <- find_edge bm e;;
  a <- find_vert bm (e_v1 ev);;
  b <- find_vert bm (e_v2 ev);;
  Ok (vdiv (vadd (co a) (co b)) 2).

(* ================================================================== *)
(** ** The roof synthesizer, [core/roof/roof_types.py] *)

Inductive RoofType : Type := FLAT | GABLE | HIP.
Inductive Orientation : Type := HORIZONTAL | VERTICAL.
Inductive Axis : Type := axis_x | axis_y.

(** [getattr(vec, axis)] and [setattr(vec, axis, value)] *)
Definition getattr (v : Vector) (a : Axis) : Q :=
  match a with axis_x => x v | axis_y => y v end.
Definition setattr (v : Vector) (a : Axis) (value : Q) : Vector :=
  match a with
  | axis_x => mkVector value (y v) (z v)
  | axis_y => mkVector (x v) value (z v)
  end.

(** The property bundle [prop]. *)
Record RoofProperty : Type := mkProp {
  roof_type : RoofType;
  thickness : Q;
  outset : Q;
  roof_height : Q;       (* [prop.height] *)
  orient : Orientation
}.

(** The geometry returned by an extrusion, by kind ([filter_geom]). *)
Record Geom : Type := mkGeom {
  geom_verts : list nat; geom_edges : list nat; geom_faces : list nat
}.

(** [get_linked_edges] *)
Definition get_linked_edges (bm : BMesh) (vs : list nat) (filter_edges : list nat)
  : list nat :=
  let linked_edges := flat_map (link_edges bm) vs in
  filter (fun e => mem e filter_edges) linked_edges.

(** [sort_verts_by_loops]: from the loop whose corner is greatest in
    [(x, y)], along [link_loop_prev]. *)
Definition sort_verts_by_loops (bm : BMesh) (face : BMFace) : result (list nat) :=
  vs <- mapM (find_vert bm) (f_loops face);;
  let indexed := combine (seq 0 (List.length vs)) vs in
  start_loop <- py_max lt_pair (fun p : nat * BMVert =>
                                  (x (co (snd p)), y (co (snd p)))) indexed;;
  let k := S (fst start_loop) in
  Ok (rev (firstn k (f_loops face)) ++ rev (skipn k (f_loops face))).

Section Synthesizer.
(** [Vector.length] of [mathutils]: the Euclidean norm, a square root
    that the rationals do not have. *)
Variable vec_length : Vector -> Q.
(** [mathutils.geometry.intersect_line_line_2d(a1, a2, b1, b2)] *)
Variable intersect_line_line_2d :
  Vector -> Vector -> Vector -> Vector -> option Point.
(** [skeletonize(points, holes)], the straight-skeleton solver of the
    package's [utils] module. *)
Variable skeletonize : list Point -> list (list Point) -> list Arc.

(** [e.calc_length()] *)
Definition calc_length (bm : BMesh) (e : BMEdge) : result Q :=
  a <- find_vert bm (e_v1 e);;
  b <- find_vert bm (e_v2 e);;
  Ok (vec_length (vsub (co b) (co a))).

(** *** [find_closest_pair_edges] *)
Definition length_func (bm : BMesh) (pair : nat * nat) : result Q :=
  m1 <- calc_edge_median bm (fst pair);;
  m2 <- calc_edge_median bm (snd pair);;
  Ok (vec_length (vsub m1 m2)).

Definition find_closest_pair_edges (bm : BMesh) (edges_a edges_b : list nat)
  : result (nat * nat) :=
  let pairs := flat_map (fun e1 => map (fun e2 => (e1, e2)) edges_b) edges_a in
  keyed <- mapM (fun p => k <- length_func bm p;; Ok (k, p)) pairs;;
  p <- py_first (py_sorted Qlt_bool fst keyed);;
  Ok (snd p).

(** *** [join_intersecting_verts_and_edges] *)

(** One pass of the inner loop body, for the vertex [v] and the edge [e]. *)
Definition join_visit (v : nat) (st : BMesh * list nat) (e : nat)
  : result (BMesh * list nat) :=
  let '(bm, new_verts) := st in
  ev <- find_edge bm e;;
  if touches ev v then Ok st
  else
    vv <- find_vert bm v;;
    v1 <- find_vert bm (e_v1 ev);;
    v2 <- find_vert bm (e_v2 ev);;
    match intersect_line_line_2d (co vv) (co vv) (co v1) (co v2) with
    | None => Ok st
    | Some _ =>
        let split_vert := e_v1 ev in
        len <- calc_length bm ev;;
        split_factor <- py_div (vec_length (vsub (co v1) (co vv))) len;;
        '(bm', (new_edge, new_vert)) <- edge_split bm e split_vert split_factor;;
        Ok (bm', new_verts ++ [new_vert])
    end.

Definition join_loops (bm : BMesh) (es vs : list nat)
  : result (BMesh * list nat) :=
  foldM (fun st v => foldM (join_visit v) es st) vs (bm, []).

Definition join_intersecting_verts_and_edges (bm : BMesh) (es vs : list nat)
  : result (BMesh * list nat) :=
  '(bm1, new_verts) <- join_loops bm es vs;;
  let bm2 := remove_doubles (1 # 100) bm1 in
  Ok (bm2, filter (is_valid bm2) new_verts).

(** *** [create_hiproof_verts_and_edges] *)

(** The state of the loop over the arcs: the mesh and the two lists. *)
Record HipState : Type := mkHip {
  hip_bm : BMesh;
  skeleton_verts : list nat;
  skeleton_edges : list nat
}.

(** [[arc.height for arc in skeleton if arc.source == source][-1]] *)
Definition source_height (skeleton : list Arc) (src : Point) : result Q :=
  py_last (map height (filter (fun a => point_eqb (source a) src) skeleton)).

(** [min([arc.height for arc in skeleton if sink in arc.sinks])] *)
Definition sink_height (skeleton : list Arc) (sink : Point) : result Q :=
  py_min Qlt_bool (fun h : Q => h)
         (map height
              (filter (fun a => existsb (point_eqb sink) (sinks a)) skeleton)).

(** The source of an arc: found in the mesh, or created. *)
Definition visit_source (skeleton : list Arc) (median : Vector)
           (height_scale : Q) (st : HipState) (arc : Arc)
  : result (HipState * nat) :=
  let src := source arc in
  match vert_at_loc src (verts (hip_bm st)) None with
  | Some v => Ok (st, v_index v)
  | None =>
      h <- source_height skeleton src;;
      let ht := height_scale * h in
      let '(bm', vsource) :=
        make_vert (hip_bm st) (mkVector (px src) (py src) (z median + ht)) in
      Ok (mkHip bm' (skeleton_verts st ++ [vsource]) (skeleton_edges st),
          vsource)
  end.

(** A sink of an arc: found or created, listed, and joined to the source. *)
Definition visit_sink (skeleton : list Arc) (median : Vector)
           (height_scale : Q) (vsource : nat) (st : HipState) (sink : Point)
  : result HipState :=
  '(bm1, vs) <-
    match vert_at_loc sink (verts (hip_bm st)) None with
    | Some v => Ok (hip_bm st, v_index v)
    | None =>
        h <- sink_height skeleton sink;;
        let ht := height_scale * h in
        Ok (make_vert (hip_bm st)
                      (mkVector (px sink) (py sink) (z median + ht)))
    end;;
  let sv := skeleton_verts st ++ [vs] in
  if negb (Nat.eqb vs vsource) then
    let '(bm2, geom) := contextual_create_verts bm1 vsource vs in
    Ok (mkHip bm2 sv (skeleton_edges st ++ geom))
  else Ok (mkHip bm1 sv (skeleton_edges st)).

Definition visit_arc (skeleton : list Arc) (median : Vector)
           (height_scale : Q) (st : HipState) (arc : Arc) : result HipState :=
  '(st1, vsource) <- visit_source skeleton median height_scale st arc;;
  foldM (visit_sink skeleton median height_scale vsource) (sinks arc) st1.

(** The loop [for arc in skeleton]. *)
Definition visit_arcs (bm : BMesh) (skeleton : list Arc) (median : Vector)
           (height_scale : Q) : result HipState :=
  foldM (visit_arc skeleton median height_scale) skeleton (mkHip bm [] []).

Definition create_hiproof_verts_and_edges (bm : BMesh) (skeleton : list Arc)
           (original_edges : list nat) (median : Vector) (height_scale : Q)
  : result (BMesh * list nat) :=
  st <- visit_arcs bm skeleton median height_scale;;
  let bm1 := remove_doubles (1 # 10000) (hip_bm st) in
  sv <- filterM (fun v =>
                   in_skeleton <- all_edge_verts bm1 (skeleton_edges st);;
                   if mem v in_skeleton then
                     in_original <- all_edge_verts bm1 original_edges;;
                     Ok (negb (mem v in_original))
                   else Ok false)
                (skeleton_verts st);;
  '(bm2, new_verts) <-
    join_intersecting_verts_and_edges bm1 (skeleton_edges st) sv;;
  let sv' := filter (is_valid bm2) sv ++ new_verts in
  Ok (bm2, nodup_nat (flat_map (link_edges bm2) sv')).

(** *** [create_hiproof_faces] *)

(** [v1, v2 = vs] *)
Definition unpack2 (vs : list nat) : result (nat * nat) :=
  match vs with
  | [a; b] => Ok (a, b)
  | _ => Raise ValueError
  end.

(** The body of the loop [for ed in original_edges]. *)
Definition face_for_edge (original_edges skeleton_edges : list nat)
           (bm : BMesh) (ed : nat) : result BMesh :=
  vs <- edge_verts bm ed;;
  let linked_skeleton_edges := get_linked_edges bm vs skeleton_edges in
  if Nat.eqb (List.length linked_skeleton_edges) 1 then Ok bm
  else
    '(vs, linked_skeleton_edges) <-
      (if Nat.eqb (List.length linked_skeleton_edges) 0 then
         let linked_original := get_linked_edges bm vs original_edges in
         lv <- all_edge_verts bm linked_original;;
         let vs' := filter (fun v => negb (mem v vs)) lv in
         Ok (vs', get_linked_edges bm vs' skeleton_edges)
       else Ok (vs, linked_skeleton_edges));;
    all_verts <- all_edge_verts bm linked_skeleton_edges;;
    let opposite_verts := set_diff all_verts vs in
    if Nat.eqb (List.length opposite_verts) 1 then
      (* -- found triangle face *)
      contextual_create_edges bm (linked_skeleton_edges ++ [ed])
    else
      edge <- edges_get bm opposite_verts;;
      match edge with
      | Some edge =>
          (* -- found quad *)
          contextual_create_edges bm (linked_skeleton_edges ++ [ed; edge])
      | None =>
          '(v1, v2) <- unpack2 opposite_verts;;
          let next_skeleton_edges :=
            set_diff skeleton_edges linked_skeleton_edges in
          let v1_edges := get_linked_edges bm [v1] next_skeleton_edges in
          let v2_edges := get_linked_edges bm [v2] next_skeleton_edges in
          pair <- find_closest_pair_edges bm v1_edges v2_edges;;
          let pair := [fst pair; snd pair] in
          all_verts <- all_edge_verts bm pair;;
          let opposite_verts := set_diff all_verts opposite_verts in
          if Nat.eqb (List.length opposite_verts) 1 then
            contextual_create_edges bm ([ed] ++ linked_skeleton_edges ++ pair)
          else
            edge <- edges_get bm opposite_verts;;
            match edge with
            | Some edge =>
                contextual_create_edges
                  bm (pair ++ linked_skeleton_edges ++ [ed; edge])
            | None =>
                '(v1, v2) <- unpack2 opposite_verts;;
                let next_skeleton_edges :=
                  set_diff next_skeleton_edges
                           (linked_skeleton_edges ++ pair) in
                let v1_edges := get_linked_edges bm [v1] next_skeleton_edges in
                let v2_edges := get_linked_edges bm [v2] next_skeleton_edges in
                pair2 <- find_closest_pair_edges bm v1_edges v2_edges;;
                let pair2 := [fst pair2; snd pair2] in
                all_verts <- all_edge_verts bm pair2;;
                let opposite_verts := set_diff all_verts opposite_verts in
                if Nat.eqb (List.length opposite_verts) 1 then
                  contextual_create_edges
                    bm ([ed] ++ linked_skeleton_edges ++ pair ++ pair2)
                else Ok bm
            end
      end.

Definition create_hiproof_faces (bm : BMesh)
           (original_edges skeleton_edges : list nat) : result BMesh :=
  foldM (face_for_edge original_edges skeleton_edges) original_edges bm.

(** *** Kernel operators that only the flat and the gable roof use.
    The source passes their results on; their geometry is the kernel's. *)
Variable extrude_face_region : BMesh -> list nat -> BMesh * Geom.
Variable extrude_edge_only : BMesh -> list nat -> BMesh * Geom.
Variable inset_region : BMesh -> list nat -> Q -> BMesh.
Variable recalc_face_normals : BMesh -> BMesh.
(** [bmesh.ops.delete(bm, geom=fs, context="FACES")] *)
Variable delete_faces : BMesh -> list nat -> BMesh.
(** [bmesh.ops.dissolve_faces(bm, faces=fs, use_verts=b).get("region")] *)
Variable dissolve_faces : BMesh -> list nat -> bool -> BMesh * list nat.
(** [f.calc_area()] and [f.normal] *)
Variable calc_area : BMesh -> BMFace -> Q.
Variable normal : BMesh -> BMFace -> Vector.
(** [e.calc_face_angle(1000.0) < math.pi] *)
Variable face_angle_below_pi : BMesh -> nat -> bool.

(** [bmesh.ops.scale(bm, verts=vs, vec=vec)] *)
Definition scale (bm : BMesh) (vec : Vector) (vs : list nat) : BMesh :=
  mkMesh (map (fun v => if mem (v_index v) vs
                        then mkVert (v_index v)
                                    (mkVector (x (co v) * x vec)
                                              (y (co v) * y vec)
                                              (z (co v) * z vec))
                        else v)
              (verts bm))
         (edges bm) (faces bm) (fresh bm).

(** [[f for e in face.edges for f in e.link_faces]] *)
Definition faces_around (bm : BMesh) (face : nat) : result (list nat) :=
  f <- find_face bm face;;
  es <- face_edges bm f;;
  fss <- mapM (link_faces bm) es;;
  Ok (concat fss).

(** *** [create_flat_roof] *)
Definition create_flat_roof (bm : BMesh) (fs : list nat) (prop : RoofProperty)
  : result (BMesh * list nat) :=
  let '(bm1, ret) := extrude_face_region bm fs in
  let bm2 := translate bm1 (mkVector 0 0 (thickness prop)) (geom_verts ret) in
  top_face <- py_last (geom_faces ret);;
  around <- faces_around bm2 top_face;;
  let link_faces := filter (fun f => negb (Nat.eqb f top_face)) around in
  let bm3 := inset_region bm2 link_faces (outset prop) in
  let bm4 := recalc_face_normals bm3 in
  let bm5 := delete_faces bm4 fs in
  around' <- faces_around bm5 top_face;;
  let new_faces := nodup_nat around' in
  Ok (dissolve_faces bm5 new_faces false).

(** *** [is_rectangular] *)

(** Python's [round(v, 4)]: to the nearest multiple of [1e-4], ties to
    the even one. *)
Definition round_half_even (q : Q) : Z :=
  let f := Qfloor q in
  let r := q - inject_Z f in
  if Qlt_bool r (1 # 2) then f
  else if Qlt_bool (1 # 2) r then (f + 1)%Z
  else if Z.even f then f else (f + 1)%Z.

Definition round4 (q : Q) : Q := inject_Z (round_half_even (q * 10000)) / 10000.

(** [sum([f.calc_area() for f in faces])] *)
Definition face_area (bm : BMesh) (fs : list BMFace) : Q :=
  fold_left Qplus (map (calc_area bm) fs) 0.

(** [width * length] of the source: the extents in x and in y between
    the first and the last corner in the order of [(x, y)]. *)
Definition extent_area (bm : BMesh) (fs : list BMFace) : result Q :=
  vs <- mapM (find_vert bm) (flat_map f_loops fs);;
  let vs := py_sorted lt_pair (fun v => (x (co v), y (co v))) vs in
  _min <- py_first vs;;
  _max <- py_last vs;;
  let width := Qabs (x (co _min) - x (co _max)) in
  let length := Qabs (y (co _min) - y (co _max)) in
  Ok (width * length).

Definition is_rectangular (bm : BMesh) (fs : list nat) : result bool :=
  ffs <- mapM (find_face bm) fs;;
  let face_area := face_area bm ffs in
  area <- extent_area bm ffs;;
  if Qeq_bool (round4 face_area) (round4 area) then Ok true else Ok false.

(** *** [extrude_up_and_delete_faces] *)
Definition extrude_up_and_delete_faces (bm : BMesh) (fs : list nat)
           (extrude_depth : Q) : BMesh * list nat :=
  let '(bm1, ret) := extrude_face_region bm fs in
  let bm2 := translate bm1 (mkVector 0 0 extrude_depth) (geom_verts ret) in
  (delete_faces_only bm2 (fs ++ geom_faces ret), geom_edges ret).

(** *** [merge_verts_along_axis] *)

(** The loop [for v in verts: setattr(v.co, axis, mid)]. *)
Definition snap_to_axis (bm : BMesh) (vs : list nat) (axis : Axis) (mid : Q)
  : BMesh :=
  mkMesh (map (fun v => if mem (v_index v) vs
                        then mkVert (v_index v) (setattr (co v) axis mid)
                        else v)
              (verts bm))
         (edges bm) (faces bm) (fresh bm).

(** [getattr((_max.co + _min.co) / 2, axis)] *)
Definition axis_mid (bm : BMesh) (vs : list nat) (axis : Axis) : result Q :=
  vvs <- mapM (find_vert bm) vs;;
  _max <- py_max Qlt_bool (fun v => getattr (co v) axis) vvs;;
  _min <- py_min Qlt_bool (fun v => getattr (co v) axis) vvs;;
  Ok (getattr (vdiv (vadd (co _max) (co _min)) 2) axis).

(** The call of [remove_doubles] gives no [dist]; the operator then
    runs with distance [0], at which it merges nothing: the snapped
    vertices stay apart, on the ridge line. *)
Definition merge_verts_along_axis (bm : BMesh) (vs : list nat) (axis : Axis)
  : result BMesh :=
  mid <- axis_mid bm vs axis;;
  Ok (remove_doubles 0 (snap_to_axis bm vs axis mid)).

(** *** [get_highest_z_facing_faces] *)
Definition get_highest_z_facing_faces (bm : BMesh) : result (list nat) :=
  maxz <- py_max Qlt_bool (fun h : Q => h) (map key_z (verts bm));;
  let top_verts := filter (fun v => Qeq_bool (z (co v)) maxz) (verts bm) in
  Ok (nodup_nat
        (flat_map (fun v =>
                     map f_index
                         (filter (fun f => mem (v_index v) (f_loops f)
                                           && negb (Qeq_bool (z (normal bm f)) 0))
                                 (faces bm)))
                  top_verts)).

(** *** [create_roof_hangs] *)
Definition create_roof_hangs (bm : BMesh) (es : list nat) (size : Q)
  : result (BMesh * list nat) :=
  let '(bm1, ret) := extrude_edge_only bm es in
  let vs := geom_verts ret in
  let bm2 := scale bm1 (mkVector (1 + size) (1 + size) 1) vs in
  let hang_edges :=
    nodup_nat
      (flat_map (fun v =>
                   map e_index
                       (filter (fun e => touches e v
                                         && mem (e_v1 e) vs && mem (e_v2 e) vs)
                               (edges bm2)))
                vs) in
  (* -- fix roof slope at bottom edges *)
  hvs <- all_edge_verts bm2 hang_edges;;
  hvv <- mapM (find_vert bm2) hvs;;
  min_loc_z <- py_min Qlt_bool (fun h : Q => h) (map key_z hvv);;
  let min_verts :=
    nodup_nat (map v_index
                   (filter (fun v => Qeq_bool (z (co v)) min_loc_z) hvv)) in
  Ok (translate bm2 (mkVector 0 0 (- size)) min_verts, hang_edges).

(** *** [fill_roof_faces_from_hang] *)
Definition fill_roof_faces_from_hang (bm : BMesh) (es : list nat)
           (roof_thickness : Q) (axis : Axis) : result BMesh :=
  (* -- extrude edges upwards and fill face *)
  let '(bm1, ret) := extrude_edge_only bm es in
  let es := geom_edges ret in
  let bm2 := translate bm1 (mkVector 0 0 roof_thickness) (geom_verts ret) in
  valid_edges <-
    filterM (fun e =>
               m <- calc_edge_median bm2 e;;
               evs <- all_edge_verts bm2 es;;
               evv <- mapM (find_vert bm2) evs;;
               lowest <- py_min Qlt_bool (fun h : Q => h) (map key_z evv);;
               Ok (negb (Qeq_bool (z m) lowest)))
            es;;
  located <- mapM (fun e => m <- calc_edge_median bm2 e;;
                            Ok (e, getattr m axis)) valid_edges;;
  let edge_loc :=
    fold_right (fun l acc => if existsb (Qeq_bool l) acc then acc else l :: acc)
               [] (map snd located) in
  (* -- fill faces *)
  bm3 <- foldM (fun b loc =>
                  contextual_create_edges
                    b (map fst (filter (fun p => Qeq_bool (snd p) loc) located)))
               edge_loc bm2;;
  Ok (recalc_face_normals bm3).

(** *** [create_gable_roof] *)
Definition gable_axis (prop : RoofProperty) : Axis :=
  match orient prop with HORIZONTAL => axis_x | VERTICAL => axis_y end.

(** The function after its guard, up to the merge of the top vertices
    onto the ridge. *)
Definition gable_ridge (bm : BMesh) (fs : list nat) (prop : RoofProperty)
  : result BMesh :=
  let axis := gable_axis prop in
  let '(bm1, fs1) :=
    if Nat.ltb 1 (List.length fs) then dissolve_faces bm fs true
    else (bm, fs) in
  let '(bm2, es) := extrude_up_and_delete_faces bm1 fs1 (roof_height prop) in
  top <- all_edge_verts bm2 es;;
  merge_verts_along_axis bm2 (nodup_nat top) axis.

(** The function after its guard: the gable is raised. *)
Definition raise_gable (bm : BMesh) (fs : list nat) (prop : RoofProperty)
  : result BMesh :=
  let axis := gable_axis prop in
  bm3 <- gable_ridge bm fs prop;;
  roof_faces <- get_highest_z_facing_faces bm3;;
  rfs <- mapM (find_face bm3) roof_faces;;
  fes <- mapM (face_edges bm3) rfs;;
  let boundary_edges := filter (face_angle_below_pi bm3) (concat fes) in
  let bm4 := delete_faces bm3 roof_faces in
  '(bm5, hang_edges) <- create_roof_hangs bm4 boundary_edges (outset prop);;
  fill_roof_faces_from_hang bm5 hang_edges (thickness prop) axis.

Definition create_gable_roof (bm : BMesh) (fs : list nat) (prop : RoofProperty)
  : result BMesh :=
  rect <- is_rectangular bm fs;;
  if negb rect then Ok bm
  else raise_gable bm fs prop.

(** *** [create_hip_roof] *)

(** [prop.height / max([arc.height for arc in skeleton])] *)
Definition height_scale_of (prop : RoofProperty) (skeleton : list Arc)
  : result Q :=
  m <- py_max Qlt_bool (fun h : Q => h) (map height skeleton);;
  py_div (roof_height prop) m.

(** Steps 3 and 4, on the mesh whose top face is deleted. *)
Definition hip_structure (bm : BMesh) (skeleton : list Arc)
           (original_edges : list nat) (median : Vector) (height_scale : Q)
  : result BMesh :=
  (* 3. -- create edges and vertices *)
  '(bm3, skeleton_edges) <-
    create_hiproof_verts_and_edges bm skeleton original_edges median
                                   height_scale;;
  (* 4. -- create faces *)
  create_hiproof_faces bm3 original_edges skeleton_edges.

Definition create_hip_roof (bm : BMesh) (fs : list nat) (prop : RoofProperty)
  : result BMesh :=
  '(bm1, fs1) <- create_flat_roof bm fs prop;;
  face_id <- py_last fs1;;
  face <- find_face bm1 face_id;;
  median <- calc_center_median bm1 face;;
  (* get verts in anti-clockwise order *)
  original_edges <- face_edges bm1 face;;
  vs <- sort_verts_by_loops bm1 face;;
  vvs <- mapM (find_vert bm1) vs;;
  let points := map (fun v => mkPoint (x (co v)) (y (co v))) vvs in
  (* compute skeleton *)
  let skeleton := skeletonize points [] in
  let bm2 := delete_faces_only bm1 fs1 in
  height_scale <- height_scale_of prop skeleton;;
  hip_structure bm2 skeleton original_edges median height_scale.

(** *** [create_roof] ([select(faces, False)] only changes the selection
    flags of the user interface, which the mesh model does not carry) *)
Definition create_roof (bm : BMesh) (fs : list nat) (prop : RoofProperty)
  : result BMesh :=
  match roof_type prop with
  | FLAT => '(bm', _) <- create_flat_roof bm fs prop;; Ok bm'
  | GABLE => create_gable_roof bm fs prop
  | HIP => create_hip_roof bm fs prop
  end.
End Synthesizer.

(* ================================================================== *)
(** ** The statements of the specification, and example meshes *)

(** The vertices of [bm'] created since [bm]. *)
Definition created_verts (bm bm' : BMesh) : list BMVert :=
  skipn (List.length (verts bm)) (verts bm').

(** The height-scaling property as the specification words it: one ridge
    vertex, the apex, lies [h] above the footprint and every other ridge
    vertex lies strictly between the footprint and the apex. *)
Definition strictly_below_apex (footprint_z h : Q) (ridge : list BMVert) : Prop :=
  exists apex,
    In apex ridge /\ z (co apex) - footprint_z == h
    /\ forall v, In v ridge -> v <> apex ->
                 footprint_z < z (co v) /\ z (co v) < z (co apex).

(** The top face of a square of side 4 at z = 0, and the arc of its
    skeleton: the centre, at height 2, above the four corners. *)
Definition square_top : BMesh :=
  mkMesh [mkVert 0 (mkVector 0 0 0); mkVert 1 (mkVector 4 0 0);
          mkVert 2 (mkVector 4 4 0); mkVert 3 (mkVector 0 4 0)]
         [mkEdge 4 0 1; mkEdge 5 1 2; mkEdge 6 2 3; mkEdge 7 3 0]
         [mkFace 8 [0; 1; 2; 3]%nat] 9.

Definition square_arc : Arc :=
  mkArc (mkPoint 2 2) 2
        [mkPoint 0 0; mkPoint 4 0; mkPoint 4 4; mkPoint 0 4].

(** A rectangle of 4 by 2 at z = 0 without its top face, and its skeleton:
    the two ends of the ridge, both at height 1. *)
Definition rectangle_top : BMesh :=
  mkMesh [mkVert 0 (mkVector 0 0 0); mkVert 1 (mkVector 4 0 0);
          mkVert 2 (mkVector 4 2 0); mkVert 3 (mkVector 0 2 0)]
         [mkEdge 4 0 1; mkEdge 5 1 2; mkEdge 6 2 3; mkEdge 7 3 0]
         [] 9.

Definition rectangle_skeleton : list Arc :=
  [mkArc (mkPoint 1 1) 1 [mkPoint 0 0; mkPoint 0 2];
   mkArc (mkPoint 3 1) 1 [mkPoint 4 0; mkPoint 4 2; mkPoint 1 1]].


(** The area of the bounding box of the corners of the faces, as the
    specification names it: the extent in x times the extent in y. *)
Definition bounding_box_area (bm : BMesh) (fs : list BMFace) : result Q :=
  vs <- mapM (find_vert bm) (flat_map f_loops fs);;
  max_x <- py_max Qlt_bool (fun v => x (co v)) vs;;
  min_x <- py_min Qlt_bool (fun v => x (co v)) vs;;
  max_y <- py_max Qlt_bool (fun v => y (co v)) vs;;
  min_y <- py_min Qlt_bool (fun v => y (co v)) vs;;
  Ok ((x (co max_x) - x (co min_x)) * (y (co max_y) - y (co min_y))).

(** The area of a face that lies in a plane of constant z, by the
    shoelace formula: what [f.calc_area()] is for such a face. *)
Definition polygon_area (bm : BMesh) (f : BMFace) : Q :=
  match mapM (find_vert bm) (f_loops f) with
  | Ok (v0 :: vs) =>
      Qabs (fold_left Qplus
                      (map (fun p : BMVert * BMVert =>
                              x (co (fst p)) * y (co (snd p))
                              - x (co (snd p)) * y (co (fst p)))
                           (combine (v0 :: vs) (vs ++ [v0])))
                      0) / 2
  | _ => 0
  end.

(** A footprint of one face, a parallelogram that is not a rectangle. *)
Definition parallelogram : BMesh :=
  mkMesh [mkVert 0 (mkVector 0 0 0); mkVert 1 (mkVector 1 (- (1 # 2)) 0);
          mkVert 2 (mkVector 2 1 0); mkVert 3 (mkVector 1 (3 # 2) 0)]
         [mkEdge 4 0 1; mkEdge 5 1 2; mkEdge 6 2 3; mkEdge 7 3 0]
         [mkFace 8 [0; 1; 2; 3]%nat] 9.

(** A footprint of one face, a square standing on a corner. *)
Definition diamond : BMesh :=
  mkMesh [mkVert 0 (mkVector 1 0 0); mkVert 1 (mkVector 2 1 0);
          mkVert 2 (mkVector 1 2 0); mkVert 3 (mkVector 0 1 0)]
         [mkEdge 4 0 1; mkEdge 5 1 2; mkEdge 6 2 3; mkEdge 7 3 0]
         [mkFace 8 [0; 1; 2; 3]%nat] 9.

(** A ridge vertex on a skeleton edge: the edge runs from [(0, 0, 0)] to
    [(4, 0, 0)] and the vertex 2 lies on it at [(1, 0, 0)]. *)
Definition crossing : BMesh :=
  mkMesh [mkVert 0 (mkVector 0 0 0); mkVert 1 (mkVector 4 0 0);
          mkVert 2 (mkVector 1 0 0)]
         [mkEdge 3 0 1] [] 4.

(** The length of a vector that runs along one axis. *)
Definition axis_length (v : Vector) : Q :=
  Qabs (x v) + Qabs (y v) + Qabs (z v).

(** A segment test for the point [p] (given twice, as the source does)
    and the segment from [a] to [b]: [p] is collinear with the segment and
    between its ends. *)
Definition point_on_segment (p _p a b : Vector) : option Point :=
  let cross := (x b - x a) * (y p - y a) - (y b - y a) * (x p - x a) in
  let dot := (x p - x a) * (x b - x a) + (y p - y a) * (y b - y a) in
  let len2 := (x b - x a) * (x b - x a) + (y b - y a) * (y b - y a) in
  if Qeq_bool cross 0 && Qle_bool 0 dot && Qle_bool dot len2
  then Some (mkPoint (x p) (y p)) else None.

(** An eave edge 4 from vertex 0 to vertex 1 whose two skeleton edges 5
    and 6 lead to the ridge vertices 2 and 3; these are not joined and no
    further skeleton edge leaves them. *)
Definition open_ridge : BMesh :=
  mkMesh [mkVert 0 (mkVector 0 0 0); mkVert 1 (mkVector 4 0 0);
          mkVert 2 (mkVector 1 1 1); mkVert 3 (mkVector 3 1 1)]
         [mkEdge 4 0 1; mkEdge 5 2 0; mkEdge 6 3 1] [] 7.

(** Arcs that give the rectangle such an open ridge: two nodes, each
    above one corner only. *)
Definition open_skeleton : list Arc :=
  [mkArc (mkPoint 1 1) 1 [mkPoint 0 0]; mkArc (mkPoint 3 1) 1 [mkPoint 4 0]].

(** An eave edge 8 from vertex 0 to vertex 1 under two chains of three
    skeleton edges each, 0-2-4-6 and 1-3-5-7, that do not meet. *)
Definition long_gap : BMesh :=
  mkMesh [mkVert 0 (mkVector 0 0 0); mkVert 1 (mkVector 8 0 0);
          mkVert 2 (mkVector 1 1 1); mkVert 3 (mkVector 7 1 1);
          mkVert 4 (mkVector 2 2 1); mkVert 5 (mkVector 6 2 1);
          mkVert 6 (mkVector 3 3 1); mkVert 7 (mkVector 5 3 1)]
         [mkEdge 8 0 1; mkEdge 9 2 0; mkEdge 10 3 1; mkEdge 11 4 2;
          mkEdge 12 5 3; mkEdge 13 6 4; mkEdge 14 7 5] [] 15.

(** Every eave edge borders at least one face of the mesh. *)
Definition eave_edges_covered (bm : BMesh) (original_edges : list nat) : bool :=
  match mapM (link_faces bm) original_edges with
  | Ok lf => forallb (fun fs => negb (Nat.eqb (List.length fs) 0)) lf
  | Raise _ => false
  end.

(** An L-shaped and a T-shaped footprint at z = 0 without their top
    faces, with the nodes of their skeletons; every node is at height 1. *)
Definition l_shape : BMesh :=
  mkMesh [mkVert 0 (mkVector 0 0 0); mkVert 1 (mkVector 4 0 0);
          mkVert 2 (mkVector 4 2 0); mkVert 3 (mkVector 2 2 0);
          mkVert 4 (mkVector 2 4 0); mkVert 5 (mkVector 0 4 0)]
         [mkEdge 6 0 1; mkEdge 7 1 2; mkEdge 8 2 3; mkEdge 9 3 4;
          mkEdge 10 4 5; mkEdge 11 5 0] [] 12.

Definition l_skeleton : list Arc :=
  [mkArc (mkPoint 3 1) 1 [mkPoint 4 0; mkPoint 4 2];
   mkArc (mkPoint 1 3) 1 [mkPoint 2 4; mkPoint 0 4];
   mkArc (mkPoint 1 1) 1 [mkPoint 0 0; mkPoint 2 2; mkPoint 3 1; mkPoint 1 3]].

Definition t_shape : BMesh :=
  mkMesh [mkVert 0 (mkVector 2 0 0); mkVert 1 (mkVector 4 0 0);
          mkVert 2 (mkVector 4 2 0); mkVert 3 (mkVector 6 2 0);
          mkVert 4 (mkVector 6 4 0); mkVert 5 (mkVector 0 4 0);
          mkVert 6 (mkVector 0 2 0); mkVert 7 (mkVector 2 2 0)]
         [mkEdge 8 0 1; mkEdge 9 1 2; mkEdge 10 2 3; mkEdge 11 3 4;
          mkEdge 12 4 5; mkEdge 13 5 6; mkEdge 14 6 7; mkEdge 15 7 0] [] 16.

Definition t_skeleton : list Arc :=
  [mkArc (mkPoint 3 1) 1 [mkPoint 2 0; mkPoint 4 0];
   mkArc (mkPoint 5 3) 1 [mkPoint 6 2; mkPoint 6 4];
   mkArc (mkPoint 1 3) 1 [mkPoint 0 4; mkPoint 0 2];
   mkArc (mkPoint 3 3) 1
         [mkPoint 2 2; mkPoint 4 2; mkPoint 3 1; mkPoint 5 3; mkPoint 1 3]].

(** The square of the Euclidean length; it orders vectors as the length
    does. *)
Definition squared_length (v : Vector) : Q :=
  x v * x v + y v * y v + z v * z v.

(** The square with its ridge vertex and the four skeleton edges, before
    the faces are made. *)
Definition square_ridge : BMesh :=
  mkMesh [mkVert 0 (mkVector 0 0 0); mkVert 1 (mkVector 4 0 0);
          mkVert 2 (mkVector 4 4 0); mkVert 3 (mkVector 0 4 0);
          mkVert 9 (mkVector 2 2 2)]
         [mkEdge 4 0 1; mkEdge 5 1 2; mkEdge 6 2 3; mkEdge 7 3 0;
          mkEdge 10 9 0; mkEdge 11 9 1; mkEdge 12 9 2; mkEdge 13 9 3]
         [] 14.

(** [bm'] has the vertices and the edges of [bm], unchanged and in the
    same order, followed by new ones, and the same faces. *)
Definition mesh_extends (bm bm' : BMesh) : Prop :=
  (exists vs, verts bm' = verts bm ++ vs)
  /\ (exists es, edges bm' = edges bm ++ es)
  /\ faces bm' = faces bm.

(** [e] names an edge of the mesh that joins two different vertices of
    the mesh. *)
Definition proper_edge (bm : BMesh) (e : nat) : Prop :=
  exists ev, In ev (edges bm) /\ e_index ev = e /\ e_v1 ev <> e_v2 ev
             /\ is_valid bm (e_v1 ev) = true /\ is_valid bm (e_v2 ev) = true.

(** What the loop over the arcs keeps true of its state. *)
Definition arcs_loop_invariant (bm : BMesh) (st : HipState) : Prop :=
  mesh_extends bm (hip_bm st)
  /\ Forall (fun i => is_valid (hip_bm st) i = true) (skeleton_verts st)
  /\ Forall (proper_edge (hip_bm st)) (skeleton_edges st).


(** The number of cuts of [fill_louver] in [core/util_fill/fill_types.py]:
    [count = (2 * louver_count) - 1] and then
    [count = count if count % 2 == 0 else count + 1], on Python integers. *)
Definition louver_cuts (louver_count : Z) : Z :=
  let count := (2 * louver_count - 1)%Z in
  if Z.eqb (count mod 2) 0 then count else (count + 1)%Z.

(** [faces[1::2]] of [fill_louver]: every second element, from the second
    on. *)
Fixpoint every_second {A : Type} (l : list A) : list A :=
  match l with
  | _ :: b :: l' => b :: every_second l'
  | _ => []
  end.

(** A gabled block: the ridge from vertex 4 to vertex 5 at z = 1 over a
    floor at z = 0, with the two roof faces 20 and 21 and the floor face
    22; and the normals of its faces. *)
Definition gabled_block : BMesh :=
  mkMesh [mkVert 0 (mkVector 0 0 0); mkVert 1 (mkVector 4 0 0);
          mkVert 2 (mkVector 4 2 0); mkVert 3 (mkVector 0 2 0);
          mkVert 4 (mkVector 0 1 1); mkVert 5 (mkVector 4 1 1)]
         [mkEdge 6 0 1; mkEdge 7 1 2; mkEdge 8 2 3; mkEdge 9 3 0;
          mkEdge 10 4 5; mkEdge 11 0 4; mkEdge 12 1 5; mkEdge 13 2 5;
          mkEdge 14 3 4]
         [mkFace 20 [0; 1; 5; 4]%nat; mkFace 21 [2; 3; 4; 5]%nat;
          mkFace 22 [0; 3; 2; 1]%nat] 23.

Definition gabled_block_normal (bm : BMesh) (f : BMFace) : Vector :=
  match f_index f with
  | 20%nat => mkVector 0 (- (1)) 1
  | 21%nat => mkVector 0 1 1
  | _ => mkVector 0 0 (- (1))
  end.


(** A vertex placed at [q] is found by a lookup at [p]: the two points
    agree in x and in y within the tolerance. *)
Definition near (p q : Point) : bool :=
  equal (px q) (px p) && equal (py q) (py p).

(** [bm'] has the vertices of [bm], unchanged and in the same order,
    followed by new ones that all satisfy [P]. *)
Definition adds_verts (P : BMVert -> Prop) (bm bm' : BMesh) : Prop :=
  exists more, verts bm' = verts bm ++ more /\ Forall P more.

(** [a] is the last arc of the skeleton whose source is [p]. *)
Definition last_with_source (skeleton : list Arc) (p : Point) (a : Arc)
  : Prop :=
  exists before after,
    skeleton = before ++ a :: after
    /\ point_eqb (source a) p = true
    /\ forall b, In b after -> point_eqb (source b) p = false.

(** [a] has the least height among the arcs of the skeleton that list [p]
    as a sink. *)
Definition least_with_sink (skeleton : list Arc) (p : Point) (a : Arc)
  : Prop :=
  In a skeleton /\ existsb (point_eqb p) (sinks a) = true
  /\ forall b, In b skeleton -> existsb (point_eqb p) (sinks b) = true ->
               height a <= height b.




Definition low_apex_skeleton : list Arc :=
  [mkArc (mkPoint 2 2) 2 [mkPoint 0 0; mkPoint 4 0];
   mkArc (mkPoint 2 2) 1 [mkPoint 4 4; mkPoint 0 4]].

(** The square over a floor that has a vertex under its centre, at
    [(2, 2, -3)]. *)
Definition square_over_centre : BMesh :=
  mkMesh [mkVert 0 (mkVector 0 0 0); mkVert 1 (mkVector 4 0 0);
          mkVert 2 (mkVector 4 4 0); mkVert 3 (mkVector 0 4 0);
          mkVert 9 (mkVector 2 2 (- (3)))]
         [mkEdge 4 0 1; mkEdge 5 1 2; mkEdge 6 2 3; mkEdge 7 3 0]
         [mkFace 8 [0; 1; 2; 3]%nat] 10.


(** The Euclidean length of a vector whose length is rational: the root
    of the squared length, exact when numerator and denominator are
    squares. *)
Definition rational_length (v : Vector) : Q :=
  let s := Qred (squared_length v) in
  inject_Z (Z.sqrt (Qnum s)) / inject_Z (Z.sqrt (Zpos (Qden s))).

(** Crossing resolution as the specification words it: every vertex of
    [vs] that lies on the 2D segment of an edge of [es] it does not touch
    has split that edge at its own position, so that the result has a new
    vertex over that position. *)
Definition split_at_every_crossing
           (test : Vector -> Vector -> Vector -> Vector -> option Point)
           (bm : BMesh) (es vs : list nat) (bm' : BMesh) : Prop :=
  forall v e vv ev v1 v2,
    In v vs -> In e es ->
    find_vert bm v = Ok vv -> find_edge bm e = Ok ev ->
    find_vert bm (e_v1 ev) = Ok v1 -> find_vert bm (e_v2 ev) = Ok v2 ->
    touches ev v = false ->
    test (co vv) (co vv) (co v1) (co v2) <> None ->
    exists nv, In nv (created_verts bm bm')
               /\ x (co nv) == x (co vv) /\ y (co nv) == y (co vv).

(** The state of crossing resolution, the mesh and the list of new
    vertices, has only grown: the vertices are the old ones followed by
    new ones, which the list names in order; every new vertex came with
    one new edge, and the faces are as many as before. *)
Definition crossing_grows (s s' : BMesh * list nat) : Prop :=
  exists added,
    verts (fst s') = verts (fst s) ++ added
    /\ snd s' = snd s ++ map v_index added
    /\ List.length (edges (fst s'))
       = (List.length (edges (fst s)) + List.length added)%nat
    /\ List.length (faces (fst s')) = List.length (faces (fst s)).

(** Two ridge vertices, 2 at [(3, 0, 0)] and 3 at [(1, 0, 0)], on the
    skeleton edge 4 from [(0, 0, 0)] to [(4, 0, 0)]. *)
Definition two_on_one : BMesh :=
  mkMesh [mkVert 0 (mkVector 0 0 0); mkVert 1 (mkVector 4 0 0);
          mkVert 2 (mkVector 3 0 0); mkVert 3 (mkVector 1 0 0)]
         [mkEdge 4 0 1] [] 5.

(** A ridge vertex at [(3, 0, 4)], above the skeleton edge 3 that runs
    from [(0, 0, 0)] to [(8, 0, 0)]. *)
Definition above_the_edge : BMesh :=
  mkMesh [mkVert 0 (mkVector 0 0 0); mkVert 1 (mkVector 8 0 0);
          mkVert 2 (mkVector 3 0 4)]
         [mkEdge 3 0 1] [] 4.

(** A footprint of one face, a rectangle of 4 by 2 at z = 0, and what
    the extrusion of that face may return: a copy of the four corners,
    joined to the corners by side faces, with the copied face, its edges
    and its corners as the extruded geometry. *)
Definition rectangle_floor : BMesh :=
  mkMesh [mkVert 0 (mkVector 0 0 0); mkVert 1 (mkVector 4 0 0);
          mkVert 2 (mkVector 4 2 0); mkVert 3 (mkVector 0 2 0)]
         [mkEdge 4 0 1; mkEdge 5 1 2; mkEdge 6 2 3; mkEdge 7 3 0]
         [mkFace 8 [0; 1; 2; 3]%nat] 9.

Definition extruded_rectangle (bm : BMesh) (fs : list nat) : BMesh * Geom :=
  (mkMesh (verts rectangle_floor
           ++ [mkVert 9 (mkVector 0 0 0); mkVert 10 (mkVector 4 0 0);
               mkVert 11 (mkVector 4 2 0); mkVert 12 (mkVector 0 2 0)])
          (edges rectangle_floor
           ++ [mkEdge 13 9 10; mkEdge 14 10 11; mkEdge 15 11 12;
               mkEdge 16 12 9; mkEdge 17 0 9; mkEdge 18 1 10;
               mkEdge 19 2 11; mkEdge 20 3 12])
          (faces rectangle_floor
           ++ [mkFace 21 [9; 10; 11; 12]%nat; mkFace 22 [0; 1; 10; 9]%nat;
               mkFace 23 [1; 2; 11; 10]%nat; mkFace 24 [2; 3; 12; 11]%nat;
               mkFace 25 [3; 0; 9; 12]%nat])
          26,
   mkGeom [9; 10; 11; 12]%nat [13; 14; 15; 16]%nat [21%nat]).

(** The coordinate of a vertex across the ridge of a gable roof: x when
    the orientation is HORIZONTAL, y when it is VERTICAL. *)
Definition ridge_coordinate (prop : RoofProperty) (v : BMVert) : Q :=
  match orient prop with
  | HORIZONTAL => x (co v)
  | VERTICAL => y (co v)
  end.


(* ================================================================== *)
(** * Properties *)

Unset Implicit Arguments.

(** ** Comparisons and the built-ins *)

Lemma Qlt_bool_iff a b : Qlt_bool a b = true <-> a < b.
Proof.
  unfold Qlt_bool. rewrite negb_true_iff.
  split; intro H.
  - apply Qnot_le_lt. intro L. apply Qle_bool_iff in L. congruence.
  - destruct (Qle_bool b a) eqn:E; [|reflexivity].
    apply Qle_bool_iff in E. exfalso. apply (Qlt_not_le _ _ H E).
Qed.

Lemma Qlt_bool_false a b : Qlt_bool a b = false <-> b <= a.
Proof.
  unfold Qlt_bool. rewrite negb_false_iff. apply Qle_bool_iff.
Qed.

Lemma max_from_in {A : Type} (key : A -> Q) (l : list A) (b : A) :
  max_from Qlt_bool key b l = b \/ In (max_from Qlt_bool key b l) l.
Proof.
  revert b. induction l as [|a l IH]; intro b; simpl.
  - now left.
  - destruct (IH (if Qlt_bool (key b) (key a) then a else b)) as [H|H].
    + rewrite H. destruct (Qlt_bool (key b) (key a)); auto.
    + auto.
Qed.

Lemma max_from_ge_best {A : Type} (key : A -> Q) (l : list A) (b : A) :
  key b <= key (max_from Qlt_bool key b l).
Proof.
  revert b. induction l as [|a l IH]; intro b; simpl.
  - apply Qle_refl.
  - destruct (Qlt_bool (key b) (key a)) eqn:E.
    + apply Qlt_bool_iff in E.
      eapply Qle_trans; [apply Qlt_le_weak, E | apply IH].
    + apply IH.
Qed.

Lemma max_from_ge {A : Type} (key : A -> Q) (l : list A) (b w : A) :
  In w l -> key w <= key (max_from Qlt_bool key b l).
Proof.
  revert b. induction l as [|a l IH]; intros b Hw; simpl in *.
  - contradiction.
  - destruct Hw as [->|Hw].
    + destruct (Qlt_bool (key b) (key w)) eqn:E.
      * apply max_from_ge_best.
      * apply Qlt_bool_false in E.
        eapply Qle_trans; [exact E | apply max_from_ge_best].
    + now apply IH.
Qed.

(** ** [vert_at_loc]: the highest vertex at a location *)

(** C10.  Without z constraint, [vert_at_loc] returns no vertex exactly
    when no vertex of the mesh lies at the location within the tolerance,
    and otherwise a vertex of the mesh that lies there and whose z is at
    least the z of every vertex lying there. *)
Theorem vert_at_loc_highest (loc : Point) (vs : list BMVert) :
  (vert_at_loc loc vs None = None <->
   forall w, In w vs -> at_loc loc None w = false)
  /\ (forall v, vert_at_loc loc vs None = Some v ->
        In v vs /\ at_loc loc None v = true
        /\ forall w, In w vs -> at_loc loc None w = true ->
                     z (co w) <= z (co v)).
Proof.
  unfold vert_at_loc. split.
  - split.
    + intros H w Hw.
      destruct (at_loc loc None w) eqn:E; [|reflexivity].
      assert (In w (filter (at_loc loc None) vs)) as Hin
        by (apply filter_In; auto).
      destruct (filter (at_loc loc None) vs); [contradiction|discriminate].
    + intro H.
      destruct (filter (at_loc loc None) vs) as [|v r] eqn:E; [reflexivity|].
      assert (In v (filter (at_loc loc None) vs)) as Hin
        by (rewrite E; now left).
      apply filter_In in Hin. destruct Hin as [Hin Hat].
      rewrite (H v Hin) in Hat. discriminate.
  - intros v H.
    destruct (filter (at_loc loc None) vs) as [|b r] eqn:E; [discriminate|].
    injection H as <-.
    assert (forall u, In u (b :: r) -> In u vs /\ at_loc loc None u = true)
      as Hsub by (intros u Hu; rewrite <- E in Hu; now apply filter_In in Hu).
    assert (In (max_from Qlt_bool key_z b r) (b :: r)) as Hm.
    { destruct (max_from_in key_z r b) as [->|Hi]; [now left|now right]. }
    destruct (Hsub _ Hm) as [H1 H2].
    repeat split; auto.
    intros w Hw Hat.
    assert (In w (b :: r)) as Hwr by (rewrite <- E; apply filter_In; auto).
    destruct Hwr as [->|Hwr].
    + apply (max_from_ge_best key_z r w).
    + apply (max_from_ge key_z r b w Hwr).
Qed.

Lemma vert_at_loc_highest_witness :
  vert_at_loc (mkPoint 1 1)
              [mkVert 0 (mkVector 1 1 0); mkVert 1 (mkVector 1 1 3);
               mkVert 2 (mkVector 5 1 9)] None
  = Some (mkVert 1 (mkVector 1 1 3))
  /\ In (mkVert 1 (mkVector 1 1 3))
        [mkVert 0 (mkVector 1 1 0); mkVert 1 (mkVector 1 1 3);
         mkVert 2 (mkVector 5 1 9)].
Proof.
  split; [reflexivity|].
  apply (proj2 (vert_at_loc_highest (mkPoint 1 1)
                  [mkVert 0 (mkVector 1 1 0); mkVert 1 (mkVector 1 1 3);
                   mkVert 2 (mkVector 5 1 9)])
               (mkVert 1 (mkVector 1 1 3)) eq_refl).
Defined.

(** ** Lists in the error monad *)

Lemma min_from_in {A : Type} (key : A -> Q) (l : list A) (b : A) :
  min_from Qlt_bool key b l = b \/ In (min_from Qlt_bool key b l) l.
Proof.
  revert b. induction l as [|a l IH]; intro b; simpl.
  - now left.
  - destruct (IH (if Qlt_bool (key a) (key b) then a else b)) as [H|H].
    + rewrite H. destruct (Qlt_bool (key a) (key b)); auto.
    + auto.
Qed.

Lemma min_from_le_best {A : Type} (key : A -> Q) (l : list A) (b : A) :
  key (min_from Qlt_bool key b l) <= key b.
Proof.
  revert b. induction l as [|a l IH]; intro b; simpl.
  - apply Qle_refl.
  - destruct (Qlt_bool (key a) (key b)) eqn:E.
    + apply Qlt_bool_iff in E.
      eapply Qle_trans; [apply IH | apply Qlt_le_weak, E].
    + apply IH.
Qed.

Lemma min_from_le {A : Type} (key : A -> Q) (l : list A) (b w : A) :
  In w l -> key (min_from Qlt_bool key b l) <= key w.
Proof.
  revert b. induction l as [|a l IH]; intros b Hw; simpl in *.
  - contradiction.
  - destruct Hw as [->|Hw].
    + destruct (Qlt_bool (key w) (key b)) eqn:E.
      * apply min_from_le_best.
      * apply Qlt_bool_false in E.
        eapply Qle_trans; [apply min_from_le_best | exact E].
    + now apply IH.
Qed.

Lemma py_last_in {A : Type} (l : list A) (a : A) :
  In a l -> exists v, py_last l = Ok v /\ In v l.
Proof.
  intro H. unfold py_last.
  destruct (rev l) as [|v r] eqn:E.
  - apply in_rev in H. rewrite E in H. contradiction.
  - exists v. split; [reflexivity|].
    apply in_rev. rewrite E. now left.
Qed.

Lemma point_eqb_refl (p : Point) : point_eqb p p = true.
Proof.
  unfold point_eqb. now rewrite !(proj2 (Qeq_bool_iff _ _) (Qeq_refl _)).
Qed.

Lemma foldM_cons {A S : Type} (f : S -> A -> result S) (a : A) (l : list A)
      (s : S) :
  foldM f (a :: l) s = bind (f s a) (fun s' => foldM f l s').
Proof. reflexivity. Qed.

Lemma foldM_invariant {A S : Type} (f : S -> A -> result S) (P : S -> Prop)
      (Q : A -> Prop) (l : list A) (s : S) :
  (forall s a, P s -> Q a -> exists s', f s a = Ok s' /\ P s') ->
  P s -> (forall a, In a l -> Q a) ->
  exists s', foldM f l s = Ok s' /\ P s'.
Proof.
  intro Hstep. revert s. induction l as [|a l IH]; intros s Hs Hl; simpl.
  - now exists s.
  - destruct (Hstep s a Hs (Hl a (or_introl eq_refl))) as (s1 & E & H1).
    rewrite E. simpl. apply IH; auto. intros; apply Hl; now right.
Qed.

Lemma foldM_split {A S : Type} (f : S -> A -> result S) (pre : list A) (a : A)
      (post : list A) (s s' : S) :
  foldM f (pre ++ a :: post) s = Ok s' ->
  exists s0 s1,
    foldM f pre s = Ok s0 /\ f s0 a = Ok s1 /\ foldM f post s1 = Ok s'.
Proof.
  revert s. induction pre as [|b pre IH]; intros s H; simpl in H.
  - destruct (f s a) as [s1|] eqn:E; [|discriminate]. simpl in H.
    exists s, s1. auto.
  - destruct (f s b) as [sb|] eqn:E; [|discriminate]. simpl in H.
    destruct (IH sb H) as (s0 & s1 & H0 & H1 & H2).
    exists s0, s1. simpl. rewrite E. simpl. auto.
Qed.

Lemma foldM_app {A S : Type} (f : S -> A -> result S) (l1 l2 : list A)
      (s : S) :
  foldM f (l1 ++ l2) s = bind (foldM f l1 s) (fun s' => foldM f l2 s').
Proof.
  revert s. induction l1 as [|a l1 IH]; intro s; simpl; [reflexivity|].
  destruct (f s a) as [s1|]; simpl; auto.
Qed.

(** A loop inside a loop visits the pairs of their items in order. *)
Lemma foldM_pairs {A B S : Type} (f : A -> S -> B -> result S)
      (outer : list A) (inner : list B) (s : S) :
  foldM (fun st a => foldM (f a) inner st) outer s
  = foldM (fun st p => f (fst p) st (snd p))
          (flat_map (fun a => map (fun b => (a, b)) inner) outer) s.
Proof.
  revert s. induction outer as [|a outer IH]; intro s; [reflexivity|].
  cbn [flat_map]. rewrite foldM_app, foldM_cons.
  assert (forall l st,
             foldM (fun st p => f (fst p) st (snd p))
                   (map (fun b => (a, b)) l) st
             = foldM (f a) l st) as Hmap.
  { induction l as [|b l IHl]; intro st; simpl; [reflexivity|].
    destruct (f a st b) as [s1|]; simpl; auto. }
  rewrite Hmap.
  destruct (foldM (f a) inner s) as [s1|]; simpl; auto.
Qed.

(** A loop whose steps all succeed and respect a relation succeeds and
    respects it. *)
Lemma foldM_total_rel {A S : Type} (f : S -> A -> result S)
      (R : S -> S -> Prop) (l : list A) :
  (forall s, R s s) ->
  (forall s1 s2 s3, R s1 s2 -> R s2 s3 -> R s1 s3) ->
  (forall s a, In a l -> exists s', f s a = Ok s' /\ R s s') ->
  forall s, exists s', foldM f l s = Ok s' /\ R s s'.
Proof.
  intros Hrefl Htrans. induction l as [|a l IH]; intros Hstep s; simpl.
  - exists s. auto.
  - destruct (Hstep s a (or_introl eq_refl)) as (s1 & E & H1).
    rewrite E. simpl.
    destruct (IH (fun s0 a0 Ha0 => Hstep s0 a0 (or_intror Ha0)) s1)
      as (s' & E' & H').
    exists s'. split; [exact E'|]. now apply (Htrans s s1 s').
Qed.

Lemma mapM_In {A B : Type} (f : A -> result B) (l : list A) (r : list B) :
  mapM f l = Ok r ->
  (forall b, In b r -> exists a, In a l /\ f a = Ok b)
  /\ (forall a, In a l -> exists b, In b r /\ f a = Ok b)
  /\ List.length r = List.length l.
Proof.
  revert r. induction l as [|a l IH]; intros r H; simpl in H.
  - injection H as <-.
    split; [intros ? []|split; [intros ? []|reflexivity]].
  - destruct (f a) as [b|] eqn:E; [|discriminate]. simpl in H.
    destruct (mapM f l) as [bs|] eqn:E'; [|discriminate]. simpl in H.
    injection H as <-. destruct (IH bs eq_refl) as (H1 & H2 & H3).
    repeat split.
    + intros b' [<-|Hb].
      * exists a. split; [now left|exact E].
      * destruct (H1 b' Hb) as (a' & Ha & Ea). exists a'. split; [now right|auto].
    + intros a' [<-|Ha].
      * exists b. split; [now left|exact E].
      * destruct (H2 a' Ha) as (b' & Hb & Eb). exists b'. split; [now right|auto].
    + simpl. now rewrite H3.
Qed.

Lemma mapM_total {A B : Type} (f : A -> result B) (l : list A) :
  (forall a, In a l -> exists b, f a = Ok b) -> exists r, mapM f l = Ok r.
Proof.
  induction l as [|a l IH]; intro H; simpl.
  - now exists [].
  - destruct (H a (or_introl eq_refl)) as (b & ->). simpl.
    destruct IH as (r & ->); [intros; apply H; now right|].
    simpl. now eexists.
Qed.

Lemma mapM_nth {A B : Type} (f : A -> result B) (l : list A) (r : list B)
      (i : nat) (b : B) :
  mapM f l = Ok r -> nth_error r i = Some b ->
  exists a, nth_error l i = Some a /\ f a = Ok b.
Proof.
  revert r i. induction l as [|a l IH]; intros r i H Hn; simpl in H.
  - injection H as <-. destruct i; discriminate.
  - destruct (f a) as [b0|] eqn:E; [|discriminate]. simpl in H.
    destruct (mapM f l) as [bs|] eqn:E'; [|discriminate]. simpl in H.
    injection H as <-. destruct i as [|i]; simpl in *.
    + injection Hn as <-. now exists a.
    + now apply (IH bs).
Qed.

(** A step relation that every step of a loop respects is respected by
    the loop. *)
Lemma foldM_rel {A S : Type} (f : S -> A -> result S) (R : S -> S -> Prop)
      (l : list A) :
  (forall s, R s s) ->
  (forall s1 s2 s3, R s1 s2 -> R s2 s3 -> R s1 s3) ->
  (forall s a s', In a l -> f s a = Ok s' -> R s s') ->
  forall s s', foldM f l s = Ok s' -> R s s'.
Proof.
  intros Hrefl Htrans. induction l as [|a l IH]; intros Hstep s s' H; simpl in H.
  - injection H as <-. apply Hrefl.
  - destruct (f s a) as [s1|] eqn:E; [|discriminate]. simpl in H.
    apply (Htrans s s1 s').
    + apply (Hstep s a s1); [now left|exact E].
    + apply IH; [|exact H]. intros s0 a0 s0' Ha0 E0.
      apply (Hstep s0 a0 s0'); [now right|exact E0].
Qed.

Lemma nodup_nat_In (l : list nat) (i : nat) : In i (nodup_nat l) <-> In i l.
Proof.
  induction l as [|a l IH]; simpl; [tauto|].
  rewrite filter_In, IH, negb_true_iff, Nat.eqb_neq.
  destruct (Nat.eq_dec a i); [subst|]; intuition congruence.
Qed.

Lemma nodup_nat_NoDup (l : list nat) : NoDup (nodup_nat l).
Proof.
  induction l as [|a l IH]; simpl; constructor.
  - rewrite filter_In, negb_true_iff, Nat.eqb_neq. intros [_ H]. congruence.
  - now apply NoDup_filter.
Qed.

Lemma skipn_app_exact {A : Type} (l c : list A) :
  skipn (List.length l) (l ++ c) = c.
Proof. induction l; simpl; auto. Qed.

(** ** Lookups by location *)

Lemma vert_at_loc_spec (loc : Point) (loc_z : option Q) (vs : list BMVert) :
  (vert_at_loc loc vs loc_z = None <->
   forall w, In w vs -> at_loc loc loc_z w = false)
  /\ (forall v, vert_at_loc loc vs loc_z = Some v ->
        In v vs /\ at_loc loc loc_z v = true
        /\ forall w, In w vs -> at_loc loc loc_z w = true ->
                     z (co w) <= z (co v)).
Proof.
  unfold vert_at_loc. split.
  - split.
    + intros H w Hw.
      destruct (at_loc loc loc_z w) eqn:E; [|reflexivity].
      assert (In w (filter (at_loc loc loc_z) vs)) as Hin
        by (apply filter_In; auto).
      destruct (filter (at_loc loc loc_z) vs); [contradiction|discriminate].
    + intro H.
      destruct (filter (at_loc loc loc_z) vs) as [|v r] eqn:E; [reflexivity|].
      assert (In v (filter (at_loc loc loc_z) vs)) as Hin
        by (rewrite E; now left).
      apply filter_In in Hin. destruct Hin as [Hin Hat].
      rewrite (H v Hin) in Hat. discriminate.
  - intros v H.
    destruct (filter (at_loc loc loc_z) vs) as [|b r] eqn:E; [discriminate|].
    injection H as <-.
    assert (forall u, In u (b :: r) -> In u vs /\ at_loc loc loc_z u = true)
      as Hsub by (intros u Hu; rewrite <- E in Hu; now apply filter_In in Hu).
    assert (In (max_from Qlt_bool key_z b r) (b :: r)) as Hm.
    { destruct (max_from_in key_z r b) as [->|Hi]; [now left|now right]. }
    destruct (Hsub _ Hm) as [H1 H2].
    repeat split; auto.
    intros w Hw Hat.
    assert (In w (b :: r)) as Hwr by (rewrite <- E; apply filter_In; auto).
    destruct Hwr as [->|Hwr].
    + apply (max_from_ge_best key_z r w).
    + apply (max_from_ge key_z r b w Hwr).
Qed.

Lemma bool_ext (a b : bool) : (a = true <-> b = true) -> a = b.
Proof. destruct a, b; intuition congruence. Qed.

Lemma equal_comp (a b b' : Q) : b == b' -> equal a b = equal a b'.
Proof.
  intro E. unfold equal. apply bool_ext.
  rewrite !orb_true_iff, !Qeq_bool_iff, !Qle_bool_iff, E. tauto.
Qed.

Lemma equal_comp_l (a a' b : Q) : a == a' -> equal a b = equal a' b.
Proof.
  intro E. unfold equal. apply bool_ext.
  rewrite !orb_true_iff, !Qeq_bool_iff, !Qle_bool_iff, E. tauto.
Qed.

Lemma equal_refl (a : Q) : equal a a = true.
Proof.
  unfold equal. now rewrite (proj2 (Qeq_bool_iff a a) (Qeq_refl a)).
Qed.

(** ** Ridge-vertex synthesis *)

Lemma contextual_create_verts_verts (bm : BMesh) (a b : nat) :
  verts (fst (contextual_create_verts bm a b)) = verts bm.
Proof.
  unfold contextual_create_verts.
  now destruct (find (connects a b) (edges bm)).
Qed.

Lemma source_height_ok (skeleton : list Arc) (arc : Arc) :
  In arc skeleton ->
  exists a, In a skeleton /\ point_eqb (source a) (source arc) = true
            /\ source_height skeleton (source arc) = Ok (height a).
Proof.
  intro Hin. unfold source_height.
  set (l := filter (fun a => point_eqb (source a) (source arc)) skeleton).
  assert (In arc l) as Hl by (apply filter_In; split; auto using point_eqb_refl).
  destruct (py_last_in (map height l) (height arc) (in_map height l arc Hl))
    as (h & E & Hh).
  apply in_map_iff in Hh. destruct Hh as (a & <- & Ha).
  apply filter_In in Ha. destruct Ha as [Ha1 Ha2].
  exists a. auto.
Qed.

Lemma sink_height_ok (skeleton : list Arc) (arc : Arc) (sink : Point) :
  In arc skeleton -> In sink (sinks arc) ->
  exists a, In a skeleton /\ existsb (point_eqb sink) (sinks a) = true
            /\ sink_height skeleton sink = Ok (height a)
            /\ forall b, In b skeleton ->
                         existsb (point_eqb sink) (sinks b) = true ->
                         height a <= height b.
Proof.
  intros Hin Hs. unfold sink_height.
  set (l := filter (fun a => existsb (point_eqb sink) (sinks a)) skeleton).
  assert (In arc l) as Hl.
  { apply filter_In; split; auto. apply existsb_exists.
    exists sink. auto using point_eqb_refl. }
  destruct (map height l) as [|h0 hs] eqn:E.
  - destruct l; [contradiction|discriminate].
  - simpl.
    assert (In (min_from Qlt_bool (fun h : Q => h) h0 hs) (map height l)) as Hm.
    { rewrite E. destruct (min_from_in (fun h : Q => h) hs h0) as [->|H];
        [now left|now right]. }
    apply in_map_iff in Hm. destruct Hm as (a & Ea & Ha).
    apply filter_In in Ha. destruct Ha as [Ha1 Ha2].
    exists a. repeat split; auto.
    + now rewrite Ea.
    + intros b Hb1 Hb2. rewrite Ea.
      assert (In (height b) (h0 :: hs)) as Hb.
      { rewrite <- E. apply in_map. apply filter_In. auto. }
      destruct Hb as [Hb|Hb].
      * rewrite <- Hb. apply (min_from_le_best (fun h : Q => h) hs h0).
      * apply (min_from_le (fun h : Q => h) hs h0 (height b) Hb).
Qed.

(** The last element of a list that passes a test. *)
Lemma last_filtered {A : Type} (p : A -> bool) (l : list A) (a0 : A) :
  In a0 l -> p a0 = true ->
  exists before a after r,
    l = before ++ a :: after /\ p a = true
    /\ (forall b, In b after -> p b = false)
    /\ rev (filter p l) = a :: r.
Proof.
  induction l as [|c l IH] using rev_ind; intros Hin Hp.
  - contradiction.
  - rewrite filter_app, rev_app_distr. simpl.
    destruct (p c) eqn:E.
    + exists l, c, [], (rev (filter p l)). simpl. repeat split; auto.
      intros b [].
    + simpl. apply in_app_or in Hin. destruct Hin as [Hin|[->|[]]];
        [|congruence].
      destruct (IH Hin Hp) as (before & a & after & r & El & Ha & Hafter & Er).
      exists before, a, (after ++ [c]), r. repeat split; auto.
      * rewrite El, <- app_assoc. reflexivity.
      * intros b Hb. apply in_app_or in Hb.
        destruct Hb as [Hb|[<-|[]]]; auto.
Qed.

Lemma source_height_last (skeleton : list Arc) (arc : Arc) :
  In arc skeleton ->
  exists a, last_with_source skeleton (source arc) a
            /\ source_height skeleton (source arc) = Ok (height a).
Proof.
  intro Hin.
  destruct (last_filtered (fun a => point_eqb (source a) (source arc))
                          skeleton arc Hin (point_eqb_refl _))
    as (before & a & after & r & El & Ha & Hafter & Er).
  exists a. split.
  - exists before, after. auto.
  - unfold source_height, py_last. rewrite <- map_rev, Er. reflexivity.
Qed.

Lemma last_with_source_In (skeleton : list Arc) (p : Point) (a : Arc) :
  last_with_source skeleton p a -> In a skeleton.
Proof.
  intros (before & after & -> & _). apply in_or_app. right. now left.
Qed.

Lemma sink_height_least (skeleton : list Arc) (arc : Arc) (sink : Point) :
  In arc skeleton -> In sink (sinks arc) ->
  exists a, least_with_sink skeleton sink a
            /\ sink_height skeleton sink = Ok (height a).
Proof.
  intros Hin Hs.
  destruct (sink_height_ok skeleton arc sink Hin Hs) as (a & H1 & H2 & H3 & H4).
  exists a. unfold least_with_sink. auto.
Qed.

Lemma adds_verts_refl (P : BMVert -> Prop) (bm : BMesh) : adds_verts P bm bm.
Proof. exists []. split; [now rewrite app_nil_r|constructor]. Qed.

Lemma adds_verts_trans (P : BMVert -> Prop) (a b c : BMesh) :
  adds_verts P a b -> adds_verts P b c -> adds_verts P a c.
Proof.
  intros (m1 & E1 & F1) (m2 & E2 & F2). exists (m1 ++ m2). split.
  - now rewrite E2, E1, app_assoc.
  - apply Forall_app; auto.
Qed.

(** The loop over the arcs, for any property [P] that the vertex made for
    a source and the vertex made for a sink have. *)
Section ArcsLoop.
Variables (skeleton : list Arc) (median : Vector) (height_scale : Q).
Variable P : BMVert -> Prop.
Hypothesis Psource :
  forall arc a i,
    In arc skeleton -> last_with_source skeleton (source arc) a ->
    P (mkVert i (mkVector (px (source arc)) (py (source arc))
                          (z median + height_scale * height a))).
Hypothesis Psink :
  forall arc sink a i,
    In arc skeleton -> In sink (sinks arc) -> least_with_sink skeleton sink a ->
    P (mkVert i (mkVector (px sink) (py sink)
                          (z median + height_scale * height a))).

Lemma visit_source_adds (st : HipState) (arc : Arc) :
  In arc skeleton ->
  exists st1 v,
    visit_source skeleton median height_scale st arc = Ok (st1, v_index v)
    /\ adds_verts P (hip_bm st) (hip_bm st1)
    /\ In v (verts (hip_bm st1))
    /\ at_loc (source arc) None v = true.
Proof.
  intro Hin. unfold visit_source.
  destruct (vert_at_loc (source arc) (verts (hip_bm st)) None) as [v|] eqn:Ev.
  - destruct (proj2 (vert_at_loc_spec _ _ _) v Ev) as (Hv & Hat & _).
    exists st, v. repeat split; auto using adds_verts_refl.
  - destruct (source_height_last skeleton arc Hin) as (a & Hlast & E).
    rewrite E. cbn [bind make_vert].
    eexists.
    exists (mkVert (fresh (hip_bm st))
                   (mkVector (px (source arc)) (py (source arc))
                             (z median + height_scale * height a))).
    split; [reflexivity|]. cbn [hip_bm verts]. split; [|split].
    + eexists. split; [reflexivity|].
      constructor; [|constructor]. now apply Psource.
    + apply in_or_app. right. now left.
    + unfold at_loc. cbn [co x y]. now rewrite !equal_refl.
Qed.

Lemma visit_sink_adds (arc : Arc) (vsource : nat) (st : HipState)
      (sink : Point) :
  In arc skeleton -> In sink (sinks arc) ->
  exists st1,
    visit_sink skeleton median height_scale vsource st sink = Ok st1
    /\ adds_verts P (hip_bm st) (hip_bm st1).
Proof.
  intros Hin Hsink. unfold visit_sink.
  destruct (vert_at_loc sink (verts (hip_bm st)) None) as [v|].
  - cbn [bind]. destruct (negb (Nat.eqb (v_index v) vsource)).
    + pose proof (contextual_create_verts_verts (hip_bm st) vsource (v_index v))
        as Hk.
      destruct (contextual_create_verts (hip_bm st) vsource (v_index v))
        as [bm2 geom].
      simpl in Hk. eexists. split; [reflexivity|].
      exists []. simpl. rewrite Hk, app_nil_r. auto.
    + eexists. split; [reflexivity|]. apply adds_verts_refl.
  - destruct (sink_height_least skeleton arc sink Hin Hsink)
      as (a & Hleast & E).
    rewrite E. cbn [bind make_vert].
    set (nv := mkVert (fresh (hip_bm st))
                      (mkVector (px sink) (py sink)
                                (z median + height_scale * height a))).
    assert (P nv) as Hnv by (now apply (Psink arc)).
    destruct (negb (Nat.eqb (fresh (hip_bm st)) vsource)).
    + match goal with
      | |- context [contextual_create_verts ?b ?s ?t] =>
          pose proof (contextual_create_verts_verts b s t) as Hk;
          destruct (contextual_create_verts b s t) as [bm2 geom]
      end.
      simpl in Hk. eexists. split; [reflexivity|].
      exists [nv]. simpl. rewrite Hk. auto.
    + eexists. split; [reflexivity|]. exists [nv]. simpl. auto.
Qed.

Lemma visit_sinks_add (arc : Arc) (vsource : nat) (l : list Point)
      (st : HipState) :
  In arc skeleton -> incl l (sinks arc) ->
  exists st1,
    foldM (visit_sink skeleton median height_scale vsource) l st = Ok st1
    /\ adds_verts P (hip_bm st) (hip_bm st1).
Proof.
  intros Hin Hl.
  apply (foldM_total_rel
           (visit_sink skeleton median height_scale vsource)
           (fun s s' => adds_verts P (hip_bm s) (hip_bm s'))).
  - intro s. apply adds_verts_refl.
  - intros s1 s2 s3. apply adds_verts_trans.
  - intros s sink Hs. apply (visit_sink_adds arc); auto.
Qed.

Lemma visit_arc_adds (st : HipState) (arc : Arc) :
  In arc skeleton ->
  exists st1,
    visit_arc skeleton median height_scale st arc = Ok st1
    /\ adds_verts P (hip_bm st) (hip_bm st1).
Proof.
  intro Hin. unfold visit_arc.
  destruct (visit_source_adds st arc Hin) as (st1 & v & E & H1 & _).
  rewrite E. cbn [bind].
  destruct (visit_sinks_add arc (v_index v) (sinks arc) st1 Hin
                            (incl_refl _)) as (st2 & E2 & H2).
  exists st2. split; [exact E2|].
  now apply (adds_verts_trans P _ (hip_bm st1)).
Qed.

Lemma visit_arcs_add (l : list Arc) (st : HipState) :
  incl l skeleton ->
  exists st1,
    foldM (visit_arc skeleton median height_scale) l st = Ok st1
    /\ adds_verts P (hip_bm st) (hip_bm st1).
Proof.
  intro Hl.
  apply (foldM_total_rel
           (visit_arc skeleton median height_scale)
           (fun s s' => adds_verts P (hip_bm s) (hip_bm s'))).
  - intro s. apply adds_verts_refl.
  - intros s1 s2 s3. apply adds_verts_trans.
  - intros s arc Hs. apply visit_arc_adds. auto.
Qed.

(** The loop at the moment it reaches the source of an arc. *)
Lemma arcs_loop_at_source (bm : BMesh) (pre : list Arc) (arc : Arc)
      (post : list Arc) (st' : HipState) :
  skeleton = pre ++ arc :: post ->
  visit_arcs bm skeleton median height_scale = Ok st' ->
  exists st0 st1 v,
    foldM (visit_arc skeleton median height_scale) pre (mkHip bm [] [])
    = Ok st0
    /\ adds_verts P bm (hip_bm st0)
    /\ visit_source skeleton median height_scale st0 arc = Ok (st1, v_index v)
    /\ adds_verts P (hip_bm st0) (hip_bm st1)
    /\ In v (verts (hip_bm st1))
    /\ at_loc (source arc) None v = true
    /\ adds_verts P (hip_bm st1) (hip_bm st').
Proof.
  intros Hsplit E. unfold visit_arcs in E.
  assert (incl pre skeleton) as Hpre
      by (rewrite Hsplit; intros b Hb; apply in_or_app; now left).
  assert (incl post skeleton) as Hpost
      by (rewrite Hsplit; intros b Hb; apply in_or_app; right; now right).
  assert (In arc skeleton) as Hin
      by (rewrite Hsplit; apply in_or_app; right; now left).
  set (F := visit_arc skeleton median height_scale) in *.
  rewrite Hsplit in E.
  destruct (foldM_split F pre arc post _ _ E) as (st0 & s1 & E0 & Earc & Epost).
  destruct (visit_arcs_add pre (mkHip bm [] []) Hpre) as (st0' & E0' & H0).
  fold F in E0'. rewrite E0 in E0'. injection E0' as <-.
  unfold F, visit_arc in Earc.
  destruct (visit_source_adds st0 arc Hin) as (st1 & v & Es & H1 & Hv & Hat).
  rewrite Es in Earc. cbn [bind] in Earc.
  destruct (visit_sinks_add arc (v_index v) (sinks arc) st1 Hin (incl_refl _))
    as (s1' & Es1 & H2).
  rewrite Earc in Es1. injection Es1 as <-.
  destruct (visit_arcs_add post s1 Hpost) as (st'' & E'' & H3).
  fold F in E''. rewrite Epost in E''. injection E'' as <-.
  exists st0, st1, v. repeat split; auto.
  now apply (adds_verts_trans P _ (hip_bm s1)).
Qed.

End ArcsLoop.






(** ** Height scaling *)

Lemma py_max_heights (skeleton : list Arc) :
  skeleton <> [] ->
  exists top,
    py_max Qlt_bool (fun h : Q => h) (map height skeleton) = Ok top
    /\ (exists a, In a skeleton /\ top = height a)
    /\ forall a, In a skeleton -> height a <= top.
Proof.
  intro Hne. destruct skeleton as [|a0 l]; [congruence|]. simpl.
  eexists. split; [reflexivity|]. split.
  - destruct (max_from_in (fun h : Q => h) (map height l) (height a0))
      as [E|Hin].
    + exists a0. split; [now left|exact E].
    + apply in_map_iff in Hin. destruct Hin as (a & E & Ha).
      exists a. split; [now right|now rewrite E].
  - intros a [<-|Ha].
    + apply (max_from_ge_best (fun h : Q => h)).
    + apply (max_from_ge (fun h : Q => h)). now apply in_map.
Qed.

Lemma near_at_loc (p q : Point) (i : nat) (h : Q) :
  at_loc p None (mkVert i (mkVector (px q) (py q) h)) = near p q.
Proof. unfold at_loc, near. cbn [co x y]. now rewrite andb_true_r. Qed.

Lemma near_comp (p q q' : Point) :
  point_eqb q q' = true -> near p q = near p q'.
Proof.
  unfold point_eqb, near. intro H. apply andb_prop in H.
  destruct H as [Hx Hy]. apply Qeq_bool_iff in Hx. apply Qeq_bool_iff in Hy.
  now rewrite (equal_comp_l _ _ _ Hx), (equal_comp_l _ _ _ Hy).
Qed.

(** C1 (as amended).  The skeleton has positive heights and the requested
    height is positive; [apex_arc] is an arc of the greatest height whose
    source has no vertex of the mesh at its location, and every arc with a
    node, source or sink, within the tolerance of that source has the
    greatest height too.  Then the loop over the arcs succeeds with the
    scale (requested height) / (greatest height); one of the vertices it
    creates lies above the footprint by exactly the requested height, and
    every vertex it creates lies strictly above the footprint and at most
    at that height, at the requested height times the ratio of an arc's
    height to the greatest. *)
Theorem hip_height_scaling
        (prop : RoofProperty) (skeleton : list Arc) (bm : BMesh)
        (median : Vector) (apex_arc : Arc) :
  In apex_arc skeleton ->
  (forall a, In a skeleton -> 0 < height a) ->
  (forall a, In a skeleton -> height a <= height apex_arc) ->
  0 < roof_height prop ->
  vert_at_loc (source apex_arc) (verts bm) None = None ->
  (forall b q, In b skeleton -> In q (source b :: sinks b) ->
               near (source apex_arc) q = true ->
               height b == height apex_arc) ->
  exists height_scale st',
    height_scale_of prop skeleton = Ok height_scale
    /\ visit_arcs bm skeleton median height_scale = Ok st'
    /\ (exists apex,
           In apex (created_verts bm (hip_bm st'))
           /\ z (co apex) - z median == roof_height prop)
    /\ (forall v, In v (created_verts bm (hip_bm st')) ->
           z median < z (co v)
           /\ z (co v) <= z median + roof_height prop
           /\ exists a,
               In a skeleton
               /\ z (co v)
                  == z median
                     + roof_height prop * (height a / height apex_arc)).
Proof.
  intros Hin Hpos Hmax HH Hfree Hnear.
  assert (skeleton <> []) as Hne by (intro C; rewrite C in Hin; contradiction).
  destruct (py_max_heights skeleton Hne)
    as (top & Etop & (a0 & Ha0 & Ea0) & Hle).
  assert (top == height apex_arc) as Htop_apex.
  { apply Qle_antisym; [rewrite Ea0; auto|auto]. }
  assert (0 < top) as Htop by (rewrite Ea0; auto).
  assert (~ top == 0) as Hn
      by (intro C; rewrite C in Htop; apply (Qlt_irrefl 0 Htop)).
  assert (Qeq_bool top 0 = false) as Hnz.
  { destruct (Qeq_bool top 0) eqn:E; [|reflexivity].
    apply Qeq_bool_iff in E. contradiction. }
  set (hs := roof_height prop / top).
  set (P := fun v : BMVert =>
              (exists a, In a skeleton
                         /\ z (co v) == z median + hs * height a)
              /\ (at_loc (source apex_arc) None v = true ->
                  z (co v) == z median + hs * height apex_arc)).
  assert (forall arc a i,
             In arc skeleton -> last_with_source skeleton (source arc) a ->
             P (mkVert i (mkVector (px (source arc)) (py (source arc))
                                   (z median + hs * height a))))
    as Psource.
  { intros arc a i Harc Hlast.
    pose proof (last_with_source_In _ _ _ Hlast) as Ha.
    destruct Hlast as (_ & _ & _ & Hsame & _).
    split.
    - exists a. split; [exact Ha|reflexivity].
    - rewrite near_at_loc. intro Hat. cbn [co z].
      rewrite (Hnear a (source a) Ha (or_introl eq_refl)); [reflexivity|].
      now rewrite (near_comp _ _ _ Hsame). }
  assert (forall arc sink a i,
             In arc skeleton -> In sink (sinks arc) ->
             least_with_sink skeleton sink a ->
             P (mkVert i (mkVector (px sink) (py sink)
                                   (z median + hs * height a))))
    as Psink.
  { intros arc sink a i Harc Hsink (Ha & Hlists & _).
    split.
    - exists a. split; [exact Ha|reflexivity].
    - rewrite near_at_loc. intro Hat. cbn [co z].
      apply existsb_exists in Hlists. destruct Hlists as (s' & Hs' & Esame).
      rewrite (Hnear a s' Ha (or_intror Hs')); [reflexivity|].
      now rewrite <- (near_comp _ _ _ Esame). }
  destruct (visit_arcs_add skeleton median hs P Psource Psink
                           skeleton (mkHip bm [] []) (incl_refl _))
    as (st' & E & created & Hv & Hc).
  cbn [hip_bm] in Hv.
  exists hs, st'. split; [|split; [exact E|split]].
  - unfold height_scale_of. rewrite Etop. cbn [bind]. unfold py_div.
    now rewrite Hnz.
  - destruct (in_split _ _ Hin) as (pre & post & Hsplit).
    destruct (arcs_loop_at_source skeleton median hs P Psource Psink
                                  bm pre apex_arc post st' Hsplit E)
      as (st0 & st1 & v & _ & (m0 & V0 & _) & _ & (m1 & V1 & _) & Hv1 & Hat
          & (m2 & V2 & _)).
    exists v.
    assert (In v created) as Hcreated.
    { rewrite V1, V0 in Hv1.
      apply in_app_or in Hv1. destruct Hv1 as [Hv1|Hv1].
      - apply in_app_or in Hv1. destruct Hv1 as [Hv1|Hv1].
        + pose proof (proj1 (proj1 (vert_at_loc_spec _ _ _)) Hfree v Hv1) as C.
          congruence.
        + rewrite V2, V1, V0, <- !app_assoc in Hv.
          apply app_inv_head in Hv. rewrite <- Hv.
          apply in_or_app. now left.
      - rewrite V2, V1, V0, <- !app_assoc in Hv.
        apply app_inv_head in Hv. rewrite <- Hv.
        apply in_or_app. right. apply in_or_app. now left. }
    split.
    + unfold created_verts. now rewrite Hv, skipn_app_exact.
    + rewrite Forall_forall in Hc. destruct (Hc v Hcreated) as [_ Hz].
      rewrite (Hz Hat). unfold hs. rewrite <- Htop_apex. field. exact Hn.
  - intros v Hin_v. unfold created_verts in Hin_v.
    rewrite Hv, skipn_app_exact in Hin_v.
    rewrite Forall_forall in Hc. destruct (Hc v Hin_v) as [(a & Ha & Hz) _].
    assert (0 < height a / top) as Hr0 by
        (apply Qlt_shift_div_l; [exact Htop|rewrite Qmult_0_l; auto]).
    assert (height a / top <= 1) as Hr1 by
        (apply Qle_shift_div_r; [exact Htop|rewrite Qmult_1_l; auto]).
    assert (z (co v) == z median + roof_height prop * (height a / top)) as Hz'.
    { rewrite Hz. unfold hs. field. exact Hn. }
    set (r := height a / top) in *.
    assert (0 < roof_height prop * r) as Hm0 by
        (apply Qmult_lt_0_compat; auto).
    assert (roof_height prop * r <= roof_height prop) as Hm1.
    { setoid_replace (roof_height prop) with (roof_height prop * 1) at 2 by ring.
      apply Qmult_le_l; auto. }
    split; [rewrite Hz'; lra|]. split; [rewrite Hz'; lra|].
    exists a. split; [exact Ha|]. rewrite Hz'. unfold r.
    rewrite Htop_apex. reflexivity.
Qed.

Lemma hip_height_scaling_witness :
  exists height_scale st',
    height_scale_of (mkProp HIP 0 0 1 HORIZONTAL) rectangle_skeleton
    = Ok height_scale
    /\ visit_arcs rectangle_top rectangle_skeleton (mkVector 2 1 0) height_scale
       = Ok st'
    /\ (exists apex,
           In apex (created_verts rectangle_top (hip_bm st'))
           /\ z (co apex) - z (mkVector 2 1 0) == 1)
    /\ (forall v, In v (created_verts rectangle_top (hip_bm st')) ->
           z (mkVector 2 1 0) < z (co v)
           /\ z (co v) <= z (mkVector 2 1 0) + 1
           /\ exists a,
               In a rectangle_skeleton
               /\ z (co v) == z (mkVector 2 1 0) + 1 * (height a / 1)).
Proof.
  apply (hip_height_scaling
           (mkProp HIP 0 0 1 HORIZONTAL) rectangle_skeleton rectangle_top
           (mkVector 2 1 0)
           (mkArc (mkPoint 3 1) 1 [mkPoint 4 0; mkPoint 4 2; mkPoint 1 1])).
  - simpl. right. left. reflexivity.
  - intros a Ha. simpl in Ha. destruct Ha as [<-|[<-|[]]]; reflexivity.
  - intros a Ha. simpl in Ha. destruct Ha as [<-|[<-|[]]]; discriminate.
  - reflexivity.
  - reflexivity.
  - intros b q Hb _ _. simpl in Hb. destruct Hb as [<-|[<-|[]]]; reflexivity.
Defined.

(** The height-scaling property of the specification fails in two ways.
    The ridge of a rectangle has two ends, both at the requested height:
    neither lies strictly below the other.  And no ridge vertex need
    reach the requested height: on a square whose centre is the source of
    two arcs, the last of them lower, the only ridge vertex lies at half
    the requested height; over a mesh that has a vertex under the centre
    of the square, that vertex is taken for the apex and no ridge vertex
    is created. *)
Lemma ridge_heights_counterexamples :
  (exists height_scale st',
      height_scale_of (mkProp HIP 0 0 1 HORIZONTAL) rectangle_skeleton
      = Ok height_scale
      /\ visit_arcs rectangle_top rectangle_skeleton (mkVector 2 1 0)
                    height_scale = Ok st'
      /\ created_verts rectangle_top (hip_bm st')
         = [mkVert 9 (mkVector 1 1 1); mkVert 12 (mkVector 3 1 1)]
      /\ ~ strictly_below_apex 0 1 (created_verts rectangle_top (hip_bm st')))
  /\ (exists height_scale st',
         height_scale_of (mkProp HIP 0 0 2 HORIZONTAL) low_apex_skeleton
         = Ok height_scale
         /\ visit_arcs square_top low_apex_skeleton (mkVector 2 2 0)
                       height_scale = Ok st'
         /\ (exists v, created_verts square_top (hip_bm st') = [v]
                        /\ veq (co v) (mkVector 2 2 1))
         /\ ~ strictly_below_apex 0 2 (created_verts square_top (hip_bm st')))
  /\ (exists height_scale st',
         height_scale_of (mkProp HIP 0 0 2 HORIZONTAL) [square_arc]
         = Ok height_scale
         /\ visit_arcs square_over_centre [square_arc] (mkVector 2 2 0)
                       height_scale = Ok st'
         /\ created_verts square_over_centre (hip_bm st') = []
         /\ ~ strictly_below_apex
               0 2 (created_verts square_over_centre (hip_bm st'))).
Proof.
  split; [|split].
  - eexists. eexists. split; [vm_compute; reflexivity|].
    split; [vm_compute; reflexivity|].
    split; [vm_compute; reflexivity|].
    intros (apex & Hin & _ & Hall).
    vm_compute in Hin.
    destruct Hin as [<-|[<-|[]]].
    + destruct (Hall (mkVert 12 (mkVector 3 1 1))) as [_ H].
      * vm_compute. auto.
      * discriminate.
      * vm_compute in H. discriminate.
    + destruct (Hall (mkVert 9 (mkVector 1 1 1))) as [_ H].
      * vm_compute. auto.
      * discriminate.
      * vm_compute in H. discriminate.
  - eexists. eexists. split; [vm_compute; reflexivity|].
    split; [vm_compute; reflexivity|].
    split.
    + eexists. split; [vm_compute; reflexivity|].
      repeat split; reflexivity.
    + intros (apex & Hin & Hz & _).
      vm_compute in Hin.
      destruct Hin as [<-|[]].
      vm_compute in Hz. discriminate.
  - eexists. eexists. split; [vm_compute; reflexivity|].
    split; [vm_compute; reflexivity|].
    split; [vm_compute; reflexivity|].
    intros (apex & Hin & _).
    vm_compute in Hin. exact Hin.
Qed.

(** ** The gable roof: merging the top vertices onto the ridge *)

Lemma mem_In (i : nat) (l : list nat) : mem i l = true <-> In i l.
Proof.
  unfold mem. rewrite existsb_exists. split.
  - intros (j & Hj & E). apply Nat.eqb_eq in E. now subst.
  - intro H. exists i. split; [exact H|apply Nat.eqb_refl].
Qed.

Lemma weld_plan_kept (dist : Q) (vs kept : list BMVert) (v : BMVert) :
  In v (fst (weld_plan dist kept vs)) -> In v kept \/ In v vs.
Proof.
  revert kept. induction vs as [|u vs IH]; intros kept H; simpl in *.
  - now left.
  - destruct (find (fun w => Qle_bool (dist2 (co w) (co u)) (dist * dist)) kept).
    + destruct (weld_plan dist kept vs) as [k m] eqn:E. simpl in H.
      destruct (IH kept) as [Hk|Hk]; [rewrite E; exact H|auto|auto].
    + destruct (IH _ H) as [Hk|Hk]; [|auto].
      apply in_app_or in Hk. destruct Hk as [Hk|[<-|[]]]; auto.
Qed.

Lemma remove_doubles_verts (dist : Q) (bm : BMesh) (v : BMVert) :
  In v (verts (remove_doubles dist bm)) -> In v (verts bm).
Proof.
  unfold remove_doubles.
  destruct (Qle_bool dist 0); [auto|].
  pose proof (weld_plan_kept dist (rev (verts bm)) [] v) as H.
  destruct (weld_plan dist [] (rev (verts bm))) as [met m].
  destruct m as [|p m]; [auto|]. simpl in *.
  intro Hin. apply in_rev in Hin.
  destruct (H Hin) as [[]|Hv]. now apply in_rev.
Qed.

(** At the distance 0 nothing is merged. *)
Lemma remove_doubles_zero (bm : BMesh) : remove_doubles 0 bm = bm.
Proof. reflexivity. Qed.

Lemma getattr_setattr (c : Vector) (axis : Axis) (value : Q) :
  getattr (setattr c axis value) axis = value.
Proof. now destruct axis. Qed.

Lemma snap_to_axis_coordinate (bm : BMesh) (vs : list nat) (axis : Axis)
      (mid : Q) (v : BMVert) :
  In v (verts (snap_to_axis bm vs axis mid)) -> In (v_index v) vs ->
  getattr (co v) axis = mid.
Proof.
  unfold snap_to_axis. simpl. intros Hin Hvs.
  apply in_map_iff in Hin. destruct Hin as (u & E & _).
  destruct (mem (v_index u) vs) eqn:M.
  - subst v. simpl. apply getattr_setattr.
  - subst v. apply mem_In in Hvs. congruence.
Qed.

Lemma find_vert_snapped (bm : BMesh) (vs : list nat) (axis : Axis) (mid : Q)
      (i : nat) (u : BMVert) :
  find_vert bm i = Ok u -> In i vs ->
  find_vert (snap_to_axis bm vs axis mid) i
  = Ok (mkVert i (setattr (co u) axis mid)).
Proof.
  unfold find_vert, snap_to_axis. cbn [verts]. intros H Hi.
  apply mem_In in Hi.
  induction (verts bm) as [|w l IH]; simpl in *; [discriminate|].
  destruct (Nat.eqb (v_index w) i) eqn:E.
  - injection H as <-. apply Nat.eqb_eq in E. rewrite E, Hi. simpl.
    now rewrite Nat.eqb_refl.
  - destruct (mem (v_index w) vs); simpl; rewrite E; auto.
Qed.

Lemma find_vert_In (bm : BMesh) (i : nat) (v : BMVert) :
  find_vert bm i = Ok v -> In v (verts bm).
Proof.
  unfold find_vert.
  destruct (find (fun w => Nat.eqb (v_index w) i) (verts bm)) eqn:E;
    [|discriminate].
  intro H. injection H as <-. now apply find_some in E.
Qed.

Lemma ridge_coordinate_getattr (prop : RoofProperty) (v : BMVert) :
  getattr (co v) (gable_axis prop) = ridge_coordinate prop v.
Proof.
  unfold gable_axis, ridge_coordinate. now destruct (orient prop).
Qed.

Lemma merge_verts_along_axis_snaps (bm : BMesh) (vs : list nat) (axis : Axis)
      (top : list BMVert) :
  vs <> [] ->
  mapM (find_vert bm) vs = Ok top ->
  exists lo hi,
    In lo top /\ In hi top
    /\ (forall u, In u top ->
                  getattr (co lo) axis <= getattr (co u) axis
                  /\ getattr (co u) axis <= getattr (co hi) axis)
    /\ merge_verts_along_axis bm vs axis
       = Ok (snap_to_axis bm vs axis
                          ((getattr (co hi) axis + getattr (co lo) axis) / 2)).
Proof.
  intros Hne Htop.
  destruct top as [|t0 rest].
  { destruct vs as [|i vs]; [congruence|]. simpl in Htop.
    destruct (find_vert bm i); [|discriminate]. simpl in Htop.
    destruct (mapM (find_vert bm) vs); discriminate. }
  set (key := fun v : BMVert => getattr (co v) axis).
  exists (min_from Qlt_bool key t0 rest), (max_from Qlt_bool key t0 rest).
  split; [|split; [|split]].
  - destruct (min_from_in key rest t0) as [->|H]; [now left|now right].
  - destruct (max_from_in key rest t0) as [->|H]; [now left|now right].
  - intros u [<-|Hu]; split.
    + apply (min_from_le_best key).
    + apply (max_from_ge_best key).
    + apply (min_from_le key); exact Hu.
    + apply (max_from_ge key); exact Hu.
  - unfold merge_verts_along_axis, axis_mid. rewrite Htop. simpl.
    fold key. rewrite remove_doubles_zero. now destruct axis.
Qed.

(** The merge on top vertices that are in the mesh: it succeeds, every
    one of them is in the mesh afterwards with its coordinate on the axis
    at the midpoint, and no vertex is removed. *)
Lemma merge_onto_the_axis
      (prop : RoofProperty) (bm : BMesh) (vs : list nat) (top : list BMVert) :
  vs <> [] ->
  mapM (find_vert bm) vs = Ok top ->
  exists lo hi bm',
    In lo top /\ In hi top
    /\ (forall u, In u top ->
                  ridge_coordinate prop lo <= ridge_coordinate prop u
                  /\ ridge_coordinate prop u <= ridge_coordinate prop hi)
    /\ merge_verts_along_axis bm vs (gable_axis prop) = Ok bm'
    /\ (forall i, In i vs ->
          exists v,
            find_vert bm' i = Ok v /\ In v (verts bm')
            /\ ridge_coordinate prop v
               = (ridge_coordinate prop hi + ridge_coordinate prop lo) / 2)
    /\ (forall v, In v (verts bm') -> In (v_index v) vs ->
                  ridge_coordinate prop v
                  = (ridge_coordinate prop hi + ridge_coordinate prop lo) / 2)
    /\ List.length (verts bm') = List.length (verts bm).
Proof.
  intros Hne Htop.
  destruct (merge_verts_along_axis_snaps bm vs (gable_axis prop) top Hne Htop)
    as (lo & hi & Hlo & Hhi & Hbetween & Hmerge).
  rewrite !ridge_coordinate_getattr in Hmerge.
  exists lo, hi. eexists.
  split; [exact Hlo|]. split; [exact Hhi|]. split; [|split; [exact Hmerge|]].
  - intros u Hu. rewrite <- !ridge_coordinate_getattr. now apply Hbetween.
  - split; [|split].
    + intros i Hi.
      destruct (proj1 (proj2 (mapM_In (find_vert bm) vs top Htop)) i Hi)
        as (u & _ & Eu).
      pose proof (find_vert_snapped
                    bm vs (gable_axis prop)
                    ((ridge_coordinate prop hi + ridge_coordinate prop lo) / 2)
                    i u Eu Hi) as Hfound.
      eexists. split; [exact Hfound|]. split.
      * now apply find_vert_In in Hfound.
      * rewrite <- ridge_coordinate_getattr. cbn [co].
        apply getattr_setattr.
    + intros v Hv Hi. rewrite <- ridge_coordinate_getattr.
      now apply (snap_to_axis_coordinate bm vs).
    + unfold snap_to_axis. cbn [verts]. apply length_map.
Qed.

Section GableRidge.
Variable extrude_face_region : BMesh -> list nat -> BMesh * Geom.
Variable dissolve_faces : BMesh -> list nat -> bool -> BMesh * list nat.

(** C8.  Gable synthesis up to the ridge-merge step.  The footprint is
    dissolved into one face when it has several, and extruded; the top
    vertices are the ends of the extruded edges, and they are in the
    mesh.  Then the step succeeds; every top vertex is in the mesh
    afterwards, and its coordinate across the ridge (x when the
    orientation is HORIZONTAL, y when it is VERTICAL) is the midpoint of
    the least and the greatest such coordinate of the top vertices, so
    that the top vertices lie on one line; no vertex is removed. *)
Theorem ridge_merge_midpoint
        (prop : RoofProperty) (bm : BMesh) (fs : list nat)
        (bm1 : BMesh) (fs1 : list nat) (bm2 : BMesh) (es ids : list nat)
        (top : list BMVert) :
  (if Nat.ltb 1 (List.length fs) then dissolve_faces bm fs true else (bm, fs))
  = (bm1, fs1) ->
  extrude_up_and_delete_faces extrude_face_region bm1 fs1 (roof_height prop)
  = (bm2, es) ->
  all_edge_verts bm2 es = Ok ids ->
  ids <> [] ->
  mapM (find_vert bm2) (nodup_nat ids) = Ok top ->
  exists lo hi bm3,
    In lo top /\ In hi top
    /\ (forall u, In u top ->
                  ridge_coordinate prop lo <= ridge_coordinate prop u
                  /\ ridge_coordinate prop u <= ridge_coordinate prop hi)
    /\ gable_ridge extrude_face_region dissolve_faces bm fs prop = Ok bm3
    /\ (forall i, In i ids ->
          exists v,
            find_vert bm3 i = Ok v /\ In v (verts bm3)
            /\ ridge_coordinate prop v
               = (ridge_coordinate prop hi + ridge_coordinate prop lo) / 2)
    /\ (forall v, In v (verts bm3) -> In (v_index v) ids ->
                  ridge_coordinate prop v
                  = (ridge_coordinate prop hi + ridge_coordinate prop lo) / 2)
    /\ List.length (verts bm3) = List.length (verts bm2).
Proof.
  intros Hdissolve Hextrude Hids Hne Htop.
  assert (nodup_nat ids <> []) as Hne'.
  { destruct ids as [|i ids]; [congruence|].
    intro C. assert (In i (nodup_nat (i :: ids))) as Hi
        by (apply nodup_nat_In; now left).
    rewrite C in Hi. contradiction. }
  destruct (merge_onto_the_axis prop bm2 (nodup_nat ids) top Hne' Htop)
    as (lo & hi & bm3 & Hlo & Hhi & Hbetween & Hmerge & Hall & Hverts & Hlen).
  exists lo, hi, bm3.
  split; [exact Hlo|]. split; [exact Hhi|]. split; [exact Hbetween|].
  split; [|split; [|split; [|exact Hlen]]].
  - unfold gable_ridge. rewrite Hdissolve, Hextrude, Hids. exact Hmerge.
  - intros i Hi. apply Hall. now apply nodup_nat_In.
  - intros v Hv Hi. apply Hverts; [exact Hv|]. now apply nodup_nat_In.
Qed.
End GableRidge.

Lemma ridge_merge_midpoint_witness :
  exists lo hi bm3,
    gable_ridge extruded_rectangle (fun bm fs _ => (bm, fs)) rectangle_floor
                [8%nat] (mkProp GABLE 0 0 1 HORIZONTAL) = Ok bm3
    /\ (x (co lo) == 0 /\ x (co hi) == 4)
    /\ (forall i, In i [9; 10; 10; 11; 11; 12; 12; 9]%nat ->
          exists v,
            find_vert bm3 i = Ok v /\ In v (verts bm3)
            /\ x (co v) = (x (co hi) + x (co lo)) / 2)
    /\ List.length (verts bm3) = 8%nat.
Proof.
  destruct (ridge_merge_midpoint
              extruded_rectangle (fun bm fs _ => (bm, fs))
              (mkProp GABLE 0 0 1 HORIZONTAL) rectangle_floor [8%nat]
              rectangle_floor [8%nat]
              (fst (extrude_up_and_delete_faces
                      extruded_rectangle rectangle_floor [8%nat] 1))
              [13; 14; 15; 16]%nat
              [9; 10; 10; 11; 11; 12; 12; 9]%nat
              [mkVert 9 (mkVector (0 + 0) (0 + 0) (0 + 1));
               mkVert 10 (mkVector (4 + 0) (0 + 0) (0 + 1));
               mkVert 11 (mkVector (4 + 0) (2 + 0) (0 + 1));
               mkVert 12 (mkVector (0 + 0) (2 + 0) (0 + 1))])
    as (lo & hi & bm3 & Hlo & Hhi & Hbetween & Hridge & Hall & _ & Hlen).
  - reflexivity.
  - reflexivity.
  - reflexivity.
  - discriminate.
  - vm_compute. reflexivity.
  - exists lo, hi, bm3. split; [exact Hridge|]. split; [|split].
    + split.
      * apply Qle_antisym.
        -- apply (Hbetween (mkVert 9 (mkVector (0 + 0) (0 + 0) (0 + 1)))).
           simpl. auto.
        -- simpl in Hlo.
           destruct Hlo as [<-|[<-|[<-|[<-|[]]]]]; vm_compute; discriminate.
      * apply Qle_antisym.
        -- simpl in Hhi.
           destruct Hhi as [<-|[<-|[<-|[<-|[]]]]]; vm_compute; discriminate.
        -- apply (Hbetween (mkVert 10 (mkVector (4 + 0) (0 + 0) (0 + 1)))).
           simpl. auto.
    + exact Hall.
    + exact Hlen.
Defined.

(** ** The gable roof: the rectangularity gate *)

Lemma round_half_even_near (q : Q) :
  Qabs (inject_Z (round_half_even q) - q) <= 1 # 2.
Proof.
  unfold round_half_even.
  pose proof (Qfloor_le q) as Hlo.
  pose proof (Qlt_floor q) as Hhi.
  rewrite inject_Z_plus in Hhi.
  change (inject_Z 1) with 1 in Hhi.
  apply Qabs_Qle_condition.
  destruct (Qlt_bool (q - inject_Z (Qfloor q)) (1 # 2)) eqn:E1.
  - apply Qlt_bool_iff in E1. split; lra.
  - apply Qlt_bool_false in E1.
    destruct (Qlt_bool (1 # 2) (q - inject_Z (Qfloor q))) eqn:E2.
    + rewrite inject_Z_plus. change (inject_Z 1) with 1. split; lra.
    + apply Qlt_bool_false in E2.
      destruct (Z.even (Qfloor q)).
      * split; lra.
      * rewrite inject_Z_plus. change (inject_Z 1) with 1. split; lra.
Qed.

Lemma round4_separates (a b : Q) :
  1 # 10000 < Qabs (a - b) -> Qeq_bool (round4 a) (round4 b) = false.
Proof.
  intro Hfar.
  destruct (Qeq_bool (round4 a) (round4 b)) eqn:E; [|reflexivity].
  exfalso. apply Qeq_bool_iff in E. unfold round4 in E.
  pose proof (round_half_even_near (a * 10000)) as Ha.
  pose proof (round_half_even_near (b * 10000)) as Hb.
  apply Qabs_Qle_condition in Ha. apply Qabs_Qle_condition in Hb.
  set (ra := inject_Z (round_half_even (a * 10000))) in *.
  set (rb := inject_Z (round_half_even (b * 10000))) in *.
  assert (ra == rb) as Hr.
  { assert (ra == ra / 10000 * 10000) as -> by (field).
    rewrite E. field. }
  assert (Qabs (a - b) <= 1 # 10000) as Hnear.
  { apply Qabs_Qle_condition. split; lra. }
  apply (Qlt_not_le _ _ Hfar Hnear).
Qed.

Section GableGate.
Variable extrude_face_region : BMesh -> list nat -> BMesh * Geom.
Variable extrude_edge_only : BMesh -> list nat -> BMesh * Geom.
Variable recalc_face_normals : BMesh -> BMesh.
Variable delete_faces : BMesh -> list nat -> BMesh.
Variable dissolve_faces : BMesh -> list nat -> bool -> BMesh * list nat.
Variable normal : BMesh -> BMFace -> Vector.
Variable face_angle_below_pi : BMesh -> nat -> bool.

(** X13.  The guard of [create_gable_roof] on its own terms: when the summed
    area of the faces and the extent product that [is_rectangular]
    computes differ by more than 1e-4, the function returns the mesh as
    it received it and raises nothing. *)
Lemma gable_returns_when_extent_differs
      (calc_area : BMesh -> BMFace -> Q)
      (bm : BMesh) (fs : list nat) (prop : RoofProperty)
      (ffs : list BMFace) (area : Q) :
  mapM (find_face bm) fs = Ok ffs ->
  extent_area bm ffs = Ok area ->
  1 # 10000 < Qabs (face_area calc_area bm ffs - area) ->
  create_gable_roof extrude_face_region extrude_edge_only
                    recalc_face_normals delete_faces dissolve_faces
                    calc_area normal face_angle_below_pi bm fs prop
  = Ok bm.
Proof.
  intros Hf Ha Hfar. unfold create_gable_roof, is_rectangular.
  rewrite Hf. simpl. rewrite Ha. simpl.
  now rewrite (round4_separates _ _ Hfar).
Qed.

(** C4, at the parallelogram.  Its area is 2 and the area of its
    bounding box is 4, yet [is_rectangular] accepts it: the extents are
    taken between the first and the last corner in the order of
    [(x, y)], which are [(0, 0)] and [(2, 1)].  So the guard of
    [create_gable_roof] does not return and the gable is raised. *)
Theorem parallelogram_passes_the_gate (prop : RoofProperty) :
  face_area polygon_area parallelogram (faces parallelogram) == 2
  /\ (exists box, bounding_box_area parallelogram (faces parallelogram)
                  = Ok box /\ box == 4)
  /\ (exists area, extent_area parallelogram (faces parallelogram)
                   = Ok area /\ area == 2)
  /\ is_rectangular polygon_area parallelogram [8%nat] = Ok true
  /\ create_gable_roof extrude_face_region extrude_edge_only
                       recalc_face_normals delete_faces dissolve_faces
                       polygon_area normal face_angle_below_pi
                       parallelogram [8%nat] prop
     = raise_gable extrude_face_region extrude_edge_only
                   recalc_face_normals delete_faces dissolve_faces
                   normal face_angle_below_pi parallelogram [8%nat] prop.
Proof.
  split; [reflexivity|].
  split; [eexists; split; [vm_compute; reflexivity|reflexivity]|].
  split; [eexists; split; [vm_compute; reflexivity|reflexivity]|].
  assert (is_rectangular polygon_area parallelogram [8%nat] = Ok true) as E
      by (vm_compute; reflexivity).
  split; [exact E|].
  unfold create_gable_roof. rewrite E. reflexivity.
Qed.
End GableGate.

Lemma gable_returns_when_extent_differs_witness :
  create_gable_roof (fun bm _ => (bm, mkGeom [] [] []))
                    (fun bm _ => (bm, mkGeom [] [] []))
                    (fun bm => bm) (fun bm _ => bm) (fun bm fs _ => (bm, fs))
                    polygon_area (fun _ _ => mkVector 0 0 1) (fun _ _ => true)
                    diamond [8%nat] (mkProp GABLE 0 0 1 HORIZONTAL)
  = Ok diamond.
Proof.
  apply (gable_returns_when_extent_differs
           (fun bm _ => (bm, mkGeom [] [] []))
           (fun bm _ => (bm, mkGeom [] [] []))
           (fun bm => bm) (fun bm _ => bm) (fun bm fs _ => (bm, fs))
           (fun _ _ => mkVector 0 0 1) (fun _ _ => true)
           polygon_area diamond [8%nat]
           (mkProp GABLE 0 0 1 HORIZONTAL) (faces diamond) 0).
  - reflexivity.
  - vm_compute. reflexivity.
  - vm_compute. reflexivity.
Defined.

(** ** Crossing resolution *)

Lemma find_edge_index (bm : BMesh) (e : nat) (ev : BMEdge) :
  find_edge bm e = Ok ev -> e_index ev = e.
Proof.
  unfold find_edge.
  destruct (find (fun e' => Nat.eqb (e_index e') e) (edges bm)) eqn:E;
    [|discriminate].
  intro H. injection H as <-. apply find_some in E.
  now apply Nat.eqb_eq.
Qed.

Lemma find_replaced (e : nat) (ev new : BMEdge) (es : list BMEdge)
      (f : BMEdge -> BMEdge) :
  find (fun e' => Nat.eqb (e_index e') e) es = Some ev ->
  (forall e', e_index (f e') = e_index e') ->
  f ev = new ->
  find (fun e' => Nat.eqb (e_index e') e) (map f es) = Some new.
Proof.
  intros Hfind Hidx Hnew. induction es as [|a es IH]; simpl in *.
  - discriminate.
  - rewrite Hidx. destruct (Nat.eqb (e_index a) e).
    + injection Hfind as ->. now rewrite Hnew.
    + auto.
Qed.

Lemma find_app_first {A : Type} (f : A -> bool) (l1 l2 : list A) (a : A) :
  find f l1 = Some a -> find f (l1 ++ l2) = Some a.
Proof.
  induction l1 as [|b l1 IH]; simpl; [discriminate|].
  destruct (f b); auto.
Qed.

Lemma clamp01_inside (q : Q) : 0 <= q -> q <= 1 -> clamp01 q = q.
Proof.
  intros H0 H1. unfold clamp01.
  now rewrite (proj2 (Qlt_bool_false q 0) H0), (proj2 (Qlt_bool_false 1 q) H1).
Qed.

Lemma edge_split_adds (bm bm' : BMesh) (e v ne nv : nat) (fac : Q) :
  edge_split bm e v fac = Ok (bm', (ne, nv)) ->
  (exists pos, verts bm' = verts bm ++ [mkVert nv pos])
  /\ List.length (edges bm') = S (List.length (edges bm))
  /\ List.length (faces bm') = List.length (faces bm).
Proof.
  unfold edge_split.
  destruct (find_edge bm e) as [ev|]; [|discriminate]. cbn [bind].
  destruct (negb (touches ev v)); [discriminate|].
  destruct (find_vert bm v) as [vv|]; [|discriminate]. cbn [bind].
  destruct (find_vert bm (other_vert ev v)) as [o|]; [|discriminate].
  cbn [bind]. intro H. injection H as <- _ <-. simpl.
  split; [now eexists|].
  rewrite length_app, !length_map. simpl. split; lia.
Qed.

Lemma crossing_grows_refl (s : BMesh * list nat) : crossing_grows s s.
Proof.
  exists []. simpl. rewrite !app_nil_r. repeat split; lia.
Qed.

Lemma crossing_grows_trans (s1 s2 s3 : BMesh * list nat) :
  crossing_grows s1 s2 -> crossing_grows s2 s3 -> crossing_grows s1 s3.
Proof.
  intros (a1 & V1 & N1 & E1 & F1) (a2 & V2 & N2 & E2 & F2).
  exists (a1 ++ a2). repeat split.
  - now rewrite V2, V1, app_assoc.
  - now rewrite N2, N1, map_app, app_assoc.
  - rewrite E2, E1, length_app. lia.
  - congruence.
Qed.

Section Crossing.
Variable vec_length : Vector -> Q.
Variable intersect_line_line_2d :
  Vector -> Vector -> Vector -> Vector -> option Point.

Let visit := join_visit vec_length intersect_line_line_2d.
Let loops := join_loops vec_length intersect_line_line_2d.

Lemma join_visit_skips (bm : BMesh) (new_verts : list nat) (v e : nat)
      (ev : BMEdge) (vv v1 v2 : BMVert) :
  find_edge bm e = Ok ev ->
  find_vert bm v = Ok vv ->
  find_vert bm (e_v1 ev) = Ok v1 ->
  find_vert bm (e_v2 ev) = Ok v2 ->
  touches ev v = true
  \/ intersect_line_line_2d (co vv) (co vv) (co v1) (co v2) = None ->
  visit v (bm, new_verts) e = Ok (bm, new_verts).
Proof.
  intros He Hv H1 H2 Hskip. unfold visit, join_visit.
  rewrite He. simpl.
  destruct (touches ev v) eqn:T; [reflexivity|].
  destruct Hskip as [C|Hnone]; [discriminate|].
  rewrite Hv. simpl. rewrite H1. simpl. rewrite H2. simpl.
  now rewrite Hnone.
Qed.

Lemma join_visit_splits (bm : BMesh) (new_verts : list nat) (v e : nat)
      (ev : BMEdge) (vv v1 v2 : BMVert) :
  find_edge bm e = Ok ev ->
  find_vert bm v = Ok vv ->
  find_vert bm (e_v1 ev) = Ok v1 ->
  find_vert bm (e_v2 ev) = Ok v2 ->
  touches ev v = false ->
  intersect_line_line_2d (co vv) (co vv) (co v1) (co v2) <> None ->
  let len := vec_length (vsub (co v2) (co v1)) in
  let fac := vec_length (vsub (co v1) (co vv)) / len in
  (len == 0 -> visit v (bm, new_verts) e = Raise ZeroDivisionError)
  /\ (~ len == 0 ->
      exists bm',
        visit v (bm, new_verts) e = Ok (bm', new_verts ++ [fresh bm])
        /\ edge_split bm e (e_v1 ev) fac = Ok (bm', (S (fresh bm), fresh bm))
        /\ verts bm'
           = verts bm
             ++ [mkVert (fresh bm)
                        (vadd (co v1)
                              (vscale (clamp01 fac) (vsub (co v2) (co v1))))]
        /\ find_edge bm' e = Ok (mkEdge e (fresh bm) (e_v2 ev))
        /\ In (mkEdge (S (fresh bm)) (e_v1 ev) (fresh bm)) (edges bm')).
Proof.
  intros He Hv H1 H2 T Hsome len fac.
  assert (find (fun e' => Nat.eqb (e_index e') e) (edges bm) = Some ev)
    as Hfind.
  { unfold find_edge in He.
    destruct (find (fun e' => Nat.eqb (e_index e') e) (edges bm));
      [now injection He as ->|discriminate]. }
  assert (touches ev (e_v1 ev) = true) as T1
      by (unfold touches; now rewrite Nat.eqb_refl).
  assert (other_vert ev (e_v1 ev) = e_v2 ev) as Ho
      by (unfold other_vert; now rewrite Nat.eqb_refl).
  unfold visit, join_visit.
  rewrite He. simpl. rewrite T, Hv. simpl. rewrite H1. simpl.
  rewrite H2. simpl.
  destruct (intersect_line_line_2d (co vv) (co vv) (co v1) (co v2));
    [|congruence].
  unfold calc_length. rewrite H1. simpl. rewrite H2. simpl.
  fold len. unfold py_div. split.
  - intro Hz. apply Qeq_bool_iff in Hz. now rewrite Hz.
  - intro Hnz.
    destruct (Qeq_bool len 0) eqn:Z;
      [apply Qeq_bool_iff in Z; contradiction|].
    simpl. fold fac. unfold edge_split.
    rewrite He. simpl. rewrite T1. simpl. rewrite Ho, H1. simpl.
    rewrite H2. simpl.
    eexists. split; [reflexivity|]. split; [reflexivity|]. simpl.
    split; [reflexivity|]. split.
    + unfold find_edge. simpl.
      erewrite find_app_first; [reflexivity|].
      eapply find_replaced; [exact Hfind| |].
      * intro e'. destruct (Nat.eqb (e_index e') e) eqn:I;
          [|reflexivity].
        apply Nat.eqb_eq in I.
        destruct (Nat.eqb (e_v1 e') (e_v1 ev)); simpl; auto.
      * rewrite (find_edge_index bm e ev He), !Nat.eqb_refl.
        reflexivity.
    + apply in_or_app. right. now left.
Qed.

Lemma join_visit_grows (v e : nat) (s s' : BMesh * list nat) :
  visit v s e = Ok s' -> crossing_grows s s'.
Proof.
  destruct s as [bm nvs]. unfold visit, join_visit. intro H.
  destruct (find_edge bm e) as [ev|]; [|discriminate]. cbn [bind] in H.
  destruct (touches ev v); [injection H as <-; apply crossing_grows_refl|].
  destruct (find_vert bm v) as [vv|]; [|discriminate]. cbn [bind] in H.
  destruct (find_vert bm (e_v1 ev)) as [v1|]; [|discriminate].
  cbn [bind] in H.
  destruct (find_vert bm (e_v2 ev)) as [v2|]; [|discriminate].
  cbn [bind] in H.
  destruct (intersect_line_line_2d (co vv) (co vv) (co v1) (co v2));
    [|injection H as <-; apply crossing_grows_refl].
  destruct (calc_length vec_length bm ev) as [len|]; [|discriminate].
  cbn [bind] in H.
  destruct (py_div (vec_length (vsub (co v1) (co vv))) len) as [fac|];
    [|discriminate].
  cbn [bind] in H.
  destruct (edge_split bm e (e_v1 ev) fac) as [[bm1 [ne nv]]|] eqn:Es;
    [|discriminate].
  cbn [bind] in H. injection H as <-.
  destruct (edge_split_adds _ _ _ _ _ _ _ Es) as ((pos & V) & E & F).
  exists [mkVert nv pos]. simpl. repeat split; auto. lia.
Qed.

Lemma join_visits_grow (v : nat) (es : list nat) (s s' : BMesh * list nat) :
  foldM (visit v) es s = Ok s' -> crossing_grows s s'.
Proof.
  apply (foldM_rel _ crossing_grows es crossing_grows_refl
                   crossing_grows_trans).
  intros s1 e s2 _ Hv. now apply (join_visit_grows v e).
Qed.

Lemma join_loops_first_crossing
      (bm : BMesh) (v e : nat) (ev : BMEdge) (vv v1 v2 : BMVert)
      (pre post vs : list nat) (bm' : BMesh) (nvs : list nat) :
  find_edge bm e = Ok ev ->
  find_vert bm v = Ok vv ->
  find_vert bm (e_v1 ev) = Ok v1 ->
  find_vert bm (e_v2 ev) = Ok v2 ->
  (forall d, In d pre ->
     exists dv d1 d2,
       find_edge bm d = Ok dv
       /\ find_vert bm (e_v1 dv) = Ok d1
       /\ find_vert bm (e_v2 dv) = Ok d2
       /\ (touches dv v = true
           \/ intersect_line_line_2d (co vv) (co vv) (co d1) (co d2)
              = None)) ->
  touches ev v = false ->
  intersect_line_line_2d (co vv) (co vv) (co v1) (co v2) <> None ->
  loops bm (pre ++ e :: post) (v :: vs) = Ok (bm', nvs) ->
  let len := vec_length (vsub (co v2) (co v1)) in
  let fac := vec_length (vsub (co v1) (co vv)) / len in
  exists more_verts more_new,
    verts bm'
    = verts bm
      ++ mkVert (fresh bm)
                (vadd (co v1) (vscale (clamp01 fac) (vsub (co v2) (co v1))))
         :: more_verts
    /\ nvs = fresh bm :: more_new.
Proof.
  intros He Hv H1 H2 Hpre T Hsome Hloops len fac.
  unfold loops, join_loops in Hloops. rewrite foldM_cons in Hloops.
  fold visit in Hloops.
  destruct (foldM (visit v) (pre ++ e :: post) (bm, [])) as [sv|] eqn:Ev;
    [|discriminate].
  cbn [bind] in Hloops.
  destruct (foldM_split _ pre e post _ _ Ev) as (s0 & s1 & E0 & E1 & E2).
  assert (foldM (visit v) pre (bm, []) = Ok (bm, [])) as Hskip.
  { clear - Hpre Hv.
    induction pre as [|d pre IH]; [reflexivity|].
    destruct (Hpre d (or_introl eq_refl)) as (dv & d1 & d2 & A & C & D & S).
    rewrite foldM_cons.
    rewrite (join_visit_skips bm [] v d dv vv d1 d2 A Hv C D S).
    cbn [bind]. apply IH. intros d' Hd'. apply Hpre. now right. }
  rewrite Hskip in E0. injection E0 as <-.
  destruct (join_visit_splits bm [] v e ev vv v1 v2 He Hv H1 H2 T Hsome)
    as [Hzero Hsplit].
  fold len in Hzero, Hsplit. fold fac in Hsplit.
  destruct (Qeq_bool len 0) eqn:Z.
  { apply Qeq_bool_iff in Z. rewrite (Hzero Z) in E1. discriminate. }
  assert (~ len == 0) as Hnz
      by (intro C; apply Qeq_bool_iff in C; congruence).
  destruct (Hsplit Hnz) as (bm1 & Evisit & _ & Hverts & _).
  rewrite Evisit in E1. injection E1 as <-.
  apply join_visits_grow in E2.
  apply (foldM_rel _ crossing_grows vs crossing_grows_refl
                   crossing_grows_trans) in Hloops.
  - destruct (crossing_grows_trans _ _ _ E2 Hloops) as (added & V & N & _).
    cbn [fst snd] in V, N.
    exists added, (map v_index added).
    split; [rewrite V, Hverts, <- app_assoc; reflexivity|exact N].
  - intros s u s' _ Hs.
    now apply (join_visits_grow u (pre ++ e :: post) s s').
Qed.

(** C7 (as amended).  One visit of a ridge vertex [v] to a skeleton edge
    [e] of the list, both in the mesh as the earlier visits have left it.
    If [v] is an end of [e] or the segment test fails, the mesh and the
    list of new vertices stay as they are.  If [v] is not an end of [e]
    and the test succeeds, [e] is split from its first end: the factor is
    (distance from that end to [v]) / (length of [e]), both in three
    dimensions, clamped to the interval from 0 to 1; a vertex is created
    at that fraction of the way along [e] and recorded, [e] keeps the part
    beyond it and a new edge takes the part before it (a zero length
    raises the division error).  Vertices that pass the test on no edge
    of the list leave the mesh unchanged.  And when the loops return for
    a list of vertices that starts with [v] and a list of edges in which
    [e] is the first that [v] crosses, the vertex of that split is in the
    resulting mesh, right after the vertices the mesh had, and is the
    first of the new vertices returned.  The loops visit every pair of a
    vertex and an edge of the two lists once, vertex by vertex and for
    each vertex edge by edge, every visit on the mesh and the new
    vertices as the visits before it have left them. *)
Theorem crossing_resolution (bm : BMesh) (new_verts : list nat) (v e : nat)
        (ev : BMEdge) (vv v1 v2 : BMVert) :
  find_edge bm e = Ok ev ->
  find_vert bm v = Ok vv ->
  find_vert bm (e_v1 ev) = Ok v1 ->
  find_vert bm (e_v2 ev) = Ok v2 ->
  (touches ev v = true
   \/ intersect_line_line_2d (co vv) (co vv) (co v1) (co v2) = None ->
   visit v (bm, new_verts) e = Ok (bm, new_verts))
  /\ (touches ev v = false ->
      intersect_line_line_2d (co vv) (co vv) (co v1) (co v2) <> None ->
      let len := vec_length (vsub (co v2) (co v1)) in
      let fac := vec_length (vsub (co v1) (co vv)) / len in
      (len == 0 -> visit v (bm, new_verts) e = Raise ZeroDivisionError)
      /\ (~ len == 0 ->
          exists bm',
            visit v (bm, new_verts) e
            = Ok (bm', new_verts ++ [fresh bm])
            /\ edge_split bm e (e_v1 ev) fac
               = Ok (bm', (S (fresh bm), fresh bm))
            /\ verts bm'
               = verts bm
                 ++ [mkVert (fresh bm)
                            (vadd (co v1)
                                  (vscale (clamp01 fac)
                                          (vsub (co v2) (co v1))))]
            /\ find_edge bm' e = Ok (mkEdge e (fresh bm) (e_v2 ev))
            /\ In (mkEdge (S (fresh bm)) (e_v1 ev) (fresh bm)) (edges bm')))
  /\ (forall es vs,
         (forall u d, In u vs -> In d es ->
            exists dv uv d1 d2,
              find_edge bm d = Ok dv /\ find_vert bm u = Ok uv
              /\ find_vert bm (e_v1 dv) = Ok d1
              /\ find_vert bm (e_v2 dv) = Ok d2
              /\ (touches dv u = true
                  \/ intersect_line_line_2d (co uv) (co uv) (co d1) (co d2)
                     = None)) ->
         loops bm es vs = Ok (bm, []))
  /\ (forall pre post vs bm' nvs,
         (forall d, In d pre ->
            exists dv d1 d2,
              find_edge bm d = Ok dv
              /\ find_vert bm (e_v1 dv) = Ok d1
              /\ find_vert bm (e_v2 dv) = Ok d2
              /\ (touches dv v = true
                  \/ intersect_line_line_2d (co vv) (co vv) (co d1) (co d2)
                     = None)) ->
         touches ev v = false ->
         intersect_line_line_2d (co vv) (co vv) (co v1) (co v2) <> None ->
         loops bm (pre ++ e :: post) (v :: vs) = Ok (bm', nvs) ->
         let len := vec_length (vsub (co v2) (co v1)) in
         let fac := vec_length (vsub (co v1) (co vv)) / len in
         exists more_verts more_new,
           verts bm'
           = verts bm
             ++ mkVert (fresh bm)
                       (vadd (co v1)
                             (vscale (clamp01 fac) (vsub (co v2) (co v1))))
                :: more_verts
           /\ nvs = fresh bm :: more_new)
  /\ (forall es vs,
         loops bm es vs
         = foldM (fun st p => visit (fst p) st (snd p))
                 (flat_map (fun u => map (fun d => (u, d)) es) vs)
                 (bm, [])).
Proof.
  intros He Hv H1 H2.
  split; [now apply (join_visit_skips bm new_verts v e ev vv v1 v2)|].
  split; [now apply (join_visit_splits bm new_verts v e ev vv v1 v2)|].
  split; [|split; [|intros es vs; apply foldM_pairs]].
  - intros es vs Hall. unfold loops, join_loops.
    assert (forall u, In u vs ->
              foldM (visit u) es (bm, []) = Ok (bm, [])) as Hinner.
    { intros u Hu.
      assert (forall ds, incl ds es ->
                foldM (visit u) ds (bm, []) = Ok (bm, [])) as Hds.
      { induction ds as [|d ds IH]; intro Hincl; [reflexivity|].
        destruct (Hall u d Hu (Hincl d (or_introl eq_refl)))
          as (dv & uv & d1 & d2 & A & B & C & D & S).
        rewrite foldM_cons.
        rewrite (join_visit_skips bm [] u d dv uv d1 d2 A B C D S). simpl.
        apply IH. intros a Ha. apply Hincl. now right. }
      apply Hds, incl_refl. }
    clear Hall. fold visit.
    induction vs as [|u vs IH]; [reflexivity|].
    rewrite foldM_cons, (Hinner u (or_introl eq_refl)). simpl.
    apply IH. intros w Hw. apply Hinner. now right.
  - intros pre post vs bm' nvs Hpre T Hsome Hloops.
    now apply (join_loops_first_crossing bm v e ev vv v1 v2 pre post vs
                                         bm' nvs).
Qed.

(** X12.  With a length that is a norm and a vertex [v] that lies on the
    edge [e] in three dimensions, at the fraction [t] between 0 and 1 of
    the way from its first end, the visit of [v] to [e] splits [e] at
    [v]: the vertex that the split creates and records has the
    coordinates of [v]. *)
Theorem split_lands_on_the_vertex
        (bm : BMesh) (new_verts : list nat) (v e : nat)
        (ev : BMEdge) (vv v1 v2 : BMVert) (t : Q) :
  (forall a b, veq a b -> vec_length a == vec_length b) ->
  (forall k w, 0 <= k -> vec_length (vscale k w) == k * vec_length w) ->
  (forall a b, vec_length (vsub a b) == vec_length (vsub b a)) ->
  find_edge bm e = Ok ev ->
  find_vert bm v = Ok vv ->
  find_vert bm (e_v1 ev) = Ok v1 ->
  find_vert bm (e_v2 ev) = Ok v2 ->
  touches ev v = false ->
  intersect_line_line_2d (co vv) (co vv) (co v1) (co v2) <> None ->
  0 <= t -> t <= 1 ->
  veq (co vv) (vadd (co v1) (vscale t (vsub (co v2) (co v1)))) ->
  ~ vec_length (vsub (co v2) (co v1)) == 0 ->
  exists bm' nv,
    visit v (bm, new_verts) e = Ok (bm', new_verts ++ [v_index nv])
    /\ verts bm' = verts bm ++ [nv]
    /\ v_index nv = fresh bm
    /\ veq (co nv) (co vv).
Proof.
  intros Hcompat Hhom Hsym He Hv H1 H2 T Hsome Ht0 Ht1 Hon Hnz.
  destruct (join_visit_splits bm new_verts v e ev vv v1 v2
                              He Hv H1 H2 T Hsome) as [_ Hsplit].
  destruct (Hsplit Hnz) as (bm' & Evisit & _ & Hverts & _).
  set (fac := vec_length (vsub (co v1) (co vv))
              / vec_length (vsub (co v2) (co v1))) in *.
  assert (fac == t) as Hfac.
  { unfold fac.
    rewrite (Hsym (co v1) (co vv)).
    rewrite (Hcompat (vsub (co vv) (co v1))
                     (vscale t (vsub (co v2) (co v1)))).
    - rewrite (Hhom t _ Ht0). field. exact Hnz.
    - destruct Hon as (Hx & Hy & Hz). unfold veq. simpl in *.
      rewrite Hx, Hy, Hz. repeat split; ring. }
  assert (clamp01 fac = fac) as Hclamp
      by (apply clamp01_inside; rewrite Hfac; auto).
  rewrite Hclamp in Hverts.
  exists bm', (mkVert (fresh bm)
                      (vadd (co v1) (vscale fac (vsub (co v2) (co v1))))).
  split; [exact Evisit|]. split; [exact Hverts|].
  split; [reflexivity|].
  destruct Hon as (Hx & Hy & Hz). unfold veq. cbn [co].
  simpl in *. rewrite Hx, Hy, Hz, Hfac. repeat split; reflexivity.
Qed.
End Crossing.

Lemma crossing_resolution_witness :
  exists bm',
    join_visit axis_length point_on_segment 2 (crossing, []) 3
    = Ok (bm', [] ++ [fresh crossing])
    /\ edge_split crossing 3 0
                  (axis_length (vsub (mkVector 0 0 0) (mkVector 1 0 0))
                   / axis_length (vsub (mkVector 4 0 0) (mkVector 0 0 0)))
       = Ok (bm', (S (fresh crossing), fresh crossing))
    /\ verts bm'
       = verts crossing
         ++ [mkVert (fresh crossing)
               (vadd (mkVector 0 0 0)
                  (vscale
                     (clamp01
                        (axis_length (vsub (mkVector 0 0 0) (mkVector 1 0 0))
                         / axis_length
                             (vsub (mkVector 4 0 0) (mkVector 0 0 0))))
                     (vsub (mkVector 4 0 0) (mkVector 0 0 0))))]
    /\ find_edge bm' 3 = Ok (mkEdge 3 (fresh crossing) 1)
    /\ In (mkEdge (S (fresh crossing)) 0 (fresh crossing)) (edges bm').
Proof.
  destruct (crossing_resolution
              axis_length point_on_segment crossing [] 2 3
              (mkEdge 3 0 1) (mkVert 2 (mkVector 1 0 0))
              (mkVert 0 (mkVector 0 0 0)) (mkVert 1 (mkVector 4 0 0))
              eq_refl eq_refl eq_refl eq_refl) as (_ & Hsplit & _).
  apply (Hsplit eq_refl).
  - vm_compute. discriminate.
  - vm_compute. discriminate.
Defined.

(** The specification has every vertex on the 2D segment of an edge split
    that edge at its own position.  Of two vertices on one edge only the
    first is split in: the edge then keeps the part beyond the new vertex,
    and the second vertex, on the part cut off, is no longer on it.  And a
    vertex above the edge passes the 2D test, but the factor is taken from
    lengths in three dimensions: the edge is split at 5/8 of its length,
    not under the vertex at 3/8. *)
Lemma crossing_is_not_always_split :
  (exists bm' new_verts nv,
      join_loops rational_length point_on_segment two_on_one
                 [4%nat] [2%nat; 3%nat] = Ok (bm', new_verts)
      /\ created_verts two_on_one bm' = [nv]
      /\ veq (co nv) (mkVector 3 0 0)
      /\ ~ split_at_every_crossing point_on_segment two_on_one
                                   [4%nat] [2%nat; 3%nat] bm')
  /\ (exists bm' new_verts nv,
         join_loops rational_length point_on_segment above_the_edge
                    [3%nat] [2%nat] = Ok (bm', new_verts)
         /\ created_verts above_the_edge bm' = [nv]
         /\ veq (co nv) (mkVector 5 0 0)
         /\ ~ split_at_every_crossing point_on_segment above_the_edge
                                      [3%nat] [2%nat] bm').
Proof.
  split.
  - eexists. eexists. eexists. split; [vm_compute; reflexivity|].
    split; [vm_compute; reflexivity|].
    split; [repeat split; reflexivity|].
    intro H.
    destruct (H 3%nat 4%nat (mkVert 3 (mkVector 1 0 0)) (mkEdge 4 0 1)
                (mkVert 0 (mkVector 0 0 0)) (mkVert 1 (mkVector 4 0 0)))
      as (nv & Hin & Hx & _);
      try reflexivity;
      try (vm_compute; auto; fail);
      try (vm_compute; discriminate).
    vm_compute in Hin. destruct Hin as [<-|[]].
    vm_compute in Hx. discriminate.
  - eexists. eexists. eexists. split; [vm_compute; reflexivity|].
    split; [vm_compute; reflexivity|].
    split; [repeat split; reflexivity|].
    intro H.
    destruct (H 2%nat 3%nat (mkVert 2 (mkVector 3 0 4)) (mkEdge 3 0 1)
                (mkVert 0 (mkVector 0 0 0)) (mkVert 1 (mkVector 8 0 0)))
      as (nv & Hin & Hx & _);
      try reflexivity;
      try (vm_compute; auto; fail);
      try (vm_compute; discriminate).
    vm_compute in Hin. destruct Hin as [<-|[]].
    vm_compute in Hx. discriminate.
Qed.


(** ** The hip roof of a square *)

Section SquareHipRoof.
Variable vec_length : Vector -> Q.
Variable intersect_line_line_2d :
  Vector -> Vector -> Vector -> Vector -> option Point.
Variable skeletonize : list Point -> list (list Point) -> list Arc.
Variable extrude_face_region : BMesh -> list nat -> BMesh * Geom.
Variable inset_region : BMesh -> list nat -> Q -> BMesh.
Variable recalc_face_normals : BMesh -> BMesh.
Variable delete_faces : BMesh -> list nat -> BMesh.
Variable dissolve_faces : BMesh -> list nat -> bool -> BMesh * list nat.

(** C3.  When the flat-roof stage hands over the square of side 4 at
    z = 0 as the top face and the solver returns for its corners the one
    arc with source (2, 2), height 2 and the four corners as sinks, a
    requested height of 2 gives exactly one new vertex, at (2, 2, 2), and
    exactly four faces, all triangles from the new vertex, one on each
    edge of the square. *)
Theorem square_hip_roof (bm : BMesh) (fs : list nat) (prop : RoofProperty) :
  create_flat_roof extrude_face_region inset_region recalc_face_normals
                   delete_faces dissolve_faces bm fs prop
  = Ok (square_top, [8%nat]) ->
  skeletonize [mkPoint 4 4; mkPoint 4 0; mkPoint 0 0; mkPoint 0 4] []
  = [square_arc] ->
  roof_height prop = 2 ->
  exists bm',
    create_hip_roof vec_length intersect_line_line_2d skeletonize
                    extrude_face_region inset_region recalc_face_normals
                    delete_faces dissolve_faces bm fs prop
    = Ok bm'
    /\ (exists apex, created_verts square_top bm' = [apex]
                     /\ v_index apex = 9%nat
                     /\ veq (co apex) (mkVector 2 2 2))
    /\ map f_loops (faces bm')
       = [[9; 0; 1]; [9; 1; 2]; [9; 2; 3]; [9; 3; 0]]%nat
    /\ mapM (link_faces bm') [4; 5; 6; 7]%nat
       = Ok [[14]; [15]; [16]; [17]]%nat.
Proof.
  intros Hflat Hskel Hheight.
  unfold create_hip_roof. rewrite Hflat.
  cbn [bind py_last rev app].
  replace (find_face square_top 8) with (Ok (mkFace 8 [0; 1; 2; 3]%nat))
    by reflexivity.
  cbn [bind].
  replace (calc_center_median square_top (mkFace 8 [0; 1; 2; 3]%nat))
    with (Ok (mkVector (8 # 4) (8 # 4) (0 # 4))) by (vm_compute; reflexivity).
  replace (face_edges square_top (mkFace 8 [0; 1; 2; 3]%nat))
    with (Ok [4; 5; 6; 7]%nat) by reflexivity.
  replace (sort_verts_by_loops square_top (mkFace 8 [0; 1; 2; 3]%nat))
    with (Ok [2; 1; 0; 3]%nat) by (vm_compute; reflexivity).
  cbn [bind].
  replace (mapM (find_vert square_top) [2; 1; 0; 3]%nat)
    with (Ok [mkVert 2 (mkVector 4 4 0); mkVert 1 (mkVector 4 0 0);
              mkVert 0 (mkVector 0 0 0); mkVert 3 (mkVector 0 4 0)])
    by reflexivity.
  cbn [bind map co x y].
  rewrite Hskel. unfold height_scale_of. rewrite Hheight.
  eexists. split; [vm_compute; reflexivity|].
  split; [|split; reflexivity].
  eexists. split; [reflexivity|]. split; [reflexivity|].
  repeat split; reflexivity.
Qed.
End SquareHipRoof.

Lemma square_hip_roof_witness :
  exists bm',
    create_hip_roof axis_length point_on_segment (fun _ _ => [square_arc])
                    (fun bm _ => (bm, mkGeom [] [] [8%nat]))
                    (fun bm _ _ => bm) (fun bm => bm) (fun bm _ => bm)
                    (fun bm fs _ => (bm, fs))
                    square_top [8%nat] (mkProp HIP 0 0 2 HORIZONTAL)
    = Ok bm'
    /\ (exists apex, created_verts square_top bm' = [apex]
                     /\ v_index apex = 9%nat
                     /\ veq (co apex) (mkVector 2 2 2))
    /\ map f_loops (faces bm')
       = [[9; 0; 1]; [9; 1; 2]; [9; 2; 3]; [9; 3; 0]]%nat
    /\ mapM (link_faces bm') [4; 5; 6; 7]%nat
       = Ok [[14]; [15]; [16]; [17]]%nat.
Proof.
  apply (square_hip_roof
           axis_length point_on_segment (fun _ _ => [square_arc])
           (fun bm _ => (bm, mkGeom [] [] [8%nat]))
           (fun bm _ _ => bm) (fun bm => bm) (fun bm _ => bm)
           (fun bm fs _ => (bm, fs))
           square_top [8%nat] (mkProp HIP 0 0 2 HORIZONTAL)).
  - vm_compute. reflexivity.
  - reflexivity.
  - reflexivity.
Defined.

(** ** Face reconstruction: edges that are not resolved *)

Section Gaps.
Variable vec_length : Vector -> Q.

(** X14.  When the three levels of the search run and the third leaves other
    than one opposite vertex, the edge gets no face and nothing is
    raised: the loop goes on with the mesh as it is. *)
Lemma unresolved_edge_is_skipped
      (original_edges skeleton_edges : list nat) (bm : BMesh) (ed : nat)
      (vs all1 all2 all3 : list nat) (v1 v2 w1 w2 p1 p2 q1 q2 : nat) :
  let linked := get_linked_edges bm vs skeleton_edges in
  let next1 := set_diff skeleton_edges linked in
  let next2 := set_diff next1 (linked ++ [p1; p2]) in
  edge_verts bm ed = Ok vs ->
  (2 <= List.length linked)%nat ->
  all_edge_verts bm linked = Ok all1 ->
  set_diff all1 vs = [v1; v2] ->
  edges_get bm [v1; v2] = Ok None ->
  find_closest_pair_edges vec_length bm (get_linked_edges bm [v1] next1)
                          (get_linked_edges bm [v2] next1) = Ok (p1, p2) ->
  all_edge_verts bm [p1; p2] = Ok all2 ->
  set_diff all2 [v1; v2] = [w1; w2] ->
  edges_get bm [w1; w2] = Ok None ->
  find_closest_pair_edges vec_length bm (get_linked_edges bm [w1] next2)
                          (get_linked_edges bm [w2] next2) = Ok (q1, q2) ->
  all_edge_verts bm [q1; q2] = Ok all3 ->
  List.length (set_diff all3 [w1; w2]) <> 1%nat ->
  face_for_edge vec_length original_edges skeleton_edges bm ed = Ok bm.
Proof.
  intros linked next1 next2 Hvs Hlen Hall1 Hopp1 Hno1 Hpair1 Hall2 Hopp2
         Hno2 Hpair2 Hall3 Hopp3.
  unfold face_for_edge. rewrite Hvs. cbn [bind]. fold linked.
  destruct (Nat.eqb (List.length linked) 1) eqn:E1;
    [apply Nat.eqb_eq in E1; lia|].
  destruct (Nat.eqb (List.length linked) 0) eqn:E0;
    [apply Nat.eqb_eq in E0; lia|].
  cbn [bind]. rewrite Hall1. cbn [bind]. rewrite Hopp1.
  cbn [List.length Nat.eqb]. rewrite Hno1. cbn [bind unpack2].
  fold next1. rewrite Hpair1. cbn [bind fst snd]. rewrite Hall2.
  cbn [bind]. rewrite Hopp2. cbn [List.length Nat.eqb].
  rewrite Hno2. cbn [bind unpack2]. fold next2. rewrite Hpair2.
  cbn [bind fst snd]. rewrite Hall3. cbn [bind].
  destruct (Nat.eqb (List.length (set_diff all3 [w1; w2])) 1) eqn:E3;
    [apply Nat.eqb_eq in E3; contradiction|reflexivity].
Qed.

(** C5, at the open ridge.  The eave edge 4 has its two skeleton edges,
    two opposite vertices and no edge between them; the first
    nearest-pair search has no pair to choose from, and taking the first
    of the sorted pairs raises [IndexError]: the run is aborted instead
    of leaving a gap.  The same happens in steps 3 and 4 of
    [create_hip_roof] on the rectangle with the arcs of [open_skeleton]. *)
Theorem open_ridge_raises :
  get_linked_edges open_ridge [0; 1]%nat [5; 6]%nat = [5; 6]%nat
  /\ edges_get open_ridge [2; 3]%nat = Ok None
  /\ find_closest_pair_edges vec_length open_ridge [] [] = Raise IndexError
  /\ face_for_edge vec_length [4%nat] [5; 6]%nat open_ridge 4
     = Raise IndexError
  /\ create_hiproof_faces vec_length open_ridge [4%nat] [5; 6]%nat
     = Raise IndexError
  /\ hip_structure vec_length point_on_segment rectangle_top open_skeleton
                   [4; 5; 6; 7]%nat (mkVector 2 1 0) 1
     = Raise IndexError.
Proof. repeat split; vm_compute; reflexivity. Qed.

(** The gap that the source does absorb: three levels, no face. *)
Lemma long_gap_is_skipped :
  create_hiproof_faces vec_length long_gap [8%nat]
                       [9; 10; 11; 12; 13; 14]%nat
  = Ok long_gap.
Proof. vm_compute. reflexivity. Qed.
End Gaps.

Lemma unresolved_edge_is_skipped_witness :
  face_for_edge axis_length [8%nat] [9; 10; 11; 12; 13; 14]%nat long_gap 8
  = Ok long_gap.
Proof.
  apply (unresolved_edge_is_skipped
           axis_length [8%nat] [9; 10; 11; 12; 13; 14]%nat long_gap 8
           [0; 1]%nat [2; 0; 3; 1]%nat [4; 2; 5; 3]%nat [6; 4; 7; 5]%nat
           2 3 4 5 11 12 13 14);
    try reflexivity.
  vm_compute. discriminate.
Defined.

(** ** Coverage of the eave edges on examples

    For a rectangle, an L and a T, with the skeletons a solver has to
    return for them, every eave edge ends up on a face; the T needs one
    nearest-pair search, for the long edge of its bar. *)
Lemma example_footprints_are_covered :
  (exists bm', hip_structure squared_length point_on_segment rectangle_top
                             rectangle_skeleton [4; 5; 6; 7]%nat
                             (mkVector 2 1 0) 1 = Ok bm'
               /\ eave_edges_covered bm' [4; 5; 6; 7]%nat = true)
  /\ (exists bm', hip_structure squared_length point_on_segment l_shape
                                l_skeleton [6; 7; 8; 9; 10; 11]%nat
                                (mkVector 2 2 0) 1 = Ok bm'
                  /\ eave_edges_covered bm' [6; 7; 8; 9; 10; 11]%nat = true)
  /\ (exists bm', hip_structure squared_length point_on_segment t_shape
                                t_skeleton [8; 9; 10; 11; 12; 13; 14; 15]%nat
                                (mkVector 3 2 0) 1 = Ok bm'
                  /\ map (fun f => List.length (f_loops f)) (faces bm')
                     = [3; 4; 4; 3; 5; 3; 4; 4]%nat
                  /\ eave_edges_covered
                       bm' [8; 9; 10; 11; 12; 13; 14; 15]%nat = true).
Proof.
  repeat split; eexists; (split; [vm_compute; reflexivity|]);
    repeat split; reflexivity.
Qed.

(* ================================================================== *)
(** * Further properties of the synthesizer *)

(** ** [vert_at_loc] with a z constraint *)

(** X1.  With a z constraint other than 0, the vertex returned lies at the
    location in x and y and at the given z, all within the tolerance, and
    no such vertex of the mesh is higher; nothing is returned exactly when
    no vertex matches in all three.  A constraint of 0.0 counts as no
    constraint ([if loc_z:]): the search is the one without it. *)
Theorem vert_at_loc_constrained (loc : Point) (lz : Q) (vs : list BMVert) :
  (lz == 0 ->
   vert_at_loc loc vs (Some lz) = vert_at_loc loc vs None)
  /\ (~ lz == 0 ->
      (vert_at_loc loc vs (Some lz) = None <->
       forall w, In w vs ->
                 (equal (x (co w)) (px loc) && equal (y (co w)) (py loc)
                  && equal (z (co w)) lz) = false)
      /\ forall v, vert_at_loc loc vs (Some lz) = Some v ->
           In v vs
           /\ equal (x (co v)) (px loc) = true
           /\ equal (y (co v)) (py loc) = true
           /\ equal (z (co v)) lz = true
           /\ forall w, In w vs ->
                (equal (x (co w)) (px loc) && equal (y (co w)) (py loc)
                 && equal (z (co w)) lz) = true ->
                z (co w) <= z (co v)).
Proof.
  split.
  - intro Hz. apply Qeq_bool_iff in Hz. unfold vert_at_loc.
    rewrite (filter_ext (at_loc loc (Some lz)) (at_loc loc None));
      [reflexivity|].
    intro a. unfold at_loc. now rewrite Hz.
  - intro Hnz.
    assert (Qeq_bool lz 0 = false) as Hb.
    { destruct (Qeq_bool lz 0) eqn:E; [|reflexivity].
      apply Qeq_bool_iff in E. contradiction. }
    assert (forall w, at_loc loc (Some lz) w
                      = equal (x (co w)) (px loc) && equal (y (co w)) (py loc)
                        && equal (z (co w)) lz) as Hat
        by (intro w; unfold at_loc; now rewrite Hb).
    destruct (vert_at_loc_spec loc (Some lz) vs) as [Hnone Hsome].
    split.
    + rewrite Hnone. split; intros H w Hw; [rewrite <- Hat|rewrite Hat]; auto.
    + intros v Hv. destruct (Hsome v Hv) as (Hin & Ht & Hmax).
      rewrite Hat in Ht. apply andb_prop in Ht. destruct Ht as [Ht Hz].
      apply andb_prop in Ht. destruct Ht as [Hx Hy].
      repeat split; auto.
      intros w Hw Hm. apply Hmax; [exact Hw|now rewrite Hat].
Qed.

Lemma vert_at_loc_constrained_witness :
  vert_at_loc (mkPoint 1 1)
              [mkVert 0 (mkVector 1 1 0); mkVert 1 (mkVector 1 1 3)] (Some 0)
  = vert_at_loc (mkPoint 1 1)
                [mkVert 0 (mkVector 1 1 0); mkVert 1 (mkVector 1 1 3)] None.
Proof.
  apply (proj1 (vert_at_loc_constrained
                  (mkPoint 1 1) 0
                  [mkVert 0 (mkVector 1 1 0); mkVert 1 (mkVector 1 1 3)])).
  reflexivity.
Defined.

(** ** [find_closest_pair_edges] *)

Lemma py_sorted_head {A : Type} (key : A -> Q) (l : list A) :
  l <> [] ->
  exists h rest,
    py_sorted Qlt_bool key l = h :: rest
    /\ In h l /\ forall w, In w l -> key h <= key w.
Proof.
  induction l as [|a l IH]; intro Hne; [congruence|].
  destruct l as [|b l].
  - exists a, []. simpl. repeat split; auto.
    intros w [<-|[]]. apply Qle_refl.
  - destruct IH as (h & rest & Es & Hin & Hmin); [discriminate|].
    change (py_sorted Qlt_bool key (a :: b :: l))
      with (insert_sorted Qlt_bool key a (py_sorted Qlt_bool key (b :: l))).
    rewrite Es. simpl.
    destruct (Qlt_bool (key h) (key a)) eqn:E.
    + apply Qlt_bool_iff in E. eexists. eexists.
      split; [reflexivity|]. split; [now right|].
      intros w [<-|Hw]; [now apply Qlt_le_weak|now apply Hmin].
    + apply Qlt_bool_false in E. eexists. eexists.
      split; [reflexivity|]. split; [now left|].
      intros w [<-|Hw]; [apply Qle_refl|].
      eapply Qle_trans; [exact E|now apply Hmin].
Qed.

Section ClosestPair.
Variable vec_length : Vector -> Q.

(** X2.  Without a candidate on either side the search raises
    [IndexError].  With candidates on both sides, all of them edges with
    both ends in the mesh, it returns one edge of each side, and no other
    pair of candidates has midpoints closer to each other. *)
Theorem closest_pair_is_closest (bm : BMesh) (edges_a edges_b : list nat) :
  (edges_a = [] \/ edges_b = [] ->
   find_closest_pair_edges vec_length bm edges_a edges_b = Raise IndexError)
  /\ (edges_a <> [] -> edges_b <> [] ->
      (forall d1 d2, In d1 edges_a -> In d2 edges_b ->
                     exists k, length_func vec_length bm (d1, d2) = Ok k) ->
      exists e1 e2 k,
        find_closest_pair_edges vec_length bm edges_a edges_b = Ok (e1, e2)
        /\ In e1 edges_a /\ In e2 edges_b
        /\ length_func vec_length bm (e1, e2) = Ok k
        /\ forall d1 d2 k',
             In d1 edges_a -> In d2 edges_b ->
             length_func vec_length bm (d1, d2) = Ok k' -> k <= k').
Proof.
  unfold find_closest_pair_edges. split.
  - intros [-> | ->]; [reflexivity|].
    replace (flat_map (fun e1 => map (fun e2 => (e1, e2)) []) edges_a)
      with (@nil (nat * nat)); [reflexivity|].
    induction edges_a; simpl; auto.
  - intros Ha Hb Hok.
    set (pairs := flat_map (fun e1 => map (fun e2 => (e1, e2)) edges_b) edges_a).
    assert (forall d1 d2, In (d1, d2) pairs <-> In d1 edges_a /\ In d2 edges_b)
      as Hpairs.
    { intros d1 d2. unfold pairs. rewrite in_flat_map. split.
      - intros (e1 & H1 & H2). apply in_map_iff in H2.
        destruct H2 as (e2 & E & H2). injection E as <- <-. auto.
      - intros [H1 H2]. exists d1. split; [exact H1|].
        apply in_map_iff. now exists d2. }
    set (keyed_of := fun p : nat * nat =>
                       k <- length_func vec_length bm p;; Ok (k, p)).
    destruct (mapM_total keyed_of pairs) as (keyed & Ek).
    { intros [d1 d2] Hd. apply Hpairs in Hd.
      destruct (Hok d1 d2 (proj1 Hd) (proj2 Hd)) as (k & Ekk).
      exists (k, (d1, d2)). unfold keyed_of. now rewrite Ekk. }
    fold keyed_of. rewrite Ek. cbn [bind].
    destruct (mapM_In keyed_of pairs keyed Ek) as (Hback & Hforth & Hlen).
    assert (keyed <> []) as Hne.
    { destruct edges_a as [|a0 ?]; [congruence|].
      destruct edges_b as [|b0 ?]; [congruence|].
      destruct keyed; [discriminate Hlen|discriminate]. }
    destruct (py_sorted_head fst keyed Hne) as (h & rest & Es & Hin & Hmin).
    rewrite Es. cbn [py_first bind].
    destruct (Hback h Hin) as ([e1 e2] & Hp & Eh).
    unfold keyed_of in Eh.
    destruct (length_func vec_length bm (e1, e2)) as [k|] eqn:Elen;
      [|discriminate].
    cbn [bind] in Eh. injection Eh as <-. cbn [snd fst] in *.
    apply Hpairs in Hp.
    exists e1, e2, k. repeat split; try tauto.
    intros d1 d2 k' H1 H2 E'.
    destruct (Hforth (d1, d2)) as (b & Hb' & Eb); [apply Hpairs; auto|].
    unfold keyed_of in Eb. rewrite E' in Eb. cbn [bind] in Eb.
    injection Eb as <-. apply (Hmin _ Hb').
Qed.
End ClosestPair.

Lemma closest_pair_is_closest_witness :
  exists e1 e2 k,
    find_closest_pair_edges squared_length long_gap [9; 11]%nat [10; 12]%nat
    = Ok (e1, e2)
    /\ In e1 [9; 11]%nat /\ In e2 [10; 12]%nat
    /\ length_func squared_length long_gap (e1, e2) = Ok k
    /\ forall d1 d2 k',
         In d1 [9; 11]%nat -> In d2 [10; 12]%nat ->
         length_func squared_length long_gap (d1, d2) = Ok k' -> k <= k'.
Proof.
  apply (proj2 (closest_pair_is_closest squared_length long_gap
                  [9; 11]%nat [10; 12]%nat)).
  - discriminate.
  - discriminate.
  - intros d1 d2 H1 H2. simpl in H1, H2.
    destruct H1 as [<-|[<-|[]]]; destruct H2 as [<-|[<-|[]]];
      eexists; vm_compute; reflexivity.
Defined.

(** ** [sort_verts_by_loops] *)

Lemma lt_pair_spec (a b : Q * Q) :
  lt_pair a b = true
  <-> fst a < fst b \/ (fst a == fst b /\ snd a < snd b).
Proof.
  unfold lt_pair.
  rewrite orb_true_iff, andb_true_iff, !Qlt_bool_iff, Qeq_bool_iff.
  tauto.
Qed.

Lemma lt_pair_asym (a b : Q * Q) : lt_pair a b = true -> lt_pair b a = false.
Proof.
  intro H. destruct (lt_pair b a) eqn:E; [|reflexivity].
  apply lt_pair_spec in H. apply lt_pair_spec in E. exfalso. lra.
Qed.

Lemma lt_pair_trans (a b c : Q * Q) :
  lt_pair b a = false -> lt_pair c b = false -> lt_pair c a = false.
Proof.
  intros H1 H2. destruct (lt_pair c a) eqn:E; [|reflexivity].
  apply lt_pair_spec in E.
  assert (~ (fst b < fst a \/ (fst b == fst a /\ snd b < snd a))) as N1
      by (rewrite <- lt_pair_spec; congruence).
  assert (~ (fst c < fst b \/ (fst c == fst b /\ snd c < snd b))) as N2
      by (rewrite <- lt_pair_spec; congruence).
  exfalso. lra.
Qed.

Section MaxByOrder.
Context {A K : Type} (lt : K -> K -> bool) (key : A -> K).
Hypothesis lt_asym : forall a b, lt a b = true -> lt b a = false.
Hypothesis lt_trans :
  forall a b c, lt b a = false -> lt c b = false -> lt c a = false.

Lemma max_from_member (l : list A) (b : A) :
  max_from lt key b l = b \/ In (max_from lt key b l) l.
Proof.
  revert b. induction l as [|a l IH]; intro b; simpl.
  - now left.
  - destruct (IH (if lt (key b) (key a) then a else b)) as [H|H].
    + rewrite H. destruct (lt (key b) (key a)); auto.
    + auto.
Qed.

Lemma lt_irrefl (a : K) : lt a a = false.
Proof.
  destruct (lt a a) eqn:E; [|reflexivity].
  pose proof (lt_asym _ _ E). congruence.
Qed.

Lemma max_from_above_best (l : list A) (b : A) :
  lt (key (max_from lt key b l)) (key b) = false.
Proof.
  revert b. induction l as [|a l IH]; intro b; simpl.
  - apply lt_irrefl.
  - destruct (lt (key b) (key a)) eqn:E.
    + apply (lt_trans _ (key a)); [now apply lt_asym|apply IH].
    + apply IH.
Qed.

Lemma max_from_above (l : list A) (b w : A) :
  In w l -> lt (key (max_from lt key b l)) (key w) = false.
Proof.
  revert b. induction l as [|a l IH]; intros b Hw; simpl in *.
  - contradiction.
  - destruct Hw as [->|Hw]; [|now apply IH].
    destruct (lt (key b) (key w)) eqn:E.
    + apply max_from_above_best.
    + apply (lt_trans _ (key b)); [exact E|apply max_from_above_best].
Qed.
End MaxByOrder.

Lemma combine_seq_nth {A : Type} (l : list A) (s i : nat) (a : A) :
  In (i, a) (combine (seq s (List.length l)) l) ->
  (s <= i)%nat /\ nth_error l (i - s) = Some a.
Proof.
  revert s. induction l as [|b l IH]; intros s H; simpl in H; [contradiction|].
  destruct H as [E|H].
  - injection E as <- <-. rewrite Nat.sub_diag. auto.
  - destruct (IH (S s) H) as [Hle Hn]. split; [lia|].
    replace (i - s)%nat with (S (i - S s)) by lia. exact Hn.
Qed.

Lemma combine_seq_In {A : Type} (l : list A) (s : nat) (a : A) :
  In a l -> exists i, In (i, a) (combine (seq s (List.length l)) l).
Proof.
  revert s. induction l as [|b l IH]; intros s H; [contradiction|].
  destruct H as [->|H].
  - exists s. now left.
  - destruct (IH (S s) H) as (i & Hi). exists i. now right.
Qed.

Lemma firstn_S_nth {A : Type} (l : list A) (i : nat) (a : A) :
  nth_error l i = Some a -> firstn (S i) l = firstn i l ++ [a].
Proof.
  revert i. induction l as [|b l IH]; intros i H.
  - destruct i; discriminate.
  - destruct i as [|i]; simpl in *.
    + now injection H as ->.
    + now rewrite <- (IH i H).
Qed.

Lemma find_vert_index (bm : BMesh) (i : nat) (v : BMVert) :
  find_vert bm i = Ok v -> v_index v = i /\ In v (verts bm).
Proof.
  unfold find_vert.
  destruct (find (fun u => Nat.eqb (v_index u) i) (verts bm)) eqn:E;
    [|discriminate].
  intro H. injection H as <-. apply find_some in E.
  split; [now apply Nat.eqb_eq|tauto].
Qed.

(** X3.  For a face whose corners are in the mesh: without corners the
    function raises [ValueError]; otherwise it returns every corner of the
    face exactly as often as the face has it, beginning with a corner that
    no corner exceeds in the order of [(x, y)], and then backwards around
    the face: the loops before and including the start reversed, followed
    by the remaining loops reversed. *)
Theorem sort_verts_by_loops_order
        (bm : BMesh) (face : BMFace) (corners : list BMVert) :
  mapM (find_vert bm) (f_loops face) = Ok corners ->
  (f_loops face = [] -> sort_verts_by_loops bm face = Raise ValueError)
  /\ (f_loops face <> [] ->
      exists sorted start before after,
        sort_verts_by_loops bm face = Ok sorted
        /\ f_loops face = before ++ after
        /\ sorted = rev before ++ rev after
        /\ Permutation sorted (f_loops face)
        /\ In start corners
        /\ hd_error sorted = Some (v_index start)
        /\ forall c, In c corners ->
                     lt_pair (x (co start), y (co start))
                             (x (co c), y (co c)) = false).
Proof.
  intro Hm. unfold sort_verts_by_loops. rewrite Hm. cbn [bind].
  destruct (mapM_In _ _ _ Hm) as (_ & _ & Hlen).
  split.
  - intro He. rewrite He in Hlen. destruct corners; [reflexivity|discriminate].
  - intro Hne.
    set (key := fun p : nat * BMVert => (x (co (snd p)), y (co (snd p)))).
    set (indexed := combine (seq 0 (List.length corners)) corners).
    destruct indexed as [|p0 ps] eqn:Ei.
    { exfalso. destruct corners as [|c cs]; [|discriminate Ei].
      destruct (f_loops face); [congruence|discriminate]. }
    cbn [py_max bind].
    set (start := max_from lt_pair key p0 ps).
    assert (In start indexed) as Hin.
    { rewrite Ei. destruct (max_from_member lt_pair key ps p0) as [E|H];
        [left; symmetry; exact E|now right]. }
    destruct start as [i v] eqn:Es. cbn [fst].
    destruct (combine_seq_nth corners 0 i v Hin) as [_ Hn].
    rewrite Nat.sub_0_r in Hn.
    destruct (mapM_nth _ _ _ _ _ Hm Hn) as (a & Ha & Hf).
    destruct (find_vert_index bm a v Hf) as [Hidx _].
    exists (rev (firstn (S i) (f_loops face)) ++ rev (skipn (S i) (f_loops face))).
    exists v, (firstn (S i) (f_loops face)), (skipn (S i) (f_loops face)).
    split; [reflexivity|]. split; [now rewrite firstn_skipn|].
    split; [reflexivity|]. split.
    { rewrite <- (firstn_skipn (S i) (f_loops face)) at 3.
      apply Permutation_app; apply Permutation_sym, Permutation_rev. }
    split; [now apply nth_error_In in Hn|]. split.
    { rewrite (firstn_S_nth _ _ _ Ha), rev_app_distr. simpl. now rewrite Hidx. }
    intros c Hc.
    destruct (combine_seq_In corners 0 c Hc) as (j & Hj).
    fold indexed in Hj. rewrite Ei in Hj.
    change (lt_pair (key (i, v)) (key (j, c)) = false). rewrite <- Es.
    destruct Hj as [->|Hj].
    + apply (max_from_above_best lt_pair key lt_pair_asym lt_pair_trans).
    + apply (max_from_above lt_pair key lt_pair_asym lt_pair_trans); exact Hj.
Qed.

Lemma sort_verts_by_loops_order_witness :
  exists sorted start before after,
    sort_verts_by_loops square_top (mkFace 8 [0; 1; 2; 3]%nat) = Ok sorted
    /\ [0; 1; 2; 3]%nat = before ++ after
    /\ sorted = rev before ++ rev after
    /\ Permutation sorted [0; 1; 2; 3]%nat
    /\ In start (verts square_top)
    /\ hd_error sorted = Some (v_index start)
    /\ forall c, In c (verts square_top) ->
                 lt_pair (x (co start), y (co start))
                         (x (co c), y (co c)) = false.
Proof.
  apply (proj2 (sort_verts_by_loops_order
                  square_top (mkFace 8 [0; 1; 2; 3]%nat) (verts square_top)
                  eq_refl)).
  discriminate.
Defined.

(** ** The loop over the arcs *)

Lemma is_valid_In (bm : BMesh) (v : BMVert) :
  In v (verts bm) -> is_valid bm (v_index v) = true.
Proof.
  intro H. unfold is_valid. apply existsb_exists.
  exists v. split; [exact H|apply Nat.eqb_refl].
Qed.

Lemma is_valid_extends (bm bm' : BMesh) (i : nat) :
  (exists vs, verts bm' = verts bm ++ vs) ->
  is_valid bm i = true -> is_valid bm' i = true.
Proof.
  intros (vs & E) H. unfold is_valid in *. rewrite E, existsb_app, H.
  reflexivity.
Qed.

Lemma proper_edge_extends (bm bm' : BMesh) (e : nat) :
  (exists vs, verts bm' = verts bm ++ vs) ->
  (exists es, edges bm' = edges bm ++ es) ->
  proper_edge bm e -> proper_edge bm' e.
Proof.
  intros Hv (es & Ee) (ev & Hin & Hi & Hd & H1 & H2).
  exists ev. rewrite Ee. repeat split; auto.
  - apply in_or_app. now left.
  - now apply (is_valid_extends bm).
  - now apply (is_valid_extends bm).
Qed.

Lemma mesh_extends_trans (a b c : BMesh) :
  mesh_extends a b -> mesh_extends b c -> mesh_extends a c.
Proof.
  intros ((v1 & E1) & (e1 & F1) & G1) ((v2 & E2) & (e2 & F2) & G2).
  repeat split.
  - exists (v1 ++ v2). now rewrite E2, E1, app_assoc.
  - exists (e1 ++ e2). now rewrite F2, F1, app_assoc.
  - congruence.
Qed.

Lemma arcs_loop_invariant_step (bm : BMesh) (st : HipState) (bm' : BMesh)
      (sv se : list nat) :
  arcs_loop_invariant bm st ->
  mesh_extends (hip_bm st) bm' ->
  (forall i, In i sv -> is_valid bm' i = true) ->
  (forall e, In e se -> proper_edge bm' e) ->
  arcs_loop_invariant bm (mkHip bm' (skeleton_verts st ++ sv)
                                (skeleton_edges st ++ se)).
Proof.
  intros (Hm & Hsv & Hse) Hext Hnv Hne.
  destruct Hext as (Hv & He & Hf).
  repeat split; simpl.
  - destruct Hm as ((v1 & E1) & _). destruct Hv as (v2 & E2).
    exists (v1 ++ v2). now rewrite E2, E1, app_assoc.
  - destruct Hm as (_ & (e1 & F1) & _). destruct He as (e2 & F2).
    exists (e1 ++ e2). now rewrite F2, F1, app_assoc.
  - destruct Hm as (_ & _ & G). congruence.
  - apply Forall_app. split.
    + eapply Forall_impl; [|exact Hsv]. intros i Hi.
      now apply (is_valid_extends (hip_bm st)).
    + now apply Forall_forall.
  - apply Forall_app. split.
    + eapply Forall_impl; [|exact Hse]. intros e Hp.
      now apply (proper_edge_extends (hip_bm st)).
    + now apply Forall_forall.
Qed.

Lemma mesh_extends_refl (bm : BMesh) : mesh_extends bm bm.
Proof.
  repeat split; (exists []; now rewrite app_nil_r).
Qed.

Lemma make_vert_extends (bm : BMesh) (location : Vector) :
  mesh_extends bm (fst (make_vert bm location))
  /\ is_valid (fst (make_vert bm location)) (snd (make_vert bm location)) = true.
Proof.
  split.
  - repeat split; simpl; [now eexists|exists []; now rewrite app_nil_r].
  - unfold is_valid. simpl. rewrite existsb_app. simpl.
    rewrite Nat.eqb_refl. apply orb_true_r.
Qed.

Lemma contextual_create_verts_proper (bm : BMesh) (a b : nat) :
  a <> b -> is_valid bm a = true -> is_valid bm b = true ->
  mesh_extends bm (fst (contextual_create_verts bm a b))
  /\ forall e, In e (snd (contextual_create_verts bm a b)) ->
               proper_edge (fst (contextual_create_verts bm a b)) e.
Proof.
  intros Hab Ha Hb. unfold contextual_create_verts.
  destruct (find (connects a b) (edges bm)) as [ev|] eqn:E; simpl.
  - split; [apply mesh_extends_refl|].
    intros e [<-|[]]. apply find_some in E. destruct E as [Hin Hc].
    exists ev. split; [exact Hin|]. split; [reflexivity|].
    unfold connects in Hc.
    apply orb_prop in Hc.
    destruct Hc as [Hc|Hc]; apply andb_prop in Hc; destruct Hc as [H1 H2];
      apply Nat.eqb_eq in H1; apply Nat.eqb_eq in H2; rewrite H1, H2;
      repeat split; auto.
  - split.
    + repeat split; simpl; [exists []; now rewrite app_nil_r|now eexists].
    + intros e [<-|[]].
      exists (mkEdge (fresh bm) a b). simpl. repeat split; auto.
      apply in_or_app. right. now left.
Qed.

(** X5.  The loop over the arcs always runs to its end.  It keeps every
    vertex and edge the mesh had, in place, and adds no face; every vertex
    it lists in [skeleton_verts] is a vertex of the mesh, and every edge it
    lists in [skeleton_edges] is an edge of the mesh between two different
    vertices of the mesh: a sink that is its arc's own source gets no
    edge. *)
Theorem arcs_loop_keeps_the_mesh
        (bm : BMesh) (skeleton : list Arc) (median : Vector) (height_scale : Q) :
  exists st',
    visit_arcs bm skeleton median height_scale = Ok st'
    /\ arcs_loop_invariant bm st'.
Proof.
  unfold visit_arcs.
  apply (foldM_invariant (visit_arc skeleton median height_scale)
                         (arcs_loop_invariant bm)
                         (fun arc => In arc skeleton)).
  - intros st arc Hinv Hin. unfold visit_arc.
    assert (exists st1 vsource,
               visit_source skeleton median height_scale st arc
               = Ok (st1, vsource)
               /\ arcs_loop_invariant bm st1
               /\ is_valid (hip_bm st1) vsource = true)
      as (st1 & vsource & E1 & Hinv1 & Hvalid).
    { unfold visit_source.
      destruct (vert_at_loc (source arc) (verts (hip_bm st)) None) as [v|] eqn:Ev.
      - exists st, (v_index v).
        split; [reflexivity|]. split; [exact Hinv|].
        apply is_valid_In.
        now destruct (proj2 (vert_at_loc_spec _ _ _) v Ev).
      - destruct (source_height_ok skeleton arc Hin) as (a & _ & _ & Es).
        rewrite Es. cbn [bind].
        set (loc := mkVector (px (source arc)) (py (source arc))
                             (z median + height_scale * height a)).
        destruct (make_vert_extends (hip_bm st) loc) as [Hext Hval].
        eexists. eexists. split; [reflexivity|]. split; [|exact Hval].
        replace (skeleton_edges st) with (skeleton_edges st ++ [])
          by apply app_nil_r.
        apply (arcs_loop_invariant_step bm st); auto.
        + intros i [<-|[]]. exact Hval.
        + intros e []. }
    rewrite E1. cbn [bind].
    destruct (foldM_invariant
                (visit_sink skeleton median height_scale vsource)
                (fun s => arcs_loop_invariant bm s
                          /\ is_valid (hip_bm s) vsource = true)
                (fun sink => In sink (sinks arc)) (sinks arc) st1)
      as (st2 & E2 & Hinv2 & _); auto.
    + intros s sink [Hs Hsrc] Hsink. unfold visit_sink.
      assert (exists bm1 vs,
                 match vert_at_loc sink (verts (hip_bm s)) None with
                 | Some v => Ok (hip_bm s, v_index v)
                 | None =>
                     h <- sink_height skeleton sink;;
                     Ok (make_vert (hip_bm s)
                                   (mkVector (px sink) (py sink)
                                             (z median + height_scale * h)))
                 end = Ok (bm1, vs)
                 /\ mesh_extends (hip_bm s) bm1
                 /\ is_valid bm1 vs = true)
        as (bm1 & vs & E & Hext & Hvs).
      { destruct (vert_at_loc sink (verts (hip_bm s)) None) as [v|] eqn:Ev.
        - exists (hip_bm s), (v_index v).
          split; [reflexivity|]. split; [apply mesh_extends_refl|].
          apply is_valid_In.
          now destruct (proj2 (vert_at_loc_spec _ _ _) v Ev).
        - destruct (sink_height_ok skeleton arc sink Hin Hsink)
            as (a & _ & _ & Es & _).
          rewrite Es. cbn [bind].
          set (loc := mkVector (px sink) (py sink)
                               (z median + height_scale * height a)).
          destruct (make_vert_extends (hip_bm s) loc) as [Hext Hval].
          exists (fst (make_vert (hip_bm s) loc)),
                 (snd (make_vert (hip_bm s) loc)).
          split; [reflexivity|]. split; auto. }
      rewrite E. cbn [bind].
      assert (is_valid bm1 vsource = true) as Hsrc1
          by (apply (is_valid_extends (hip_bm s)); [apply Hext|exact Hsrc]).
      destruct (Nat.eqb vs vsource) eqn:Eq; cbn [negb].
      * eexists. split; [reflexivity|]. split; [|exact Hsrc1].
        replace (skeleton_edges s) with (skeleton_edges s ++ [])
          by apply app_nil_r.
        apply (arcs_loop_invariant_step bm s); auto.
        -- intros i [<-|[]]. exact Hvs.
        -- intros e [].
      * apply Nat.eqb_neq in Eq.
        destruct (contextual_create_verts_proper bm1 vsource vs)
          as [Hext2 Hprop]; auto.
        destruct (contextual_create_verts bm1 vsource vs) as [bm2 geom].
        cbn [fst snd] in *.
        eexists. split; [reflexivity|]. split.
        -- apply (arcs_loop_invariant_step bm s).
           ++ exact Hs.
           ++ now apply (mesh_extends_trans _ bm1).
           ++ intros i [<-|[]].
              apply (is_valid_extends bm1); [apply Hext2|exact Hvs].
           ++ exact Hprop.
        -- simpl. apply (is_valid_extends bm1); [apply Hext2|exact Hsrc1].
    + now exists st2.
  - repeat split; simpl; try (exists []; now rewrite app_nil_r); constructor.
  - auto.
Qed.

(** ** The height scale of the hip roof *)

(** X7.  [prop.height / max(arc.height)]: an empty skeleton raises
    [ValueError]; a skeleton whose heights are all 0 raises
    [ZeroDivisionError]; a skeleton with a positive height gives the scale
    that takes its greatest height to the requested height. *)
Theorem height_scale_outcomes (prop : RoofProperty) (skeleton : list Arc) :
  (skeleton = [] -> height_scale_of prop skeleton = Raise ValueError)
  /\ (skeleton <> [] -> (forall a, In a skeleton -> height a == 0) ->
      height_scale_of prop skeleton = Raise ZeroDivisionError)
  /\ (forall b, In b skeleton -> 0 < height b ->
      exists scale top,
        height_scale_of prop skeleton = Ok scale
        /\ (forall a, In a skeleton -> height a <= top)
        /\ (exists a, In a skeleton /\ top = height a)
        /\ scale * top == roof_height prop).
Proof.
  split; [intros ->; reflexivity|]. split.
  - intros Hne Hzero.
    destruct (py_max_heights skeleton Hne) as (top & E & (a & Ha & Et) & _).
    unfold height_scale_of. rewrite E. cbn [bind]. unfold py_div.
    now rewrite Et, (proj2 (Qeq_bool_iff _ _) (Hzero a Ha)).
  - intros b Hb Hpos.
    assert (skeleton <> []) as Hne by (intro C; rewrite C in Hb; contradiction).
    destruct (py_max_heights skeleton Hne) as (top & E & Hatt & Hle).
    assert (0 < top) as Htop
        by (eapply Qlt_le_trans; [exact Hpos|now apply Hle]).
    assert (~ top == 0) as Hn
        by (intro C; rewrite C in Htop; apply (Qlt_irrefl 0 Htop)).
    exists (roof_height prop / top), top.
    split; [|split; [exact Hle|split; [exact Hatt|field; exact Hn]]].
    unfold height_scale_of. rewrite E. cbn [bind]. unfold py_div.
    destruct (Qeq_bool top 0) eqn:Z; [|reflexivity].
    apply Qeq_bool_iff in Z. contradiction.
Qed.

Lemma height_scale_outcomes_witness :
  exists scale top,
    height_scale_of (mkProp HIP 0 0 3 HORIZONTAL) rectangle_skeleton = Ok scale
    /\ (forall a, In a rectangle_skeleton -> height a <= top)
    /\ (exists a, In a rectangle_skeleton /\ top = height a)
    /\ scale * top == roof_height (mkProp HIP 0 0 3 HORIZONTAL).
Proof.
  apply (proj2 (proj2 (height_scale_outcomes (mkProp HIP 0 0 3 HORIZONTAL)
                                             rectangle_skeleton))
               (mkArc (mkPoint 1 1) 1 [mkPoint 0 0; mkPoint 0 2])).
  - simpl. left. reflexivity.
  - reflexivity.
Defined.

(** ** The rectangularity gate rounds *)

Lemma Qlt_bool_comp (a a' b b' : Q) :
  a == a' -> b == b' -> Qlt_bool a b = Qlt_bool a' b'.
Proof.
  intros Ea Eb. apply bool_ext. rewrite !Qlt_bool_iff, Ea, Eb. tauto.
Qed.

Lemma round_half_even_comp (a b : Q) :
  a == b -> round_half_even a = round_half_even b.
Proof.
  intro E. unfold round_half_even.
  assert (Qfloor a = Qfloor b) as Ef by (now rewrite E).
  rewrite Ef.
  rewrite (Qlt_bool_comp (a - inject_Z (Qfloor b)) (b - inject_Z (Qfloor b))
                         (1 # 2) (1 # 2)); [|now rewrite E|reflexivity].
  rewrite (Qlt_bool_comp (1 # 2) (1 # 2)
                         (a - inject_Z (Qfloor b)) (b - inject_Z (Qfloor b)));
    [reflexivity|reflexivity|now rewrite E].
Qed.

Lemma round4_comp (a b : Q) : a == b -> Qeq_bool (round4 a) (round4 b) = true.
Proof.
  intro E. unfold round4.
  rewrite (round_half_even_comp (a * 10000) (b * 10000)); [|now rewrite E].
  apply Qeq_bool_iff. reflexivity.
Qed.

Lemma round_half_even_below (q : Q) (n : Z) :
  q < inject_Z n + (1 # 2) -> (round_half_even q <= n)%Z.
Proof.
  intro H. pose proof (round_half_even_near q) as Hn.
  apply Qabs_Qle_condition in Hn.
  assert (inject_Z (round_half_even q) < inject_Z (n + 1)) as Hlt.
  { rewrite inject_Z_plus. change (inject_Z 1) with 1. lra. }
  rewrite <- Zlt_Qlt in Hlt. lia.
Qed.

Lemma round_half_even_above (q : Q) (n : Z) :
  inject_Z n + (1 # 2) < q -> (n + 1 <= round_half_even q)%Z.
Proof.
  intro H. pose proof (round_half_even_near q) as Hn.
  apply Qabs_Qle_condition in Hn.
  assert (inject_Z n < inject_Z (round_half_even q)) as Hlt by lra.
  rewrite <- Zlt_Qlt in Hlt. lia.
Qed.

Lemma round4_across (a b : Q) (n : Z) :
  a < (inject_Z n + (1 # 2)) / 10000 ->
  (inject_Z n + (1 # 2)) / 10000 < b ->
  Qeq_bool (round4 a) (round4 b) = false.
Proof.
  intros Ha Hb.
  set (m := inject_Z n + (1 # 2)) in *.
  assert (m == m / 10000 * 10000) as Hm by field.
  assert (a * 10000 < m) as Ha'
      by (rewrite Hm; apply Qmult_lt_compat_r; [reflexivity|exact Ha]).
  assert (m < b * 10000) as Hb'
      by (rewrite Hm; apply Qmult_lt_compat_r; [reflexivity|exact Hb]).
  pose proof (round_half_even_below _ _ Ha') as La.
  pose proof (round_half_even_above _ _ Hb') as Lb.
  destruct (Qeq_bool (round4 a) (round4 b)) eqn:E; [|reflexivity].
  exfalso. apply Qeq_bool_iff in E. unfold round4 in E.
  set (ra := round_half_even (a * 10000)) in *.
  set (rb := round_half_even (b * 10000)) in *.
  assert (inject_Z ra == inject_Z rb) as Hr.
  { assert (inject_Z ra == inject_Z ra / 10000 * 10000) as -> by field.
    rewrite E. field. }
  unfold Qeq in Hr. simpl in Hr. lia.
Qed.

Lemma Qeq_bool_sym (a b : Q) : Qeq_bool a b = Qeq_bool b a.
Proof.
  apply bool_ext. rewrite !Qeq_bool_iff. split; intro H; now symmetry.
Qed.

Section RoundingGate.
Variable calc_area : BMesh -> BMFace -> Q.

(** X8.  [is_rectangular] compares the two areas rounded to four
    decimals.  On an empty selection it raises [IndexError].  Equal areas
    are accepted.  Areas on the two sides of a rounding boundary
    [(n + 1/2) / 10000] are rejected however close they are to each other:
    the test is not a tolerance of 1e-4. *)
Theorem rectangularity_gate_rounds (bm : BMesh) :
  is_rectangular calc_area bm [] = Raise IndexError
  /\ forall fs ffs area,
       mapM (find_face bm) fs = Ok ffs ->
       extent_area bm ffs = Ok area ->
       (face_area calc_area bm ffs == area ->
        is_rectangular calc_area bm fs = Ok true)
       /\ (forall n : Z,
              (face_area calc_area bm ffs < (inject_Z n + (1 # 2)) / 10000
               /\ (inject_Z n + (1 # 2)) / 10000 < area)
              \/ (area < (inject_Z n + (1 # 2)) / 10000
                  /\ (inject_Z n + (1 # 2)) / 10000
                     < face_area calc_area bm ffs) ->
              is_rectangular calc_area bm fs = Ok false).
Proof.
  split; [reflexivity|].
  intros fs ffs area Hf Ha. unfold is_rectangular.
  rewrite Hf. cbn [bind]. rewrite Ha. cbn [bind]. split.
  - intro E. now rewrite (round4_comp _ _ E).
  - intros n [[H1 H2]|[H1 H2]].
    + now rewrite (round4_across _ _ n H1 H2).
    + now rewrite Qeq_bool_sym, (round4_across _ _ n H1 H2).
Qed.
End RoundingGate.

Lemma rectangularity_gate_rounds_witness :
  is_rectangular polygon_area square_top [8%nat] = Ok true.
Proof.
  apply (proj2 (rectangularity_gate_rounds polygon_area square_top)
               [8%nat] (faces square_top) 16 eq_refl).
  - vm_compute. reflexivity.
  - vm_compute. reflexivity.
Defined.

(** ** The ridge merge moves vertices along the axis only *)

(** X9.  Without vertices the merge raises [ValueError].  When it
    returns, the mesh has no more vertices than before, and every vertex
    of the result is a vertex of the mesh with its z and its coordinate
    on the other axis unchanged; a vertex outside the given set has not
    moved at all. *)
Theorem merge_moves_along_the_axis_only
        (bm bm' : BMesh) (vs : list nat) (axis : Axis) :
  merge_verts_along_axis bm [] axis = Raise ValueError
  /\ (merge_verts_along_axis bm vs axis = Ok bm' ->
      (List.length (verts bm') <= List.length (verts bm))%nat
      /\ forall v, In v (verts bm') ->
           exists u,
             In u (verts bm) /\ v_index u = v_index v
             /\ z (co v) = z (co u)
             /\ match axis with
                | axis_x => y (co v) = y (co u)
                | axis_y => x (co v) = x (co u)
                end
             /\ (mem (v_index v) vs = false -> co v = co u)).
Proof.
  split; [reflexivity|].
  unfold merge_verts_along_axis.
  destruct (axis_mid bm vs axis) as [mid|]; [|discriminate].
  cbn [bind]. intro H. injection H as <-. split.
  - rewrite remove_doubles_zero. unfold snap_to_axis. cbn [verts].
    rewrite length_map. apply Nat.le_refl.
  - intros v Hv. apply remove_doubles_verts in Hv.
    unfold snap_to_axis in Hv. simpl in Hv.
    apply in_map_iff in Hv. destruct Hv as (u & E & Hu).
    exists u. split; [exact Hu|].
    destruct (mem (v_index u) vs) eqn:M; subst v; simpl.
    + destruct axis; simpl; repeat split; auto; congruence.
    + destruct axis; repeat split; auto.
Qed.

Lemma merge_moves_along_the_axis_only_witness :
  exists bm',
    merge_verts_along_axis rectangle_top [0; 1; 2; 3]%nat axis_x = Ok bm'
    /\ (List.length (verts bm') <= List.length (verts rectangle_top))%nat
    /\ forall v, In v (verts bm') ->
         exists u,
           In u (verts rectangle_top) /\ v_index u = v_index v
           /\ z (co v) = z (co u)
           /\ y (co v) = y (co u)
           /\ (mem (v_index v) [0; 1; 2; 3]%nat = false -> co v = co u).
Proof.
  eexists. split; [vm_compute; reflexivity|].
  apply (proj2 (merge_moves_along_the_axis_only
                  rectangle_top _ [0; 1; 2; 3]%nat axis_x)).
  vm_compute. reflexivity.
Defined.

(** ** Crossing resolution only adds *)

Section CrossingAdds.
Variable vec_length : Vector -> Q.
Variable intersect_line_line_2d :
  Vector -> Vector -> Vector -> Vector -> option Point.

(** X10.  When the two loops of crossing resolution return, the vertices
    the mesh had are all there, in place and unmoved, followed by one new
    vertex for each split; the list of new vertices names exactly these,
    in order; the mesh has one more edge for each split and as many faces
    as before. *)
Theorem crossing_resolution_only_adds
        (bm bm' : BMesh) (es vs new_verts : list nat) :
  join_loops vec_length intersect_line_line_2d bm es vs = Ok (bm', new_verts) ->
  exists added,
    verts bm' = verts bm ++ added
    /\ new_verts = map v_index added
    /\ List.length (edges bm')
       = (List.length (edges bm) + List.length new_verts)%nat
    /\ List.length (faces bm') = List.length (faces bm).
Proof.
  unfold join_loops. intro H.
  apply (foldM_rel _ crossing_grows vs crossing_grows_refl
                   crossing_grows_trans) in H.
  - destruct H as (added & V & N & E & F). simpl in *.
    exists added. rewrite N, length_map. auto.
  - intros s v s' _ Hs.
    apply (foldM_rel _ crossing_grows es crossing_grows_refl
                     crossing_grows_trans) in Hs; [exact Hs|].
    intros s1 e s2 _ Hv.
    now apply (join_visit_grows vec_length intersect_line_line_2d v e).
Qed.
End CrossingAdds.

Lemma crossing_resolution_only_adds_witness :
  exists bm' new_verts added,
    join_loops axis_length point_on_segment crossing [3%nat] [2%nat]
    = Ok (bm', new_verts)
    /\ verts bm' = verts crossing ++ added
    /\ new_verts = map v_index added
    /\ List.length (edges bm')
       = (List.length (edges crossing) + List.length new_verts)%nat
    /\ List.length (faces bm') = List.length (faces crossing).
Proof.
  eexists. eexists.
  destruct (crossing_resolution_only_adds
              axis_length point_on_segment crossing
              (fst (match join_loops axis_length point_on_segment crossing
                                     [3%nat] [2%nat] with
                    | Ok r => r | Raise _ => (crossing, []) end))
              [3%nat] [2%nat]
              (snd (match join_loops axis_length point_on_segment crossing
                                     [3%nat] [2%nat] with
                    | Ok r => r | Raise _ => (crossing, []) end)))
    as (added & H).
  - vm_compute. reflexivity.
  - exists added. split; [vm_compute; reflexivity|].
    exact H.
Defined.

(** ** [get_highest_z_facing_faces] *)

Section HighestFaces.
Variable normal : BMesh -> BMFace -> Vector.

(** X11.  On a mesh without vertices the function raises [ValueError].
    Otherwise it returns, each once, exactly the faces that have a corner
    at the greatest z of the mesh and a normal whose z is not 0. *)
Theorem highest_faces_are_at_the_top (bm : BMesh) :
  (verts bm = [] -> get_highest_z_facing_faces normal bm = Raise ValueError)
  /\ (verts bm <> [] ->
      exists top fs,
        get_highest_z_facing_faces normal bm = Ok fs
        /\ (exists v, In v (verts bm) /\ z (co v) = top)
        /\ (forall v, In v (verts bm) -> z (co v) <= top)
        /\ NoDup fs
        /\ forall i, In i fs <->
             exists f v,
               In f (faces bm) /\ f_index f = i
               /\ In v (verts bm) /\ z (co v) == top
               /\ In (v_index v) (f_loops f)
               /\ ~ z (normal bm f) == 0).
Proof.
  unfold get_highest_z_facing_faces. split.
  - intros ->. reflexivity.
  - intro Hne. destruct (verts bm) as [|v0 vs] eqn:Ev; [congruence|].
    cbn [map py_max bind].
    set (top := max_from Qlt_bool (fun h : Q => h) (key_z v0) (map key_z vs)).
    exists top. eexists. split; [reflexivity|]. split; [|split; [|split]].
    + destruct (max_from_in (fun h : Q => h) (map key_z vs) (key_z v0))
        as [E|Hin].
      * exists v0. split; [now left|]. symmetry. exact E.
      * apply in_map_iff in Hin. destruct Hin as (v & E & Hv).
        exists v. split; [now right|exact E].
    + intros v [<-|Hv].
      * apply (max_from_ge_best (fun h : Q => h)).
      * apply (max_from_ge (fun h : Q => h)). now apply (in_map key_z).
    + apply nodup_nat_NoDup.
    + intro i. rewrite nodup_nat_In, in_flat_map. split.
      * intros (v & Hv & Hi). apply filter_In in Hv. destruct Hv as [Hv Hz].
        apply in_map_iff in Hi. destruct Hi as (f & Ef & Hf).
        apply filter_In in Hf. destruct Hf as [Hf Hc].
        apply andb_prop in Hc. destruct Hc as [Hm Hn].
        exists f, v. repeat split; auto.
        -- now apply Qeq_bool_iff.
        -- now apply mem_In.
        -- intro C. apply Qeq_bool_iff in C. rewrite C in Hn. discriminate.
      * intros (f & v & Hf & Ef & Hv & Hz & Hm & Hn).
        exists v. split.
        -- apply filter_In. split; [exact Hv|now apply Qeq_bool_iff].
        -- apply in_map_iff. exists f. split; [exact Ef|].
           apply filter_In. split; [exact Hf|].
           apply andb_true_intro. split; [now apply mem_In|].
           destruct (Qeq_bool (z (normal bm f)) 0) eqn:C; [|reflexivity].
           apply Qeq_bool_iff in C. contradiction.
Qed.
End HighestFaces.

Lemma highest_faces_are_at_the_top_witness :
  get_highest_z_facing_faces gabled_block_normal gabled_block
  = Ok [20; 21]%nat
  /\ exists top fs,
       get_highest_z_facing_faces gabled_block_normal gabled_block = Ok fs
       /\ (exists v, In v (verts gabled_block) /\ z (co v) = top)
       /\ (forall v, In v (verts gabled_block) -> z (co v) <= top)
       /\ NoDup fs
       /\ forall i, In i fs <->
            exists f v,
              In f (faces gabled_block) /\ f_index f = i
              /\ In v (verts gabled_block) /\ z (co v) == top
              /\ In (v_index v) (f_loops f)
              /\ ~ z (gabled_block_normal gabled_block f) == 0.
Proof.
  split; [vm_compute; reflexivity|].
  apply (proj2 (highest_faces_are_at_the_top gabled_block_normal gabled_block)).
  discriminate.
Defined.

(** ** The length of a vector along an axis is a norm *)

Lemma axis_length_comp (a b : Vector) :
  veq a b -> axis_length a == axis_length b.
Proof.
  intros (Hx & Hy & Hz). unfold axis_length. now rewrite Hx, Hy, Hz.
Qed.

Lemma axis_length_scale (k : Q) (w : Vector) :
  0 <= k -> axis_length (vscale k w) == k * axis_length w.
Proof.
  intro Hk. unfold axis_length, vscale. cbn [x y z].
  rewrite !Qabs_Qmult, (Qabs_pos k Hk). ring.
Qed.

Lemma axis_length_sym (a b : Vector) :
  axis_length (vsub a b) == axis_length (vsub b a).
Proof.
  unfold axis_length, vsub. cbn [x y z].
  now rewrite (Qabs_Qminus (x a)), (Qabs_Qminus (y a)), (Qabs_Qminus (z a)).
Qed.

Lemma split_lands_on_the_vertex_witness :
  exists bm' nv,
    join_visit axis_length point_on_segment 2 (crossing, []) 3
    = Ok (bm', [] ++ [v_index nv])
    /\ verts bm' = verts crossing ++ [nv]
    /\ v_index nv = fresh crossing
    /\ veq (co nv) (mkVector 1 0 0).
Proof.
  apply (split_lands_on_the_vertex
           axis_length point_on_segment crossing [] 2 3
           (mkEdge 3 0 1) (mkVert 2 (mkVector 1 0 0))
           (mkVert 0 (mkVector 0 0 0)) (mkVert 1 (mkVector 4 0 0)) (1 # 4)).
  - exact axis_length_comp.
  - exact axis_length_scale.
  - exact axis_length_sym.
  - reflexivity.
  - reflexivity.
  - reflexivity.
  - reflexivity.
  - reflexivity.
  - vm_compute. discriminate.
  - discriminate.
  - discriminate.
  - repeat split; reflexivity.
  - vm_compute. discriminate.
Defined.

(** ** The skeleton edges handed to face reconstruction *)

Section SkeletonEdges.
Variable vec_length : Vector -> Q.
Variable intersect_line_line_2d :
  Vector -> Vector -> Vector -> Vector -> option Point.

(** X15.  When [create_hiproof_verts_and_edges] returns, the list of
    skeleton edges it returns has no edge twice, and every edge in it is
    an edge of the returned mesh with an end at a vertex of that mesh. *)
Theorem returned_skeleton_edges_are_edges
        (bm bm' : BMesh) (skeleton : list Arc) (original_edges : list nat)
        (median : Vector) (height_scale : Q) (skeleton_edges : list nat) :
  create_hiproof_verts_and_edges vec_length intersect_line_line_2d bm skeleton
                                 original_edges median height_scale
  = Ok (bm', skeleton_edges) ->
  NoDup skeleton_edges
  /\ forall e, In e skeleton_edges ->
       exists ev v,
         In ev (edges bm') /\ e_index ev = e
         /\ touches ev v = true /\ is_valid bm' v = true.
Proof.
  unfold create_hiproof_verts_and_edges, join_intersecting_verts_and_edges.
  intro H.
  repeat match type of H with
         | bind ?m _ = Ok _ =>
             let E := fresh "E" in
             destruct m eqn:E; cbn [bind] in H; [|discriminate H]
         | match ?p with (_, _) => _ end = Ok _ => destruct p
         end.
  match goal with
  | E : bind ?m _ = Ok _ |- _ =>
      destruct m as [[bm1 nv]|]; cbn [bind] in E;
      [injection E as <- <-|discriminate E]
  end.
  injection H as <- <-. split; [apply nodup_nat_NoDup|].
  intros e He. apply nodup_nat_In, in_flat_map in He.
  destruct He as (v & Hv & He).
  unfold link_edges in He. apply in_map_iff in He.
  destruct He as (ev & Ei & Hev). apply filter_In in Hev.
  destruct Hev as [Hin Ht].
  exists ev, v. repeat split; auto.
  apply in_app_or in Hv. destruct Hv as [Hv|Hv];
    apply filter_In in Hv; tauto.
Qed.
End SkeletonEdges.

Lemma returned_skeleton_edges_are_edges_witness :
  exists bm',
    create_hiproof_verts_and_edges
      axis_length point_on_segment (delete_faces_only square_top [8%nat])
      [square_arc] [4; 5; 6; 7]%nat (mkVector 2 2 0) 1
    = Ok (bm', [10; 11; 12; 13]%nat)
    /\ NoDup [10; 11; 12; 13]%nat
    /\ forall e, In e [10; 11; 12; 13]%nat ->
         exists ev v,
           In ev (edges bm') /\ e_index ev = e
           /\ touches ev v = true /\ is_valid bm' v = true.
Proof.
  eexists. split; [vm_compute; reflexivity|].
  apply (returned_skeleton_edges_are_edges
           axis_length point_on_segment (delete_faces_only square_top [8%nat])
           _ [square_arc] [4; 5; 6; 7]%nat (mkVector 2 2 0) 1).
  vm_compute. reflexivity.
Defined.

(** ** The louver cuts of [fill_louver] *)

Lemma every_second_length_pair {A : Type} (l : list A) :
  List.length (every_second l) = Nat.div2 (List.length l)
  /\ forall a, List.length (every_second (a :: l))
               = Nat.div2 (S (List.length l)).
Proof.
  induction l as [|b l [IH1 IH2]].
  - split; [reflexivity|intro; reflexivity].
  - split; [apply IH2|]. intro a. simpl. now rewrite IH1.
Qed.

(** X16.  In [fill_louver] the number of cuts is always twice the louver
    count: [2 * louver_count - 1] is odd for every integer, so the branch
    that keeps it is never taken.  Of the faces sorted by height, the
    louver faces [faces[1::2]] are every second one, half of them rounded
    down. *)
Theorem louver_cuts_are_even (louver_count : Z) :
  louver_cuts louver_count = (2 * louver_count)%Z
  /\ forall (A : Type) (faces_by_z : list A),
       List.length (every_second faces_by_z)
       = Nat.div2 (List.length faces_by_z).
Proof.
  split.
  - unfold louver_cuts.
    assert ((2 * louver_count - 1) mod 2 = 1)%Z as E.
    { replace (2 * louver_count - 1)%Z with (1 + (louver_count - 1) * 2)%Z
        by lia.
      now rewrite Z.mod_add. }
    rewrite E. simpl. lia.
  - intros A l. apply every_second_length_pair.
Qed.

(** ** [get_linked_edges] *)

Lemma count_occ_filter (f : nat -> bool) (l : list nat) (i : nat) :
  count_occ Nat.eq_dec (filter f l) i
  = if f i then count_occ Nat.eq_dec l i else 0%nat.
Proof.
  induction l as [|a l IH]; simpl; [now destruct (f i)|].
  destruct (f a) eqn:Fa; simpl; destruct (Nat.eq_dec a i) as [->|Hn];
    rewrite IH; try rewrite Fa; destruct (f i); auto.
Qed.

Lemma link_edges_count (bm : BMesh) (v : nat) (ev : BMEdge) :
  NoDup (map e_index (edges bm)) -> In ev (edges bm) ->
  count_occ Nat.eq_dec (link_edges bm v) (e_index ev)
  = if touches ev v then 1%nat else 0%nat.
Proof.
  unfold link_edges. induction (edges bm) as [|a l IH]; intros Hnd Hin.
  - contradiction.
  - simpl in Hnd. inversion Hnd as [|i l' Hnotin Hnd']; subst.
    destruct Hin as [->|Hin].
    + assert (count_occ Nat.eq_dec
                        (map e_index (filter (fun e => touches e v) l))
                        (e_index ev) = 0%nat) as Hz.
      { apply count_occ_not_In. intro C. apply Hnotin.
        apply in_map_iff in C. destruct C as (e' & Ee & He').
        apply filter_In in He'. apply in_map_iff. exists e'. tauto. }
      simpl. destruct (touches ev v); simpl; [|exact Hz].
      destruct (Nat.eq_dec (e_index ev) (e_index ev)); [|congruence].
      now rewrite Hz.
    + assert (e_index a <> e_index ev) as Hne.
      { intro C. apply Hnotin. rewrite C. now apply in_map. }
      simpl. destruct (touches a v); simpl.
      * destruct (Nat.eq_dec (e_index a) (e_index ev)); [contradiction|].
        now apply IH.
      * now apply IH.
Qed.

(** X17.  [get_linked_edges] returns only edges of the mesh that are in
    [filter_edges] and have an end among the given vertices.  In a mesh
    whose edges have different identifiers it lists such an edge once for
    each of the given vertices it ends at: an edge that joins the two
    given vertices is listed twice. *)
Theorem linked_edges_are_listed_per_vertex
        (bm : BMesh) (vs filter_edges : list nat) :
  (forall e, In e (get_linked_edges bm vs filter_edges) <->
     In e filter_edges
     /\ exists ev v, In ev (edges bm) /\ e_index ev = e
                     /\ In v vs /\ touches ev v = true)
  /\ (NoDup (map e_index (edges bm)) ->
      forall ev a b,
        In ev (edges bm) -> In (e_index ev) filter_edges ->
        e_v1 ev = a -> e_v2 ev = b -> a <> b ->
        count_occ Nat.eq_dec (get_linked_edges bm [a; b] filter_edges)
                  (e_index ev) = 2%nat).
Proof.
  unfold get_linked_edges. split.
  - intro e. rewrite filter_In, mem_In, in_flat_map. split.
    + intros [(v & Hv & He) Hf]. split; [exact Hf|].
      unfold link_edges in He. apply in_map_iff in He.
      destruct He as (ev & Ei & Hev). apply filter_In in Hev.
      exists ev, v. tauto.
    + intros [Hf (ev & v & Hin & Ei & Hv & Ht)]. split; [|exact Hf].
      exists v. split; [exact Hv|]. unfold link_edges.
      apply in_map_iff. exists ev. split; [exact Ei|].
      apply filter_In. tauto.
  - intros Hnd ev a b Hin Hf Ha Hb Hab.
    rewrite count_occ_filter, (proj2 (mem_In _ _) Hf).
    simpl. rewrite app_nil_r, count_occ_app.
    rewrite !(link_edges_count bm _ ev Hnd Hin).
    unfold touches. rewrite Ha, Hb, !Nat.eqb_refl, orb_true_r. reflexivity.
Qed.

Lemma linked_edges_are_listed_per_vertex_witness :
  count_occ Nat.eq_dec (get_linked_edges square_ridge [0; 1]%nat [4; 10]%nat)
            4%nat = 2%nat.
Proof.
  apply (proj2 (linked_edges_are_listed_per_vertex
                  square_ridge [0; 1]%nat [4; 10]%nat)
               ltac:(vm_compute; repeat constructor; simpl; intuition lia)
               (mkEdge 4 0 1) 0%nat 1%nat).
  - simpl. auto.
  - simpl. auto.
  - reflexivity.
  - reflexivity.
  - discriminate.
Defined.
